(** * go-utils: the LRU cache, the latest-item queue and the priority queue

    A shallow embedding of the three Go packages' data structures and a
    verification of their documented behaviour.

    - [Cache]: [LRUCache] of lru.go ([NewLRUCache], [Get], [Put], [evict]),
      over a model of [container/list] and [sync.Pool], for key types whose
      [==] is the identity.
    - [AnyKey]: the same code for every comparable key type, with [==] and
      hashability of the keys as parameters.
    - [Stream]: [LatestItemQueue] of stream/latest_item_queue.go, over a
      model of Go channels, and the [PriorityQueue] of the same package.

    Go pointers are handles into arenas (lists indexed by [loc]); a handle
    that is not allocated plays the role of a nil pointer, and dereferencing
    it panics.  The mutex of [LRUCache] serialises the operations, which are
    therefore modelled as atomic state transformers.  The queues have no
    lock: their operations are modelled as calls that run to their end
    without another goroutine operating on the same queue in between. *)

From Stdlib Require Import ZArith String.
From stdpp Require Import base relations option list sorting gmap strings.

Local Open Scope Z_scope.

(** ** Results of fallible Go code: a value or a panic *)

Inductive result (A : Type) : Type :=
| Ok (a : A)
| Panic (msg : string).
Arguments Ok {A} a.
Arguments Panic {A} msg.

(** Handles of heap objects. *)
Abbreviation loc := nat.

Definition nil_deref : string :=
  "runtime error: invalid memory address or nil pointer dereference".

(** * Package cache *)

Module Cache.

Section lru.
Context {K : Type} `{Countable K} {V : Type}.
(** The zero values of the type parameters. *)
Variable zeroK : K.
Variable zeroV : V.
(** The scheduling freedom of [sync.Pool]: [Pool.Get] "selects an arbitrary
    item from the Pool" and "may choose to ignore the pool and treat it as
    empty".  [select] names the position of the chosen item, or [None] when
    the pool is ignored. *)
Variable select : list loc → option nat.

(** [type entry[K, V] struct { key K; value V }] *)
Record entry : Type := Entry { key : K; value : V }.

(** [type LRUCache[K, V] struct]: the four data fields, together with the
    two arenas that hold the heap objects the fields point to.
    - [list_]: the [*list.List], as the sequence of its [*list.Element]
      handles from front to back;
    - [dict]: [map[K]*list.Element], indexed by the identity of the keys:
      this is the Go map for key types on which [==] is the identity and
      every key can be hashed (integers, strings, pointers, ...); the
      module [AnyKey] below covers the other comparable types, and
      [identity_keys_agree] shows that the two agree on these;
    - [pool]: the [*entry] records currently stored in the [sync.Pool];
    - [entries]: arena of the [entry] records ([*entry] handles index it);
    - [elements]: arena of the [list.Element]s, each with its [Value]
      (a [*entry]). *)
Record LRUCache : Type := Build_LRUCache {
  capacity : Z;
  list_ : list loc;
  dict : gmap K loc;
  pool : list loc;
  entries : list entry;
  elements : list loc
}.

Definition set_list (l : list loc) (c : LRUCache) : LRUCache :=
  Build_LRUCache (capacity c) l (dict c) (pool c) (entries c) (elements c).
Definition set_dict (d : gmap K loc) (c : LRUCache) : LRUCache :=
  Build_LRUCache (capacity c) (list_ c) d (pool c) (entries c) (elements c).
Definition set_pool (p : list loc) (c : LRUCache) : LRUCache :=
  Build_LRUCache (capacity c) (list_ c) (dict c) p (entries c) (elements c).
Definition set_entries (es : list entry) (c : LRUCache) : LRUCache :=
  Build_LRUCache (capacity c) (list_ c) (dict c) (pool c) es (elements c).
Definition set_elements (els : list loc) (c : LRUCache) : LRUCache :=
  Build_LRUCache (capacity c) (list_ c) (dict c) (pool c) (entries c) els.

(** ** The monad of cache methods: state passing with panics *)

Definition M (A : Type) : Type := LRUCache → result (A * LRUCache).

#[global] Instance M_ret : MRet M := λ A a c, Ok (a, c).
#[global] Instance M_bind : MBind M := λ A B f m c,
  match m c with
  | Ok (a, c') => f a c'
  | Panic msg => Panic msg
  end.
Definition gets {A} (f : LRUCache → A) : M A := λ c, Ok (f c, c).
Definition modify (f : LRUCache → LRUCache) : M unit := λ c, Ok (tt, f c).

(** ** container/list *)

(** [l.Len()] *)
Definition Len : M Z := gets (λ c, Z.of_nat (length (list_ c))).

(** [l.Back()]: the last element, or nil for an empty list. *)
Definition Back : M (option loc) := gets (λ c, last (list_ c)).

(** [l.MoveToFront(e)]: "If e is not an element of l, the list is not
    modified." *)
Definition MoveToFront (e : loc) : M unit :=
  modify (λ c, if decide (e ∈ list_ c)
               then set_list (e :: filter (λ x, x ≠ e) (list_ c)) c
               else c).

(** [l.Remove(e)]: unlinks [e] if it is an element of [l]. *)
Definition Remove (e : loc) : M unit :=
  modify (λ c, set_list (filter (λ x, x ≠ e) (list_ c)) c).

(** [l.PushFront(v)]: allocates a new element with [Value = v], links it at
    the front and returns it. *)
Definition PushFront (v : loc) : M loc :=
  λ c, let e := length (elements c) in
       Ok (e, set_list (e :: list_ c) (set_elements (elements c ++ [v]) c)).

(** [elem.Value], asserted to be a pointer to an [entry]. *)
Definition elem_Value (e : loc) : M loc :=
  λ c, match elements c !! e with
       | Some p => Ok (p, c)
       | None => Panic nil_deref
       end.

(** ** Field accesses through an [*entry] *)

Definition load (p : loc) : M entry :=
  λ c, match entries c !! p with
       | Some ent => Ok (ent, c)
       | None => Panic nil_deref
       end.

(** [p.key = k] *)
Definition store_key (p : loc) (k : K) : M unit :=
  ent ← load p;
  modify (λ c, set_entries (<[p := Entry k (value ent)]> (entries c)) c).

(** [p.value = v] *)
Definition store_value (p : loc) (v : V) : M unit :=
  ent ← load p;
  modify (λ c, set_entries (<[p := Entry (key ent) v]> (entries c)) c).

(** ** sync.Pool *)

(** [New: func() interface{} { return new(entry[K, V]) }] *)
Definition pool_New : M loc :=
  λ c, Ok (length (entries c),
           set_entries (entries c ++ [Entry zeroK zeroV]) c).

(** [c.pool.Get()]: an item of the pool, removed from it, or the result of
    [New]. *)
Definition pool_Get : M loc :=
  λ c, match select (pool c) with
       | Some i =>
           match pool c !! i with
           | Some p => Ok (p, set_pool (delete i (pool c)) c)
           | None => pool_New c
           end
       | None => pool_New c
       end.

(** [c.pool.Put(x)] *)
Definition pool_Put (p : loc) : M unit :=
  modify (λ c, set_pool (p :: pool c) c).

(** ** The methods of lru.go *)

Definition capacity_msg : string :=
  "cache: capacity must be greater than zero".

(** [func NewLRUCache[K, V](capacity int) *LRUCache[K, V]] *)
Definition NewLRUCache (capacity : Z) : result LRUCache :=
  if decide (capacity ≤ 0) then Panic capacity_msg
  else Ok (Build_LRUCache capacity [] ∅ [] [] []).

(** [func (c *LRUCache[K, V]) Get(key K) (V, bool)] *)
Definition Get (k : K) : M (V * bool) :=
  found ← gets (λ c, dict c !! k);
  match found with
  | Some elem =>
      MoveToFront elem;;
      p ← elem_Value elem;
      ent ← load p;
      mret (value ent, true)
  | None => mret (zeroV, false)
  end.

(** [func (c *LRUCache[K, V]) evict()] *)
Definition evict : M unit :=
  oldest ← Back;
  match oldest with
  | Some o =>
      oldEntry ← elem_Value o;
      ent ← load oldEntry;
      modify (λ c, set_dict (delete (key ent) (dict c)) c);;
      Remove o;;
      pool_Put oldEntry
  | None => mret tt
  end.

(** Lines 78-80 of [Put]: the record for a new key is taken from the pool
    and both of its fields are assigned. *)
Definition Put_alloc (k : K) (val : V) : M loc :=
  e ← pool_Get;
  store_key e k;;
  store_value e val;;
  mret e.

(** [func (c *LRUCache[K, V]) Put(key K, val V)] *)
Definition Put (k : K) (val : V) : M unit :=
  found ← gets (λ c, dict c !! k);
  match found with
  | Some elem =>
      p ← elem_Value elem;
      store_value p val;;
      MoveToFront elem
  | None =>
      e ← Put_alloc k val;
      n ← Len;
      cap ← gets capacity;
      (if decide (cap ≤ n) then evict else mret tt);;
      elem ← PushFront e;
      modify (λ c, set_dict (<[k := elem]> (dict c)) c)
  end.

(** ** A monitor for the capacity check

    [evict_checked] is [evict] with the branch for the empty list turned
    into a panic, and [Put_checked] is [Put] with [evict_checked] in the
    place of [evict]: a run of [Put_checked] panics exactly when [Put]
    reaches [evict] with an empty list. *)

Definition evict_on_empty : string := "evict reached with an empty list".

Definition evict_checked : M unit :=
  oldest ← Back;
  match oldest with
  | Some o =>
      oldEntry ← elem_Value o;
      ent ← load oldEntry;
      modify (λ c, set_dict (delete (key ent) (dict c)) c);;
      Remove o;;
      pool_Put oldEntry
  | None => λ _, Panic evict_on_empty
  end.

Definition Put_checked (k : K) (val : V) : M unit :=
  found ← gets (λ c, dict c !! k);
  match found with
  | Some elem =>
      p ← elem_Value elem;
      store_value p val;;
      MoveToFront elem
  | None =>
      e ← Put_alloc k val;
      n ← Len;
      cap ← gets capacity;
      (if decide (cap ≤ n) then evict_checked else mret tt);;
      elem ← PushFront e;
      modify (λ c, set_dict (<[k := elem]> (dict c)) c)
  end.

(** ** Sequences of operations *)

Inductive op : Type :=
| OpGet (k : K)
| OpPut (k : K) (v : V).

(** What the caller sees of one operation. *)
Inductive reply : Type :=
| Got (v : V) (found : bool)
| Done.

Definition step (o : op) : M reply :=
  match o with
  | OpGet k => r ← Get k; mret (Got r.1 r.2)
  | OpPut k v => Put k v;; mret Done
  end.

Fixpoint run (ops : list op) : M (list reply) :=
  match ops with
  | [] => mret []
  | o :: ops' => r ← step o; rs ← run ops'; mret (r :: rs)
  end.

(** A fresh cache and then the operations, as a client program does. *)
Definition session (capacity : Z) (ops : list op)
  : result (list reply * LRUCache) :=
  match NewLRUCache capacity with
  | Ok c => run ops c
  | Panic msg => Panic msg
  end.

(** ** The variant without pooling

    Section 5 of the specification: "pooling is disabled (every retire is a
    no-op and every reuse always allocates fresh)".  These definitions
    follow that sentence; they are compared with [Put] and [evict] above. *)

Definition evict_nopool : M unit :=
  oldest ← Back;
  match oldest with
  | Some o =>
      oldEntry ← elem_Value o;
      ent ← load oldEntry;
      modify (λ c, set_dict (delete (key ent) (dict c)) c);;
      Remove o
  | None => mret tt
  end.

Definition Put_alloc_nopool (k : K) (val : V) : M loc :=
  e ← pool_New;
  store_key e k;;
  store_value e val;;
  mret e.

Definition Put_nopool (k : K) (val : V) : M unit :=
  found ← gets (λ c, dict c !! k);
  match found with
  | Some elem =>
      p ← elem_Value elem;
      store_value p val;;
      MoveToFront elem
  | None =>
      e ← Put_alloc_nopool k val;
      n ← Len;
      cap ← gets capacity;
      (if decide (cap ≤ n) then evict_nopool else mret tt);;
      elem ← PushFront e;
      modify (λ c, set_dict (<[k := elem]> (dict c)) c)
  end.

Definition step_nopool (o : op) : M reply :=
  match o with
  | OpGet k => r ← Get k; mret (Got r.1 r.2)
  | OpPut k v => Put_nopool k v;; mret Done
  end.

Fixpoint run_nopool (ops : list op) : M (list reply) :=
  match ops with
  | [] => mret []
  | o :: ops' => r ← step_nopool o; rs ← run_nopool ops'; mret (r :: rs)
  end.

Definition session_nopool (capacity : Z) (ops : list op)
  : result (list reply * LRUCache) :=
  match NewLRUCache capacity with
  | Ok c => run_nopool ops c
  | Panic msg => Panic msg
  end.

(** ** What a cache holds *)

(** The key and value reached from a list element through its [Value]. *)
Definition node (c : LRUCache) (e : loc) : option (K * V) :=
  p ← elements c !! e;
  ent ← entries c !! p;
  Some (key ent, value ent).

(** The live pairs in recency order, most recently used first. *)
Definition contents (c : LRUCache) : option (list (K * V)) :=
  mapM (node c) (list_ c).

(** What a client can tell of a finished session: the replies, and the
    live pairs in recency order. *)
Definition observe (r : result (list reply * LRUCache))
  : result (list reply * option (list (K * V))) :=
  match r with
  | Ok (rs, c) => Ok (rs, contents c)
  | Panic msg => Panic msg
  end.

(** ** The recency sequence, abstractly *)

Fixpoint assoc (k : K) (l : list (K * V)) : option V :=
  match l with
  | [] => None
  | (k', v) :: l' => if decide (k' = k) then Some v else assoc k l'
  end.

Definition without (k : K) (l : list (K * V)) : list (K * V) :=
  filter (λ kv, kv.1 ≠ k) l.

Definition seq_get (k : K) (l : list (K * V)) : (V * bool) * list (K * V) :=
  match assoc k l with
  | Some v => ((v, true), (k, v) :: without k l)
  | None => ((zeroV, false), l)
  end.

Definition seq_put (cap : Z) (k : K) (v : V) (l : list (K * V))
  : list (K * V) :=
  match assoc k l with
  | Some _ => (k, v) :: without k l
  | None =>
      (k, v) :: (if decide (cap ≤ Z.of_nat (length l)) then removelast l else l)
  end.

Definition seq_step (cap : Z) (o : op) (l : list (K * V))
  : reply * list (K * V) :=
  match o with
  | OpGet k => let r := seq_get k l in (Got r.1.1 r.1.2, r.2)
  | OpPut k v => (Done, seq_put cap k v l)
  end.

Fixpoint seq_run (cap : Z) (ops : list op) (l : list (K * V))
  : list reply * list (K * V) :=
  match ops with
  | [] => ([], l)
  | o :: ops' =>
      let r := seq_step cap o l in
      let rs := seq_run cap ops' r.2 in
      (r.1 :: rs.1, rs.2)
  end.

(** ** Last touches

    [last_touch h k] is the position in the history [h] of the last
    operation that names key [k] (a [Get] or a [Put]), if any. *)

Definition touches (o : op) (k : K) : bool :=
  match o with
  | OpGet k' => bool_decide (k' = k)
  | OpPut k' _ => bool_decide (k' = k)
  end.

Fixpoint last_touch_from (t : nat) (h : list op) (k : K) : option nat :=
  match h with
  | [] => None
  | o :: h' =>
      match last_touch_from (S t) h' k with
      | Some t' => Some t'
      | None => if touches o k then Some t else None
      end
  end.

Definition last_touch (h : list op) (k : K) : option nat :=
  last_touch_from 0 h k.

(** [fresher h a b]: the key of [a] was last touched after the key of [b]. *)
Definition fresher (h : list op) (a b : K * V) : Prop :=
  ∃ ta tb, last_touch h a.1 = Some ta ∧ last_touch h b.1 = Some tb ∧
           (tb < ta)%nat.

(** A sequence of pairs in which every pair is fresher than all the pairs
    behind it. *)
Definition recency_ordered (h : list op) (l : list (K * V)) : Prop :=
  StronglySorted (fresher h) l ∧ Forall (λ a, is_Some (last_touch h a.1)) l.

(** ** The representation invariant *)

Record inv (c : LRUCache) : Prop := Inv {
  inv_capacity : 0 < capacity c;
  inv_bounded : Z.of_nat (length (list_ c)) ≤ capacity c;
  inv_size : size (dict c) = length (list_ c);
  inv_list_nodup : NoDup (list_ c);
  inv_list_dict : ∀ e, e ∈ list_ c →
    ∃ p ent, elements c !! e = Some p ∧ entries c !! p = Some ent ∧
             dict c !! key ent = Some e;
  inv_dict_list : ∀ k e, dict c !! k = Some e →
    e ∈ list_ c ∧
    ∃ p ent, elements c !! e = Some p ∧ entries c !! p = Some ent ∧
             key ent = k;
  inv_owner : ∀ e1 e2 p, e1 ∈ list_ c → e2 ∈ list_ c →
    elements c !! e1 = Some p → elements c !! e2 = Some p → e1 = e2;
  inv_pool_nodup : NoDup (pool c);
  inv_pool : ∀ p, p ∈ pool c →
    is_Some (entries c !! p) ∧
    ∀ e, e ∈ list_ c → elements c !! e ≠ Some p
}.

(** The pairs of [l] in order, each key kept at its first occurrence only. *)
Fixpoint distinct_keys (l : list (K * V)) : list (K * V) :=
  match l with
  | [] => []
  | (k, v) :: l' => (k, v) :: without k (distinct_keys l')
  end.

(** A sequence of [Put]s, one for each pair. *)
Definition puts (kvs : list (K * V)) : list op :=
  (λ kv, OpPut kv.1 kv.2) <$> kvs.

(** The state after [l.MoveToFront(e)] for an element of the list. *)
Definition moved (e : loc) (c : LRUCache) : LRUCache :=
  set_list (e :: filter (λ x, x ≠ e) (list_ c)) c.

(** The path [Put] takes for a key that is not in [dict], with the way a
    record is obtained and the way the oldest node is retired left open;
    [Put] and [Put_nopool] instantiate it. *)
Definition new_key_path (alloc : M loc) (retire : M unit) (k : K) : M unit :=
  e ← alloc;
  n ← Len;
  cap ← gets capacity;
  (if decide (cap ≤ n) then retire else mret tt);;
  elem ← PushFront e;
  modify (λ c, set_dict (<[k := elem]> (dict c)) c).

(** An entry record that is allocated but neither live nor pooled: the one
    [Put] holds between [pool.Get] and [PushFront]. *)
Definition limbo (c : LRUCache) (p : loc) : Prop :=
  is_Some (entries c !! p) ∧ (p ∉ pool c) ∧
  ∀ e, e ∈ list_ c → elements c !! e ≠ Some p.

(** What the new-key path needs of the step that obtains a record: it
    hands out a record in limbo holding [(k, v)] and leaves the live nodes
    as they are. *)
Definition allocates (alloc : M loc) (k : K) (v : V) : Prop :=
  ∀ c, inv c →
    ∃ p c1, alloc c = Ok (p, c1) ∧ inv c1 ∧ limbo c1 p ∧
            entries c1 !! p = Some (Entry k v) ∧
            list_ c1 = list_ c ∧ dict c1 = dict c ∧
            capacity c1 = capacity c ∧
            ∀ e, e ∈ list_ c → node c1 e = node c e.

(** What it needs of the step that retires the oldest node: the back of
    the list is unlinked and its key leaves [dict]. *)
Definition retires (retire : M unit) : Prop :=
  ∀ c es o, inv c → list_ c = es ++ [o] →
    ∃ c2 ko vo, retire c = Ok (tt, c2) ∧ node c o = Some (ko, vo) ∧
      dict c !! ko = Some o ∧ inv c2 ∧
      list_ c2 = es ∧ dict c2 = delete ko (dict c) ∧
      entries c2 = entries c ∧ elements c2 = elements c ∧
      capacity c2 = capacity c ∧
      ∀ p, limbo c p → limbo c2 p.

End lru.

(** The policy of a pool that never hands out a pooled record; used for
    concrete sessions. *)
Definition ignore_pool : list loc → option nat := λ _, None.

(** The policy of a pool that hands out the record retired last. *)
Definition reuse_last : list loc → option nat :=
  λ p, match p with [] => None | _ :: _ => Some 0%nat end.

End Cache.

(** * Package cache, for every comparable key type

    [Cache] above indexes [dict] by the identity of the keys, which is what
    a Go map does for key types whose [==] is the identity (integers,
    strings, ...).  The type parameter [K comparable] of lru.go allows more:
    keys that differ from themselves (a float64 NaN, or a struct, array or
    interface value holding one) and interface values that cannot be
    hashed.  This module embeds the same code over a Go map whose key
    comparison [eqb] is a parameter; the bridge between the two modules is
    proved below. *)

Module AnyKey.

Section lru.
Context {K V : Type}.
(** Go's [==] on [K]. *)
Variable eqb : K → K → bool.
(** Whether a key can be hashed; a map operation on a key that cannot
    panics. *)
Variable hashable : K → bool.
Variable zeroK : K.
Variable zeroV : V.
Variable select : list loc → option nat.

(** [type LRUCache[K, V] struct], as in [Cache], with [dict] a Go map: a
    collection of key/element pairs. *)
Record LRUCache : Type := Build_LRUCache {
  capacity : Z;
  list_ : list loc;
  dict : list (K * loc);
  pool : list loc;
  entries : list (@Cache.entry K V);
  elements : list loc
}.

Definition set_list (l : list loc) (c : LRUCache) : LRUCache :=
  Build_LRUCache (capacity c) l (dict c) (pool c) (entries c) (elements c).
Definition set_dict (d : list (K * loc)) (c : LRUCache) : LRUCache :=
  Build_LRUCache (capacity c) (list_ c) d (pool c) (entries c) (elements c).
Definition set_pool (p : list loc) (c : LRUCache) : LRUCache :=
  Build_LRUCache (capacity c) (list_ c) (dict c) p (entries c) (elements c).
Definition set_entries (es : list (@Cache.entry K V)) (c : LRUCache)
  : LRUCache :=
  Build_LRUCache (capacity c) (list_ c) (dict c) (pool c) es (elements c).
Definition set_elements (els : list loc) (c : LRUCache) : LRUCache :=
  Build_LRUCache (capacity c) (list_ c) (dict c) (pool c) (entries c) els.

Definition M (A : Type) : Type := LRUCache → result (A * LRUCache).

#[global] Instance M_ret : MRet M := λ A a c, Ok (a, c).
#[global] Instance M_bind : MBind M := λ A B f m c,
  match m c with
  | Ok (a, c') => f a c'
  | Panic msg => Panic msg
  end.
Definition gets {A} (f : LRUCache → A) : M A := λ c, Ok (f c, c).
Definition modify (f : LRUCache → LRUCache) : M unit := λ c, Ok (tt, f c).

(** ** The Go map *)

Definition unhashable : string := "runtime error: hash of unhashable type".

(** The pair of the map whose key is [==] to [k], if there is one. *)
Fixpoint map_find (k : K) (m : list (K * loc)) : option (K * loc) :=
  match m with
  | [] => None
  | (k', e) :: m' => if eqb k' k then Some (k', e) else map_find k m'
  end.

(** [elem, ok := c.dict[k]] *)
Definition map_index (k : K) : M (option loc) :=
  λ c, if hashable k then Ok (snd <$> map_find k (dict c), c)
       else Panic unhashable.

(** [c.dict[k] = e]: the pair with a key [==] to [k] is overwritten (for
    the key types on which [==] is not the identity the runtime stores the
    new key as well); without such a pair a new pair is added. *)
Definition map_assign (k : K) (e : loc) : M unit :=
  λ c, if hashable k
       then Ok (tt, set_dict
                      (match map_find k (dict c) with
                       | Some _ =>
                           (λ kv, if eqb kv.1 k then (k, e) else kv)
                             <$> dict c
                       | None => dict c ++ [(k, e)]
                       end) c)
       else Panic unhashable.

(** [delete(c.dict, k)] *)
Definition map_delete (k : K) : M unit :=
  λ c, if hashable k
       then Ok (tt, set_dict (filter (λ kv, eqb kv.1 k = false) (dict c)) c)
       else Panic unhashable.

(** ** container/list, entry fields and sync.Pool, as in [Cache] *)

Definition Len : M Z := gets (λ c, Z.of_nat (length (list_ c))).

Definition Back : M (option loc) := gets (λ c, last (list_ c)).

Definition MoveToFront (e : loc) : M unit :=
  modify (λ c, if decide (e ∈ list_ c)
               then set_list (e :: filter (λ x, x ≠ e) (list_ c)) c
               else c).

Definition Remove (e : loc) : M unit :=
  modify (λ c, set_list (filter (λ x, x ≠ e) (list_ c)) c).

Definition PushFront (v : loc) : M loc :=
  λ c, let e := length (elements c) in
       Ok (e, set_list (e :: list_ c) (set_elements (elements c ++ [v]) c)).

Definition elem_Value (e : loc) : M loc :=
  λ c, match elements c !! e with
       | Some p => Ok (p, c)
       | None => Panic nil_deref
       end.

Definition load (p : loc) : M (@Cache.entry K V) :=
  λ c, match entries c !! p with
       | Some ent => Ok (ent, c)
       | None => Panic nil_deref
       end.

Definition store_key (p : loc) (k : K) : M unit :=
  ent ← load p;
  modify (λ c, set_entries
                 (<[p := Cache.Entry k (Cache.value ent)]> (entries c)) c).

Definition store_value (p : loc) (v : V) : M unit :=
  ent ← load p;
  modify (λ c, set_entries
                 (<[p := Cache.Entry (Cache.key ent) v]> (entries c)) c).

Definition pool_New : M loc :=
  λ c, Ok (length (entries c),
           set_entries (entries c ++ [Cache.Entry zeroK zeroV]) c).

Definition pool_Get : M loc :=
  λ c, match select (pool c) with
       | Some i =>
           match pool c !! i with
           | Some p => Ok (p, set_pool (delete i (pool c)) c)
           | None => pool_New c
           end
       | None => pool_New c
       end.

Definition pool_Put (p : loc) : M unit :=
  modify (λ c, set_pool (p :: pool c) c).

(** ** The methods of lru.go *)

(** [func NewLRUCache[K, V](capacity int) *LRUCache[K, V]] *)
Definition NewLRUCache (capacity : Z) : result LRUCache :=
  if decide (capacity ≤ 0) then Panic Cache.capacity_msg
  else Ok (Build_LRUCache capacity [] [] [] [] []).

(** [func (c *LRUCache[K, V]) Get(key K) (V, bool)] *)
Definition Get (k : K) : M (V * bool) :=
  found ← map_index k;
  match found with
  | Some elem =>
      MoveToFront elem;;
      p ← elem_Value elem;
      ent ← load p;
      mret (Cache.value ent, true)
  | None => mret (zeroV, false)
  end.

(** [func (c *LRUCache[K, V]) evict()] *)
Definition evict : M unit :=
  oldest ← Back;
  match oldest with
  | Some o =>
      oldEntry ← elem_Value o;
      ent ← load oldEntry;
      map_delete (Cache.key ent);;
      Remove o;;
      pool_Put oldEntry
  | None => mret tt
  end.

Definition Put_alloc (k : K) (val : V) : M loc :=
  e ← pool_Get;
  store_key e k;;
  store_value e val;;
  mret e.

(** [func (c *LRUCache[K, V]) Put(key K, val V)] *)
Definition Put (k : K) (val : V) : M unit :=
  found ← map_index k;
  match found with
  | Some elem =>
      p ← elem_Value elem;
      store_value p val;;
      MoveToFront elem
  | None =>
      e ← Put_alloc k val;
      n ← Len;
      cap ← gets capacity;
      (if decide (cap ≤ n) then evict else mret tt);;
      elem ← PushFront e;
      map_assign k elem
  end.

Definition step (o : @Cache.op K V) : M (@Cache.reply V) :=
  match o with
  | Cache.OpGet k => r ← Get k; mret (Cache.Got r.1 r.2)
  | Cache.OpPut k v => Put k v;; mret Cache.Done
  end.

Fixpoint run (ops : list (@Cache.op K V)) : M (list (@Cache.reply V)) :=
  match ops with
  | [] => mret []
  | o :: ops' => r ← step o; rs ← run ops'; mret (r :: rs)
  end.

Definition session (capacity : Z) (ops : list (@Cache.op K V))
  : result (list (@Cache.reply V) * LRUCache) :=
  match NewLRUCache capacity with
  | Ok c => run ops c
  | Panic msg => Panic msg
  end.

(** A key a Go map handles as one key: it can be hashed and is [==] to
    itself. *)
Definition plain_key (k : K) : Prop :=
  hashable k = true ∧ eqb k k = true.

(** The operations considered below: the key of a [Get] can be hashed, the
    key of a [Put] is plain. *)
Definition plain_op (o : @Cache.op K V) : Prop :=
  match o with
  | Cache.OpGet k => hashable k = true
  | Cache.OpPut k _ => plain_key k
  end.

(** The keys of the map are plain, and no two of them are [==]. *)
Definition keys_ok (m : list (K * loc)) : Prop :=
  NoDup m.*1 ∧
  ∀ k, k ∈ m.*1 →
    plain_key k ∧ ∀ k', k' ∈ m.*1 → eqb k k' = true → k = k'.

(** The key the map holds for [k]: the stored key [==] to [k], or [k]
    itself when the map has none. *)
Definition stored_key (k : K) (m : list (K * loc)) : K :=
  match map_find k m with
  | Some kv => kv.1
  | None => k
  end.

Definition stored_op (o : @Cache.op K V) (m : list (K * loc))
  : @Cache.op K V :=
  match o with
  | Cache.OpGet k => Cache.OpGet (stored_key k m)
  | Cache.OpPut k v => Cache.OpPut (stored_key k m) v
  end.

(** [same_op o o']: the operation [o'] is [o] on the same key or on a key
    [==] to it. *)
Definition same_op (o o' : @Cache.op K V) : Prop :=
  match o, o' with
  | Cache.OpGet k, Cache.OpGet k' => k' = k ∨ eqb k' k = true
  | Cache.OpPut k v, Cache.OpPut k' v' =>
      (k' = k ∨ eqb k' k = true) ∧ v' = v
  | _, _ => False
  end.

End lru.

(** ** The bridge to [Cache] *)

Section bridge.
Context {K : Type} `{Countable K} {V : Type}.

(** The state of [Cache] with the same list, pool and records, and with
    the pairs of the Go map as its index. *)
Definition forget (g : @LRUCache K V) : @Cache.LRUCache K _ _ V :=
  Cache.Build_LRUCache (capacity g) (list_ g) (list_to_map (dict g))
    (pool g) (entries g) (elements g).

End bridge.

(** Keys like float64: [NaN] differs from itself. *)
Inductive float_key : Type :=
| NaN
| Num (z : Z).

Definition float_eqb (a b : float_key) : bool :=
  match a, b with
  | Num x, Num y => bool_decide (x = y)
  | _, _ => false
  end.

#[global] Instance float_key_eq_dec : EqDecision float_key.
Proof. solve_decision. Defined.

#[global] Instance float_key_countable : Countable float_key :=
  inj_countable'
    (λ k, match k with NaN => None | Num z => Some z end)
    (λ o, match o with None => NaN | Some z => Num z end)
    (λ k, match k with NaN => eq_refl | Num z => eq_refl end).

End AnyKey.

(** * Package stream *)

Module Stream.

(** ** Go channels, seen by one goroutine at a time

    A channel is its buffer, its capacity and whether it has been closed.
    An operation that would have to wait for another goroutine is reported
    as [Blocks]. *)

Record chan (T : Type) : Type := Chan {
  buf : list T;
  cap : nat;
  chan_closed : bool
}.
Arguments Chan {T} buf cap chan_closed.
Arguments buf {T} c.
Arguments cap {T} c.
Arguments chan_closed {T} c.

Inductive outcome (A : Type) : Type :=
| Returns (a : A)
| Panics (msg : string)
| Blocks.
Arguments Returns {A} a.
Arguments Panics {A} msg.
Arguments Blocks {A}.

#[global] Instance outcome_ret : MRet outcome := λ A a, Returns a.
#[global] Instance outcome_bind : MBind outcome := λ A B f m,
  match m with
  | Returns a => f a
  | Panics msg => Panics msg
  | Blocks => Blocks
  end.

(** [make(chan T, n)] *)
Definition make_chan {T} (n : nat) : chan T := Chan [] n false.

(** [ch <- x] *)
Definition send {T} (x : T) (ch : chan T) : outcome (chan T) :=
  if chan_closed ch then Panics "send on closed channel"
  else if bool_decide (length (buf ch) < cap ch)%nat
       then Returns (Chan (buf ch ++ [x]) (cap ch) false)
       else Blocks.

(** [x, ok := <-ch] *)
Definition recv {T} (zero : T) (ch : chan T) : outcome (T * bool * chan T) :=
  match buf ch with
  | x :: rest => Returns (x, true, Chan rest (cap ch) (chan_closed ch))
  | [] => if chan_closed ch then Returns (zero, false, ch) else Blocks
  end.

(** [close(ch)] *)
Definition close {T} (ch : chan T) : outcome (chan T) :=
  if chan_closed ch then Panics "close of closed channel"
  else Returns (Chan (buf ch) (cap ch) true).

(** Whether a [select] case can proceed at once. *)
Definition send_ready {T} (ch : chan T) : bool :=
  chan_closed ch || bool_decide (length (buf ch) < cap ch)%nat.
Definition recv_ready {T} (ch : chan T) : bool :=
  match buf ch with
  | _ :: _ => true
  | [] => chan_closed ch
  end.

Section latest.
Context {T : Type}.
(** The zero value of [T]. *)
Variable zero : T.

(** [type LatestItemQueue[T any] struct] *)
Record LatestItemQueue : Type := Build_LatestItemQueue {
  channel : chan T;
  closed : chan unit
}.

(** [func NewLatestItemQueue[T any]() *LatestItemQueue[T]] *)
Definition NewLatestItemQueue : LatestItemQueue :=
  Build_LatestItemQueue (make_chan 1) (make_chan 0).

(** [func (q *LatestItemQueue[T]) Produce(item T)].  When both cases of the
    [select] can proceed Go picks one of them at random: [first] tells
    whether the first one is picked.  The body is one transformer: this is
    a call during which no other goroutine operates on the queue.  (The
    queue has no lock; for a concurrent observer the [select] and the two
    statements of the [default] branch are separate steps.) *)
Definition Produce (first : bool) (item : T) (q : LatestItemQueue)
  : outcome LatestItemQueue :=
  if recv_ready (closed q) && (first || negb (send_ready (channel q))) then
    r ← recv tt (closed q);
    mret (Build_LatestItemQueue (channel q) r.2)
  else if send_ready (channel q) then
    ch ← send item (channel q);
    mret (Build_LatestItemQueue ch (closed q))
  else
    r ← recv zero (channel q);
    ch ← send item r.2;
    mret (Build_LatestItemQueue ch (closed q)).

(** [func (q *LatestItemQueue[T]) ConsumeChannel() <-chan T] *)
Definition ConsumeChannel (q : LatestItemQueue) : chan T := channel q.

(** A consumer's [item, ok := <-q.ConsumeChannel()]. *)
Definition Consume (q : LatestItemQueue)
  : outcome (T * bool * LatestItemQueue) :=
  r ← recv zero (ConsumeChannel q);
  mret (r.1, Build_LatestItemQueue r.2 (closed q)).

(** [func (q *LatestItemQueue[T]) Close()] *)
Definition Close (q : LatestItemQueue) : outcome LatestItemQueue :=
  if recv_ready (closed q) then
    r ← recv tt (closed q);
    mret (Build_LatestItemQueue (channel q) r.2)
  else
    cl ← close (closed q);
    ch ← close (channel q);
    mret (Build_LatestItemQueue ch cl).

(** One call on the queue that returns: a [Produce], a receive on the
    consume channel, or a [Close]. *)
Inductive queue_step : relation LatestItemQueue :=
| step_produce first item q q' :
    Produce first item q = Returns q' → queue_step q q'
| step_consume q r q' :
    Consume q = Returns (r, q') → queue_step q q'
| step_close q q' :
    Close q = Returns q' → queue_step q q'.

(** The queues a program can build from [NewLatestItemQueue]. *)
Definition reachable (q : LatestItemQueue) : Prop :=
  rtc queue_step NewLatestItemQueue q.

(** Both channels are closed together, nothing is ever sent on [closed],
    and [channel] holds at most one item. *)
Definition queue_inv (q : LatestItemQueue) : Prop :=
  chan_closed (closed q) = chan_closed (channel q) ∧
  buf (closed q) = [] ∧
  cap (channel q) = 1%nat ∧
  (length (buf (channel q)) ≤ 1)%nat.

End latest.

(** ** The priority queue *)

(** [type PriorityQueue[T any] []*Item[T]]: a slice of handles into the
    arena of the items. *)
Abbreviation PriorityQueue := (list loc).

Section pq.
Context {T : Type}.

(** [type Item[T any] struct] *)
Record Item : Type := Build_Item {
  value : T;
  priority : Z;
  index : Z
}.


(** [func NewPriorityQueue[T any]() *PriorityQueue[T]] *)
Definition NewPriorityQueue : PriorityQueue := [].

(** [func (pq PriorityQueue[T]) Len() int] *)
Definition Len (pq : PriorityQueue) : Z := Z.of_nat (length pq).

(** [item.index = i] *)
Definition set_index (i : Z) (it : Item) : Item :=
  Build_Item (value it) (priority it) i.

(** [func (pq *PriorityQueue[T]) Pop() interface{}]: the result is nil
    ([None]) or the popped [*Item]. *)
Definition Pop (pq : PriorityQueue) (items : list Item)
  : result (option loc * PriorityQueue * list Item) :=
  let old := pq in
  let n := length old in
  if decide (n = 0%nat) then Ok (None, pq, items)
  else
    match old !! (n - 1)%nat with
    | Some item =>
        match items !! item with
        | Some it =>
            Ok (Some item, take (n - 1) old,
                <[item := set_index (-1) it]> items)
        | None => Panic nil_deref
        end
    | None => Panic "runtime error: index out of range"
    end.

(** [func (pq *PriorityQueue[T]) Push(x any)] *)
Definition Push (item : loc) (pq : PriorityQueue) (items : list Item)
  : result (PriorityQueue * list Item) :=
  match items !! item with
  | Some it =>
      Ok (pq ++ [item], <[item := set_index (Len pq) it]> items)
  | None => Panic nil_deref
  end.

(** [pq[i]] for an [int] index: outside the slice it panics. *)
Definition at_index (pq : PriorityQueue) (i : Z) : option loc :=
  if decide (0 ≤ i) then pq !! Z.to_nat i else None.

(** [func (pq PriorityQueue[T]) Swap(i, j int)] *)
Definition Swap (i j : Z) (pq : PriorityQueue) (items : list Item)
  : result (PriorityQueue * list Item) :=
  match at_index pq i, at_index pq j with
  | Some a, Some b =>
      let pq' := <[Z.to_nat j := a]> (<[Z.to_nat i := b]> pq) in
      match at_index pq' i with
      | Some x =>
          match items !! x with
          | Some itx =>
              let items1 := <[x := set_index i itx]> items in
              match at_index pq' j with
              | Some y =>
                  match items1 !! y with
                  | Some ity => Ok (pq', <[y := set_index j ity]> items1)
                  | None => Panic nil_deref
                  end
              | None => Panic "runtime error: index out of range"
              end
          | None => Panic nil_deref
          end
      | None => Panic "runtime error: index out of range"
      end
  | _, _ => Panic "runtime error: index out of range"
  end.

(** The queues, with the arena of their items, that a program can build:
    it starts from [NewPriorityQueue], allocates items, writes to the
    items it holds (as [Update] does), and calls [Push], [Pop] and [Swap]
    (directly or through [container/heap]). *)
Inductive pq_reachable : PriorityQueue → list Item → Prop :=
| pq_reach_new : pq_reachable NewPriorityQueue []
| pq_reach_alloc pq items it :
    pq_reachable pq items → pq_reachable pq (items ++ [it])
| pq_reach_write pq items a it :
    pq_reachable pq items → is_Some (items !! a) →
    pq_reachable pq (<[a := it]> items)
| pq_reach_push pq items item pq' items' :
    pq_reachable pq items → Push item pq items = Ok (pq', items') →
    pq_reachable pq' items'
| pq_reach_pop pq items r pq' items' :
    pq_reachable pq items → Pop pq items = Ok (r, pq', items') →
    pq_reachable pq' items'
| pq_reach_swap pq items i j pq' items' :
    pq_reachable pq items → Swap i j pq items = Ok (pq', items') →
    pq_reachable pq' items'.

(** Every pointer in the slice is a pointer to an item. *)
Definition pq_valid (pq : PriorityQueue) (items : list Item) : Prop :=
  Forall (λ a, is_Some (items !! a)) pq.

(** [func (pq PriorityQueue[T]) Less(i, j int) bool]:
    [pq[i].priority > pq[j].priority]. *)
Definition Less (i j : Z) (pq : PriorityQueue) (items : list Item)
  : result bool :=
  match at_index pq i with
  | Some a =>
      match items !! a with
      | Some ita =>
          match at_index pq j with
          | Some b =>
              match items !! b with
              | Some itb => Ok (bool_decide (priority ita > priority itb))
              | None => Panic nil_deref
              end
          | None => Panic "runtime error: index out of range"
          end
      | None => Panic nil_deref
      end
  | None => Panic "runtime error: index out of range"
  end.

(** The [index] field of every item in the slice is its position. *)
Definition indexed (pq : PriorityQueue) (items : list Item) : Prop :=
  ∀ i a, pq !! i = Some a →
    ∃ it, items !! a = Some it ∧ index it = Z.of_nat i.

End pq.

End Stream.

(** * Verification of the cache *)

Import Cache.

Ltac unfold_M :=
  unfold mbind, M_bind, mret, M_ret, gets, modify in *.

(** ** Facts about lists *)

Section list_facts.
Context {A : Type} `{EqDecision A}.
Implicit Types (l : list A) (x : A).

Lemma filter_ne_snoc l x :
  NoDup (l ++ [x]) → filter (λ y, y ≠ x) (l ++ [x]) = l.
Proof.
  intros [_ [Hx _]]%NoDup_app.
  rewrite filter_app, filter_cons_False, filter_nil, app_nil_r by naive_solver.
  induction l as [|y l IH]; [done|].
  rewrite filter_cons_True.
  - f_equal. apply IH. intros z Hz. apply Hx. by right.
  - intros ->. eapply Hx; [left|]. apply list_elem_of_singleton. done.
Qed.

Lemma filter_ne_notin l x : x ∉ l → filter (λ y, y ≠ x) l = l.
Proof.
  induction l as [|y l IH]; [done|].
  intros [Hne Hl]%not_elem_of_cons.
  rewrite filter_cons_True by done. f_equal. by apply IH.
Qed.

Lemma length_filter_ne l x :
  NoDup l → x ∈ l → S (length (filter (λ y, y ≠ x) l)) = length l.
Proof.
  induction l as [|y l IH]; intros Hnd Hin.
  - by apply elem_of_nil in Hin.
  - apply NoDup_cons in Hnd as [Hy Hnd].
    destruct (decide (y = x)) as [->|Hne].
    + rewrite filter_cons_False by naive_solver.
      rewrite filter_ne_notin by done. done.
    + rewrite filter_cons_True by done. simpl. f_equal.
      apply IH; [done|]. apply elem_of_cons in Hin as [?|?]; congruence.
Qed.

Lemma removelast_snoc l x : removelast (l ++ [x]) = l.
Proof. apply removelast_last. Qed.

Lemma Forall2_with_elem {B} (P : A → B → Prop) l (k : list B) :
  Forall2 P l k → Forall2 (λ x y, x ∈ l ∧ P x y) l k.
Proof.
  intros HF.
  cut (∀ l0, (∀ x, x ∈ l → x ∈ l0) → Forall2 (λ x y, x ∈ l0 ∧ P x y) l k).
  { intros Hc. by apply Hc. }
  induction HF as [|x y l k HP HF IH]; intros l0 Hsub; constructor.
  - split; [|done]. apply Hsub. by left.
  - apply IH. intros z Hz. apply Hsub. by right.
Qed.

Lemma mapM_ext_elem {B} (f g : A → option B) l :
  (∀ x, x ∈ l → f x = g x) → mapM f l = mapM g l.
Proof.
  induction l as [|x l IH]; intros Hfg; [done|]. simpl.
  rewrite (Hfg x) by by left.
  rewrite IH; [done|]. intros y Hy. apply Hfg. by right.
Qed.


Lemma StronglySorted_filter (R : relation A) (P : A → Prop)
    `{∀ x, Decision (P x)} l :
  StronglySorted R l → StronglySorted R (filter P l).
Proof.
  induction 1 as [|x l Hs IH Hx]; [constructor|].
  rewrite filter_cons. case_decide; [|done].
  constructor; [done|].
  apply Forall_forall. intros y [_ Hy]%list_elem_of_filter.
  by apply (proj1 (Forall_forall _ _) Hx).
Qed.

Lemma StronglySorted_impl_elem (R R' : relation A) l :
  (∀ x y, x ∈ l → y ∈ l → R x y → R' x y) →
  StronglySorted R l → StronglySorted R' l.
Proof.
  intros HR Hs. induction Hs as [|x l Hs IH Hx]; [constructor|].
  constructor.
  - apply IH. intros a b Ha Hb. apply HR; by right.
  - apply Forall_forall. intros y Hy. apply HR; [by left|by right|].
    by apply (proj1 (Forall_forall _ _) Hx).
Qed.


End list_facts.

(** ** The cache refines the recency sequence *)

Section cache_facts.
Context {K : Type} `{Countable K} {V : Type}.
Context (zeroK : K) (zeroV : V) (select : list loc → option nat).

Local Abbreviation cache := (@LRUCache K _ _ V).
Local Abbreviation Get := (Cache.Get zeroV).
Local Abbreviation Put := (Cache.Put zeroK zeroV select).
Local Abbreviation Put_alloc := (Cache.Put_alloc zeroK zeroV select).
Local Abbreviation pool_Get := (Cache.pool_Get zeroK zeroV select).
Local Abbreviation step := (Cache.step zeroK zeroV select).
Local Abbreviation run := (Cache.run zeroK zeroV select).
Local Abbreviation session := (Cache.session zeroK zeroV select).
Local Abbreviation seq_get := (Cache.seq_get zeroV).
Local Abbreviation seq_step := (Cache.seq_step zeroV).
Local Abbreviation seq_run := (Cache.seq_run zeroV).

Implicit Types (c : cache) (k : K) (v : V) (e p : loc)
  (l : list (K * V)) (es : list loc).

Lemma assoc_None k l : assoc k l = None ↔ k ∉ l.*1.
Proof.
  induction l as [|[k' v'] l IH]; simpl.
  - split; [intros _; apply not_elem_of_nil|done].
  - rewrite not_elem_of_cons. destruct (decide (k' = k)) as [->|Hne].
    + split; [done|]. by intros [? _].
    + rewrite IH. split; [by split|by intros [_ ?]].
Qed.

Lemma assoc_Some k v l : assoc k l = Some v → (k, v) ∈ l.
Proof.
  induction l as [|[k' v'] l IH]; simpl; [done|].
  destruct (decide (k' = k)) as [->|]; intros Ha.
  - injection Ha as ->. by left.
  - right. by apply IH.
Qed.

Lemma assoc_elem k v l : NoDup l.*1 → (k, v) ∈ l → assoc k l = Some v.
Proof.
  induction l as [|[k' v'] l IH]; simpl; intros Hnd Hin.
  - by apply elem_of_nil in Hin.
  - apply NoDup_cons in Hnd as [Hk Hnd].
    apply elem_of_cons in Hin as [Heq|Hin].
    + injection Heq as <- <-. by rewrite decide_True.
    + rewrite decide_False; [by apply IH|].
      intros ->. apply Hk. apply list_elem_of_fmap. by exists (k, v).
Qed.

Lemma contents_Some c l :
  contents c = Some l ↔ Forall2 (λ e kv, node c e = Some kv) (list_ c) l.
Proof. apply mapM_Some. Qed.

Lemma inv_node c e :
  inv c → e ∈ list_ c →
  ∃ p ent, elements c !! e = Some p ∧ entries c !! p = Some ent ∧
           dict c !! key ent = Some e ∧ node c e = Some (key ent, value ent).
Proof.
  intros Hinv He.
  destruct (inv_list_dict c Hinv e He) as (p & ent & Hp & Hent & Hd).
  exists p, ent. repeat split; try done.
  unfold node. rewrite Hp. simpl. rewrite Hent. done.
Qed.

Lemma inv_contents c : inv c → ∃ l, contents c = Some l.
Proof.
  intros Hinv. apply mapM_is_Some, Forall_forall.
  intros e He. destruct (inv_node c e Hinv He) as (p & ent & _ & _ & _ & Hn).
  simpl. by rewrite Hn.
Qed.

Lemma node_key_dict c e k v :
  inv c → e ∈ list_ c → node c e = Some (k, v) → dict c !! k = Some e.
Proof.
  intros Hinv He Hn.
  destruct (inv_node c e Hinv He) as (p & ent & _ & _ & Hd & Hn').
  congruence.
Qed.

Lemma dict_node c k e :
  inv c → dict c !! k = Some e → e ∈ list_ c ∧ ∃ v, node c e = Some (k, v).
Proof.
  intros Hinv Hd.
  destruct (inv_dict_list c Hinv k e Hd) as (He & p & ent & Hp & Hent & Hk).
  split; [done|]. exists (value ent).
  unfold node. rewrite Hp. simpl. rewrite Hent. simpl. by rewrite Hk.
Qed.

Lemma contents_elem c l k v :
  contents c = Some l →
  (k, v) ∈ l ↔ ∃ e, e ∈ list_ c ∧ node c e = Some (k, v).
Proof.
  rewrite contents_Some. intros HF. split.
  - intros [i Hi]%list_elem_of_lookup.
    destruct (Forall2_lookup_r _ _ _ _ _ HF Hi) as (e & He & Hn).
    exists e. split; [|done]. apply list_elem_of_lookup. by exists i.
  - intros (e & [i Hi]%list_elem_of_lookup & Hn).
    destruct (Forall2_lookup_l _ _ _ _ _ HF Hi) as (kv & Hkv & Hn').
    apply list_elem_of_lookup. exists i. congruence.
Qed.

Lemma repr_keys_nodup c es l :
  inv c → NoDup es →
  Forall2 (λ e kv, e ∈ list_ c ∧ node c e = Some kv) es l → NoDup l.*1.
Proof.
  intros Hinv Hnd HF.
  induction HF as [|e [k v] es l [He Hn] HF IH]; simpl; [constructor|].
  apply NoDup_cons in Hnd as [Hnotin Hnd].
  apply NoDup_cons. split; [|by apply IH].
  intros [[k' v'] [Hk Hin]]%list_elem_of_fmap. simpl in Hk. subst k'.
  apply list_elem_of_lookup in Hin as [i Hi].
  destruct (Forall2_lookup_r _ _ _ _ _ HF Hi) as (e' & He' & He'in & Hn').
  assert (e' = e) as ->.
  { pose proof (node_key_dict c e k v Hinv He Hn).
    pose proof (node_key_dict c e' k v' Hinv He'in Hn'). congruence. }
  apply Hnotin. apply list_elem_of_lookup. by exists i.
Qed.

Lemma contents_keys_nodup c l : inv c → contents c = Some l → NoDup l.*1.
Proof.
  intros Hinv Hc. apply (repr_keys_nodup c (list_ c)); [done| |].
  - by apply inv_list_nodup.
  - by apply Forall2_with_elem, contents_Some.
Qed.

Lemma contents_assoc_None c l k :
  inv c → contents c = Some l → dict c !! k = None → assoc k l = None.
Proof.
  intros Hinv Hc Hd. apply assoc_None.
  intros [[k' v] [Hk Hin]]%list_elem_of_fmap. simpl in Hk. subst k'.
  apply (contents_elem c l k v Hc) in Hin as (e & He & Hn).
  pose proof (node_key_dict c e k v Hinv He Hn). congruence.
Qed.

Lemma contents_assoc_Some c l k e v :
  inv c → contents c = Some l → dict c !! k = Some e →
  node c e = Some (k, v) → assoc k l = Some v.
Proof.
  intros Hinv Hc Hd Hn. apply assoc_elem.
  - by eapply contents_keys_nodup.
  - apply (contents_elem c l k v Hc). exists e. split; [|done].
    by destruct (dict_node c k e Hinv Hd).
Qed.

(** *** Promotion of a live element *)

Lemma elem_of_moved c e x :
  e ∈ list_ c → x ∈ list_ (moved e c) ↔ x ∈ list_ c.
Proof.
  intros He. simpl. rewrite elem_of_cons, list_elem_of_filter. split.
  - by intros [->|[_ Hx]].
  - intros Hx. destruct (decide (x = e)) as [->|Hne]; [by left|by right].
Qed.

Lemma inv_moved c e : inv c → e ∈ list_ c → inv (moved e c).
Proof.
  intros Hinv He. pose proof (inv_list_nodup c Hinv) as Hnd.
  assert (length (list_ (moved e c)) = length (list_ c)) as Hlen.
  { simpl. by apply length_filter_ne. }
  constructor; try (rewrite Hlen); try apply Hinv.
  - simpl. apply NoDup_cons. split.
    + intros [Hne _]%list_elem_of_filter. by apply Hne.
    + by apply NoDup_filter.
  - intros x Hx%elem_of_moved; [|done]. by apply (inv_list_dict c Hinv).
  - intros k x Hd. destruct (inv_dict_list c Hinv k x Hd) as [Hx Hrest].
    split; [by apply elem_of_moved|done].
  - intros e1 e2 p H1%elem_of_moved H2%elem_of_moved; [|done..].
    by apply (inv_owner c Hinv).
  - intros p Hp. destruct (inv_pool c Hinv p Hp) as [Ha Hl].
    split; [done|]. intros x Hx%elem_of_moved; [|done]. by apply Hl.
Qed.

Lemma contents_moved c c1 e k v0 v l :
  inv c → contents c = Some l → e ∈ list_ c → node c e = Some (k, v0) →
  list_ c1 = list_ c →
  (∀ e', e' ∈ list_ c → e' ≠ e → node c1 e' = node c e') →
  node c1 e = Some (k, v) →
  contents (moved e c1) = Some ((k, v) :: without k l).
Proof.
  intros Hinv Hc He Hn Hl Hsame Hn1.
  apply contents_Some. simpl. constructor; [done|]. rewrite Hl.
  apply contents_Some, Forall2_with_elem in Hc.
  eapply (Forall2_filter _ (λ x, x ≠ e) (λ kv, kv.1 ≠ k)) in Hc.
  - apply Forall2_with_elem in Hc. eapply Forall2_impl; [exact Hc|].
    simpl. intros x y [[Hne Hx]%list_elem_of_filter [_ Hy]].
    change (node c1 x = Some y). by rewrite Hsame.
  - intros x [k' v'] [Hx Hnx]. simpl. split.
    + intros Hne ->. apply Hne.
      pose proof (node_key_dict c x k v' Hinv Hx Hnx).
      pose proof (node_key_dict c e k v0 Hinv He Hn). congruence.
    + intros Hne ->. congruence.
Qed.

(** *** Get *)

Lemma Get_miss c k : dict c !! k = None → Get k c = Ok ((zeroV, false), c).
Proof. intros Hd. unfold Cache.Get. unfold_M. by rewrite Hd. Qed.

Lemma Get_hit c k e p ent :
  dict c !! k = Some e → e ∈ list_ c →
  elements c !! e = Some p → entries c !! p = Some ent →
  Get k c = Ok ((value ent, true), moved e c).
Proof.
  intros Hd He Hp Hent. unfold Cache.Get, MoveToFront, elem_Value, load.
  unfold_M. rewrite Hd. rewrite decide_True by done. simpl.
  rewrite Hp. simpl. by rewrite Hent.
Qed.

Lemma Get_refines c k l :
  inv c → contents c = Some l →
  ∃ c', Get k c = Ok ((seq_get k l).1, c') ∧ inv c' ∧
        contents c' = Some (seq_get k l).2 ∧ capacity c' = capacity c.
Proof.
  intros Hinv Hc. unfold Cache.seq_get.
  destruct (dict c !! k) as [e|] eqn:Hd.
  - destruct (inv_dict_list c Hinv k e Hd) as (He & p & ent & Hp & Hent & Hk).
    assert (node c e = Some (k, value ent)) as Hn.
    { unfold node. rewrite Hp. simpl. rewrite Hent. simpl. by rewrite Hk. }
    rewrite (contents_assoc_Some c l k e (value ent)) by done. simpl.
    exists (moved e c). split; [by eapply Get_hit|].
    split; [by apply inv_moved|]. split; [|done].
    by eapply contents_moved.
  - rewrite (contents_assoc_None c l k) by done. simpl.
    exists c. split; [by apply Get_miss|done].
Qed.

(** *** Writing through an entry pointer *)

Lemma inv_set_entries c ents :
  inv c →
  (∀ q, is_Some (entries c !! q) → is_Some (ents !! q)) →
  (∀ e q ent, e ∈ list_ c → elements c !! e = Some q →
     entries c !! q = Some ent →
     ∃ ent', ents !! q = Some ent' ∧ key ent' = key ent) →
  inv (set_entries ents c).
Proof.
  intros Hinv Halloc Hlive. constructor; try apply Hinv.
  - intros e He. simpl in He |- *.
    destruct (inv_list_dict c Hinv e He) as (q & ent & Hq & Hent & Hd).
    destruct (Hlive e q ent He Hq Hent) as (ent' & Hent' & Hk).
    exists q, ent'. by rewrite Hk.
  - intros k e Hd. simpl in Hd |- *.
    destruct (inv_dict_list c Hinv k e Hd) as (He & q & ent & Hq & Hent & Hk).
    split; [done|].
    destruct (Hlive e q ent He Hq Hent) as (ent' & Hent' & Hk').
    exists q, ent'. by rewrite Hk'.
  - intros q Hq. simpl in Hq |- *.
    destruct (inv_pool c Hinv q Hq) as [Ha Hl]. split; [by apply Halloc|done].
Qed.

Lemma node_store_other c p x e :
  elements c !! e ≠ Some p →
  node (set_entries (<[p := x]> (entries c)) c) e = node c e.
Proof.
  intros Hne. unfold node. simpl.
  destruct (elements c !! e) as [q|]; [simpl|done].
  rewrite list_lookup_insert_ne; [done|]. congruence.
Qed.

Lemma node_store_same c p x e :
  elements c !! e = Some p → is_Some (entries c !! p) →
  node (set_entries (<[p := x]> (entries c)) c) e = Some (key x, value x).
Proof.
  intros He Hp%lookup_lt_is_Some. unfold node. simpl. rewrite He. simpl.
  by rewrite list_lookup_insert_eq.
Qed.

(** *** Put of a live key *)

Lemma Put_hit c k v e p ent :
  dict c !! k = Some e → e ∈ list_ c →
  elements c !! e = Some p → entries c !! p = Some ent →
  Put k v c =
    Ok (tt, moved e (set_entries (<[p := Entry (key ent) v]> (entries c)) c)).
Proof.
  intros Hd He Hp Hent.
  unfold Cache.Put, store_value, MoveToFront, elem_Value, load.
  unfold_M. rewrite Hd, Hp, Hent. simpl. by rewrite decide_True.
Qed.

Lemma inv_store_value c e p ent v :
  inv c → e ∈ list_ c → elements c !! e = Some p →
  entries c !! p = Some ent →
  inv (set_entries (<[p := Entry (key ent) v]> (entries c)) c).
Proof.
  intros Hinv He Hp Hent. apply inv_set_entries; [done| |].
  - intros q. by rewrite list_lookup_insert_is_Some.
  - intros e' q ent' He' Hq Hent'.
    destruct (decide (q = p)) as [->|Hne].
    + exists (Entry (key ent) v). split; [|simpl; congruence].
      apply list_lookup_insert_eq. by eapply lookup_lt_Some.
    + exists ent'. by rewrite list_lookup_insert_ne.
Qed.

Lemma Put_hit_refines c k v e l :
  inv c → contents c = Some l → dict c !! k = Some e →
  ∃ c', Put k v c = Ok (tt, c') ∧ inv c' ∧
        contents c' = Some ((k, v) :: without k l) ∧
        capacity c' = capacity c ∧ dict c' = dict c ∧
        elements c' = elements c ∧ pool c' = pool c ∧
        ∃ p ent, elements c !! e = Some p ∧ entries c !! p = Some ent ∧
                 entries c' = <[p := Entry k v]> (entries c) ∧
                 list_ c' = e :: filter (λ x, x ≠ e) (list_ c).
Proof.
  intros Hinv Hc Hd.
  destruct (inv_dict_list c Hinv k e Hd) as (He & p & ent & Hp & Hent & Hk).
  eexists. split; [by eapply Put_hit|].
  split; [apply inv_moved; [by eapply inv_store_value|done]|].
  split; [|subst k; by eauto 10].
  eapply (contents_moved c _ e k (value ent)); try done.
  - unfold node. rewrite Hp. simpl. rewrite Hent. simpl. by rewrite Hk.
  - intros e' He' Hne. apply node_store_other. intros Hp'.
    apply Hne. by apply (inv_owner c Hinv e' e p).
  - rewrite <-Hk. by apply (node_store_same c p (Entry (key ent) v)).
Qed.

(** *** Obtaining a record for a new key *)

Lemma limbo_set_entries c p ents :
  limbo c p → is_Some (ents !! p) → limbo (set_entries ents c) p.
Proof. intros (_ & Hp & Hl) Ha. by split. Qed.

Lemma inv_store_limbo c p x :
  inv c → limbo c p →
  inv (set_entries (<[p := x]> (entries c)) c) ∧
  limbo (set_entries (<[p := x]> (entries c)) c) p ∧
  ∀ e, e ∈ list_ c →
    node (set_entries (<[p := x]> (entries c)) c) e = node c e.
Proof.
  intros Hinv Hlimbo. pose proof Hlimbo as (Ha & Hp & Hl).
  split; [|split].
  - apply inv_set_entries; [done| |].
    + intros q. by rewrite list_lookup_insert_is_Some.
    + intros e q ent He Hq Hent. exists ent. split; [|done].
      rewrite list_lookup_insert_ne; [done|].
      intros ->. by apply (Hl e).
  - apply limbo_set_entries; [done|]. by rewrite list_lookup_insert_is_Some.
  - intros e He. apply node_store_other. by apply Hl.
Qed.

Lemma NoDup_delete_lookup (ps : list loc) i p :
  NoDup ps → ps !! i = Some p → NoDup (delete i ps) ∧ p ∉ delete i ps.
Proof.
  intros Hnd Hi. rewrite delete_take_drop.
  rewrite <-(take_drop_middle ps i p Hi) in Hnd.
  apply NoDup_app in Hnd as (Ht & Hd & [Hp Hdr]%NoDup_cons).
  split.
  - apply NoDup_app. split; [done|]. split; [|done].
    intros x Hx Hx'. apply (Hd x Hx). by right.
  - intros [Hx|Hx]%elem_of_app; [|done]. apply (Hd p Hx). by left.
Qed.

Lemma pool_New_spec c :
  inv c →
  ∃ p c1, pool_New zeroK zeroV c = Ok (p, c1) ∧ inv c1 ∧ limbo c1 p ∧
          list_ c1 = list_ c ∧ dict c1 = dict c ∧
          elements c1 = elements c ∧ capacity c1 = capacity c ∧
          ∀ e, e ∈ list_ c → node c1 e = node c e.
Proof.
  intros Hinv. eexists _, _. split; [reflexivity|].
  split; [|split; [|repeat split]].
  - apply inv_set_entries; [done| |].
    + intros q Hq. apply lookup_lt_is_Some. rewrite length_app.
      apply lookup_lt_is_Some in Hq. lia.
    + intros e q ent _ _ Hent. exists ent. split; [|done].
      by apply lookup_app_l_Some.
  - split; [|split]; simpl.
    + apply lookup_lt_is_Some. rewrite length_app. simpl. lia.
    + intros Hp. destruct (inv_pool c Hinv _ Hp) as [Ha%lookup_lt_is_Some _].
      lia.
    + intros e He Hp.
      destruct (inv_list_dict c Hinv e He) as (q & ent & Hq & Hent & _).
      apply lookup_lt_Some in Hent.
      assert (q = length (entries c)) by congruence. lia.
  - intros e He.
    destruct (inv_node c e Hinv He) as (q & ent & Hq & Hent & _ & Hn).
    rewrite Hn. unfold node. simpl. rewrite Hq. simpl.
    by rewrite (lookup_app_l_Some _ _ _ _ Hent).
Qed.

Lemma pool_Get_spec c :
  inv c →
  ∃ p c1, pool_Get c = Ok (p, c1) ∧ inv c1 ∧ limbo c1 p ∧
          list_ c1 = list_ c ∧ dict c1 = dict c ∧
          elements c1 = elements c ∧ capacity c1 = capacity c ∧
          ∀ e, e ∈ list_ c → node c1 e = node c e.
Proof.
  intros Hinv. pose proof (pool_New_spec c Hinv) as Hnew.
  unfold Cache.pool_Get.
  destruct (select (pool c)) as [i|]; [|done].
  destruct (pool c !! i) as [p|] eqn:Hi; [|done].
  destruct (NoDup_delete_lookup (pool c) i p) as [Hnd Hnotin];
    [by apply Hinv|done|].
  assert (p ∈ pool c) as Hp by (apply list_elem_of_lookup; eauto).
  destruct (inv_pool c Hinv p Hp) as [Ha Hl].
  eexists _, _. split; [reflexivity|].
  split; [|split; [|done]].
  - constructor; try apply Hinv; [done|].
    intros q Hq%list_elem_of_delete_inv. by apply (inv_pool c Hinv).
  - by split.
Qed.

Lemma store_fields_spec c1 p k v :
  inv c1 → limbo c1 p →
  ∃ c3, (store_key p k;; store_value p v;; mret p) c1 = Ok (p, c3) ∧
        inv c3 ∧ limbo c3 p ∧ entries c3 !! p = Some (Entry k v) ∧
        list_ c3 = list_ c1 ∧ dict c3 = dict c1 ∧
        capacity c3 = capacity c1 ∧
        ∀ e, e ∈ list_ c1 → node c3 e = node c1 e.
Proof.
  intros Hinv1 Hl1. pose proof Hl1 as ([ent0 Hent0] & _).
  destruct (inv_store_limbo c1 p (Entry k (value ent0)) Hinv1 Hl1)
    as (Hinv2 & Hl2 & Hn2).
  destruct (inv_store_limbo _ p (Entry k v) Hinv2 Hl2) as (Hinv3 & Hl3 & Hn3).
  assert (p < length (entries c1))%nat as Hlt by by eapply lookup_lt_Some.
  eexists. split.
  { unfold store_key, store_value, load. unfold_M. rewrite Hent0. simpl.
    rewrite list_lookup_insert_eq by done. simpl. reflexivity. }
  split; [done|]. split; [done|].
  split; [simpl; apply list_lookup_insert_eq; by rewrite length_insert|].
  repeat split; try done.
  intros e He. rewrite <-Hn2 by done. by apply Hn3.
Qed.

Lemma Put_alloc_spec k v : allocates (Put_alloc k v) k v.
Proof.
  intros c Hinv.
  destruct (pool_Get_spec c Hinv)
    as (p & c1 & Hget & Hinv1 & Hl1 & Hlist & Hdict & Hel & Hcap & Hn).
  destruct (store_fields_spec c1 p k v Hinv1 Hl1)
    as (c3 & Hst & Hinv3 & Hl3 & Hent & Hlist3 & Hdict3 & Hcap3 & Hn3).
  exists p, c3. split.
  { unfold Cache.Put_alloc. unfold mbind at 1, M_bind at 1. by rewrite Hget. }
  do 6 (split; [done || congruence|]).
  intros e He. rewrite <-Hn by done. apply Hn3. congruence.
Qed.

Lemma Put_alloc_nopool_spec k v :
  allocates (Put_alloc_nopool zeroK zeroV k v) k v.
Proof.
  intros c Hinv.
  destruct (pool_New_spec c Hinv)
    as (p & c1 & Hget & Hinv1 & Hl1 & Hlist & Hdict & Hel & Hcap & Hn).
  destruct (store_fields_spec c1 p k v Hinv1 Hl1)
    as (c3 & Hst & Hinv3 & Hl3 & Hent & Hlist3 & Hdict3 & Hcap3 & Hn3).
  exists p, c3. split.
  { unfold Put_alloc_nopool. unfold mbind at 1, M_bind at 1. by rewrite Hget. }
  do 6 (split; [done || congruence|]).
  intros e He. rewrite <-Hn by done. apply Hn3. congruence.
Qed.

(** *** Eviction *)

Lemma evict_empty c : list_ c = [] → evict c = Ok (tt, c).
Proof. intros Hl. unfold evict, Back. unfold_M. by rewrite Hl. Qed.

Lemma evict_spec : @retires K _ _ V evict.
Proof.
  intros c es o.
  intros Hinv Hlist.
  pose proof (inv_list_nodup c Hinv) as Hnd. rewrite Hlist in Hnd.
  assert (o ∈ list_ c) as Ho.
  { rewrite Hlist. apply elem_of_app. right. by left. }
  assert (∀ e, e ∈ es → e ∈ list_ c ∧ e ≠ o) as Hes.
  { intros e He. split; [rewrite Hlist; apply elem_of_app; by left|].
    intros ->. apply NoDup_app in Hnd as (_ & Hd & _).
    apply (Hd o He). by left. }
  destruct (inv_node c o Hinv Ho) as (po & ento & Hpo & Hento & Hdo & Hno).
  exists (set_pool (po :: pool c)
            (set_list es (set_dict (delete (key ento) (dict c)) c))),
    (key ento), (value ento).
  split.
  { unfold evict, Back, Remove, pool_Put, elem_Value, load. unfold_M.
    rewrite Hlist, last_snoc. rewrite Hpo, Hento. simpl.
    rewrite Hlist. by rewrite filter_ne_snoc. }
  split; [done|]. split; [done|].
  split; [|do 5 (split; [done|])].
  - constructor; simpl.
    + apply Hinv.
    + pose proof (inv_bounded c Hinv) as Hb. rewrite Hlist, length_app in Hb.
      simpl in Hb. lia.
    + rewrite map_size_delete_Some by eauto.
      rewrite (inv_size c Hinv), Hlist, length_app. simpl. lia.
    + by apply NoDup_app in Hnd as (? & _).
    + intros e He. destruct (Hes e He) as [Hin Hne].
      destruct (inv_list_dict c Hinv e Hin) as (q & ent & Hq & Hent & Hd).
      exists q, ent. repeat split; try done.
      rewrite lookup_delete_ne; [done|]. intros Hk. congruence.
    + intros k e [Hk Hd]%lookup_delete_Some.
      destruct (inv_dict_list c Hinv k e Hd) as (He & q & ent & Hq & Hent & Hke).
      split; [|by eauto].
      rewrite Hlist in He. apply elem_of_app in He as [He|He]; [done|].
      apply list_elem_of_singleton in He. subst e. congruence.
    + intros e1 e2 q [H1 _]%Hes [H2 _]%Hes. by apply (inv_owner c Hinv).
    + apply NoDup_cons. split; [|by apply Hinv].
      intros Hp. by destruct (inv_pool c Hinv po Hp) as [_ Hl%(λ f, f o Ho)].
    + intros q [->|Hq]%elem_of_cons.
      * split; [by eauto|]. intros e [Hin Hne]%Hes Hq. apply Hne.
        by apply (inv_owner c Hinv e o po).
      * destruct (inv_pool c Hinv q Hq) as [Ha Hl]. split; [done|].
        intros e [Hin _]%Hes. by apply Hl.
  - intros p (Ha & Hp & Hl). split; [done|]. split; simpl.
    + intros [->|Hin]%elem_of_cons; [|done]. by apply (Hl o Ho).
    + intros e [Hin _]%Hes. by apply Hl.
Qed.

(** *** Linking the new node *)

Lemma insert_spec c p k v l :
  inv c → limbo c p → entries c !! p = Some (Entry k v) →
  dict c !! k = None → Z.of_nat (length (list_ c)) < capacity c →
  contents c = Some l →
  let e := length (elements c) in
  let c3 := set_dict (<[k := e]> (dict c))
              (set_list (e :: list_ c) (set_elements (elements c ++ [p]) c)) in
  inv c3 ∧ contents c3 = Some ((k, v) :: l).
Proof.
  intros Hinv (Ha & Hp & Hl) Hent Hd Hlen Hc e c3.
  assert (∀ x, x ∈ list_ c → (x < e)%nat ∧ x ≠ e) as Hold.
  { intros x Hx.
    destruct (inv_list_dict c Hinv x Hx) as (q & _ & Hq%lookup_lt_Some & _).
    subst e. lia. }
  assert (∀ x, x ∈ list_ c → elements c3 !! x = elements c !! x) as Hel.
  { intros x [Hx _]%Hold. simpl. by apply lookup_app_l. }
  assert (elements c3 !! e = Some p) as Hnew.
  { simpl. subst e. by rewrite lookup_app_r, Nat.sub_diag by lia. }
  split.
  - constructor; simpl.
    + apply Hinv.
    + lia.
    + rewrite map_size_insert_None by done. by rewrite (inv_size c Hinv).
    + apply NoDup_cons. split; [|by apply Hinv].
      intros Hx. by destruct (Hold e Hx).
    + intros x [->|Hx]%elem_of_cons.
      * exists p, (Entry k v). split; [done|]. split; [done|].
        simpl. by rewrite lookup_insert_eq.
      * destruct (inv_list_dict c Hinv x Hx) as (q & ent & Hq & He & Hdx).
        exists q, ent. rewrite <-(Hel x Hx) in Hq. split; [done|].
        split; [done|]. rewrite lookup_insert_ne; [done|]. congruence.
    + intros k' x [[<- <-]|[Hne Hdx]]%lookup_insert_Some.
      * split; [by left|]. exists p, (Entry k v). done.
      * destruct (inv_dict_list c Hinv k' x Hdx) as (Hx & q & ent & Hq & He & Hk).
        split; [by right|]. exists q, ent. rewrite <-(Hel x Hx) in Hq. done.
    + intros e1 e2 q [->|H1]%elem_of_cons [->|H2]%elem_of_cons; [done|..].
      * intros He1 He2. exfalso. apply (Hl e2 H2).
        rewrite <-(Hel e2 H2). simpl in *. congruence.
      * intros He1 He2. exfalso. apply (Hl e1 H1).
        rewrite <-(Hel e1 H1). simpl in *. congruence.
      * intros He1 He2. apply (inv_owner c Hinv e1 e2 q H1 H2).
        -- rewrite <-(Hel e1 H1). done.
        -- rewrite <-(Hel e2 H2). done.
    + apply Hinv.
    + intros q Hq. destruct (inv_pool c Hinv q Hq) as [Haq Hlq].
      split; [done|]. intros x [->|Hx]%elem_of_cons.
      * intros Heq. assert (q = p) as -> by (simpl in *; congruence). done.
      * intros Heq. apply (Hlq x Hx). rewrite <-(Hel x Hx). done.
  - apply contents_Some. simpl. constructor.
    + unfold node. fold e. rewrite Hnew. simpl. by rewrite Hent.
    + apply contents_Some, Forall2_with_elem in Hc.
      eapply Forall2_impl; [exact Hc|]. simpl. intros x kv [Hx Hn].
      unfold node in *. by rewrite (Hel x Hx).
Qed.

(** *** Put of a new key *)

Lemma contents_ext c c' :
  list_ c' = list_ c → (∀ e, e ∈ list_ c → node c' e = node c e) →
  contents c' = contents c.
Proof.
  intros Hl Hn. unfold contents. rewrite Hl. by apply mapM_ext_elem.
Qed.

Lemma contents_length c l :
  contents c = Some l → length l = length (list_ c).
Proof. intros HF%contents_Some. symmetry. by eapply Forall2_length. Qed.

Lemma new_key_path_refines (alloc : @M K _ _ V loc) retire c k v l :
  allocates alloc k v → retires retire →
  inv c → contents c = Some l → dict c !! k = None →
  ∃ c', new_key_path alloc retire k c = Ok (tt, c') ∧ inv c' ∧
        contents c' =
          Some ((k, v) :: if decide (capacity c ≤ Z.of_nat (length l))
                          then removelast l else l) ∧
        capacity c' = capacity c.
Proof.
  intros Halloc_spec Hretire Hinv Hc Hd.
  destruct (Halloc_spec c Hinv)
    as (p & c1 & Halloc & Hinv1 & Hl1 & Hent & Hlist & Hdict & Hcap & Hn).
  assert (contents c1 = Some l) as Hc1.
  { rewrite <-Hc. by apply contents_ext. }
  pose proof (contents_length c l Hc) as Hlen.
  unfold new_key_path, Len, PushFront. unfold_M. rewrite Halloc. simpl.
  rewrite Hcap, Hlist, <-Hlen.
  destruct (decide (capacity c ≤ Z.of_nat (length l))) as [Hfull|Hroom].
  - assert (is_Some (last (list_ c1))) as [o [es Hes]%last_Some].
    { apply last_is_Some. intros Hnil. rewrite Hlist in Hnil.
      rewrite Hlen, Hnil in Hfull. pose proof (inv_capacity c Hinv).
      simpl in Hfull. lia. }
    destruct (Hretire c1 es o Hinv1 Hes)
      as (c2 & ko & vo & Hev & Hno & Hdo & Hinv2 & Hl2 & Hd2 & He2 & Hel2
          & Hcap2 & Hlimbo).
    rewrite Hev. simpl.
    assert (contents c2 = Some (removelast l)) as Hc2.
    { apply contents_Some in Hc1. rewrite Hes in Hc1.
      apply Forall2_app_inv_l in Hc1 as (l1 & l2 & HF1 & HF2 & ->).
      apply Forall2_cons_inv_l in HF2 as (kv & l3 & _ & ->%Forall2_nil_inv_l & ->).
      rewrite removelast_snoc. apply contents_Some. rewrite Hl2.
      eapply Forall2_impl; [exact HF1|]. intros x y Hx. simpl in Hx.
      unfold node in *. by rewrite Hel2, He2. }
    destruct (insert_spec c2 p k v (removelast l)) as [Hinv3 Hc3]; try done.
    + by apply Hlimbo.
    + by rewrite He2.
    + rewrite Hd2. apply lookup_delete_None. right. by rewrite Hdict.
    + pose proof (inv_bounded c1 Hinv1) as Hb.
      rewrite Hes, length_app in Hb. simpl in Hb. rewrite Hl2, Hcap2. lia.
    + eexists. split; [reflexivity|]. split; [exact Hinv3|].
      split; [exact Hc3|]. simpl. congruence.
  - destruct (insert_spec c1 p k v l) as [Hinv3 Hc3]; try done.
    + congruence.
    + rewrite Hlist, <-Hlen, Hcap. lia.
    + eexists. split; [reflexivity|]. split; [exact Hinv3|].
      split; [exact Hc3|]. simpl. congruence.
Qed.

Lemma Put_miss c k v :
  dict c !! k = None →
  Put k v c = new_key_path (Put_alloc k v) evict k c.
Proof. intros Hd. unfold Cache.Put. unfold_M. by rewrite Hd. Qed.

Lemma Put_refines c k v l :
  inv c → contents c = Some l →
  ∃ c', Put k v c = Ok (tt, c') ∧ inv c' ∧
        contents c' = Some (seq_put (capacity c) k v l) ∧
        capacity c' = capacity c.
Proof.
  intros Hinv Hc. unfold seq_put.
  destruct (dict c !! k) as [e|] eqn:Hd.
  - destruct (dict_node c k e Hinv Hd) as (He & v0 & Hn).
    rewrite (contents_assoc_Some c l k e v0) by done.
    destruct (Put_hit_refines c k v e l Hinv Hc Hd)
      as (c' & HP & Hinv' & Hc' & Hcap & _).
    by exists c'.
  - rewrite (contents_assoc_None c l k) by done.
    rewrite Put_miss by done.
    apply new_key_path_refines; try done.
    + apply Put_alloc_spec.
    + apply evict_spec.
Qed.

(** *** Whole sessions *)

Lemma inv_new cap c : NewLRUCache cap = Ok c →
  inv c ∧ contents c = Some [] ∧ capacity c = cap ∧ 0 < cap.
Proof.
  unfold NewLRUCache. case_decide; [done|]. intros [= <-].
  split; [|split; [done|split; [done|lia]]].
  constructor; simpl.
  - lia.
  - lia.
  - done.
  - constructor.
  - intros e He. by apply elem_of_nil in He.
  - intros k e Hd. by rewrite lookup_empty in Hd.
  - intros e1 e2 p He. by apply elem_of_nil in He.
  - constructor.
  - intros p Hp. by apply elem_of_nil in Hp.
Qed.

Lemma step_refines c o l :
  inv c → contents c = Some l →
  ∃ c', step o c = Ok ((seq_step (capacity c) o l).1, c') ∧ inv c' ∧
        contents c' = Some (seq_step (capacity c) o l).2 ∧
        capacity c' = capacity c.
Proof.
  intros Hinv Hc. destruct o as [k|k v]; simpl.
  - destruct (Get_refines c k l Hinv Hc) as (c' & HG & Hrest).
    exists c'. split; [|done]. unfold_M. rewrite HG. simpl.
    by destruct (seq_get k l) as [[? ?] ?].
  - destruct (Put_refines c k v l Hinv Hc) as (c' & HP & Hrest).
    exists c'. split; [|done]. unfold_M. by rewrite HP.
Qed.

Lemma run_refines ops c l :
  inv c → contents c = Some l →
  ∃ c', run ops c = Ok ((seq_run (capacity c) ops l).1, c') ∧ inv c' ∧
        contents c' = Some (seq_run (capacity c) ops l).2 ∧
        capacity c' = capacity c.
Proof.
  revert c l. induction ops as [|o ops IH]; intros c l Hinv Hc.
  - exists c. done.
  - destruct (step_refines c o l Hinv Hc) as (c1 & Hs & Hinv1 & Hc1 & Hcap1).
    destruct (IH c1 _ Hinv1 Hc1) as (c2 & Hr & Hinv2 & Hc2 & Hcap2).
    exists c2. simpl. unfold_M. rewrite Hs, Hr. rewrite Hcap1 in *.
    split; [done|]. split; [done|]. split; [done|]. congruence.
Qed.

Lemma session_refines cap ops :
  0 < cap →
  ∃ c, session cap ops = Ok ((seq_run cap ops []).1, c) ∧ inv c ∧
       contents c = Some (seq_run cap ops []).2 ∧ capacity c = cap.
Proof.
  intros Hcap. unfold Cache.session.
  destruct (NewLRUCache cap) as [c0|msg] eqn:Hnew.
  - destruct (inv_new cap c0 Hnew) as (Hinv & Hc & Hcap0 & _).
    destruct (run_refines ops c0 [] Hinv Hc) as (c & Hr & Hinv' & Hc' & Hcap').
    rewrite Hcap0 in *. by exists c.
  - unfold NewLRUCache in Hnew. case_decide; [lia|done].
Qed.

(** *** The variant without pooling refines the same sequence *)

Lemma inv_set_pool c pl :
  inv c → NoDup pl → (∀ p, p ∈ pl → p ∈ pool c) → inv (set_pool pl c).
Proof.
  intros Hinv Hnd Hsub. constructor; try apply Hinv; [done|].
  intros p Hp. by apply (inv_pool c Hinv), Hsub.
Qed.

Lemma evict_nopool_evict c c2 :
  evict c = Ok (tt, c2) →
  evict_nopool c = Ok (tt, set_pool (pool c) c2) ∧
  ∀ p, p ∈ pool c → p ∈ pool c2.
Proof.
  destruct c as [cap ls d pl ents els].
  unfold evict, evict_nopool, Back, Remove, pool_Put, elem_Value, load.
  unfold_M. simpl.
  destruct (last ls) as [o|]; simpl.
  - destruct (els !! o) as [po|]; simpl; [|done].
    destruct (ents !! po) as [ent|]; simpl; [|done].
    intros [= <-]. split; [done|]. intros p Hp. by right.
  - intros [= <-]. done.
Qed.

Lemma evict_nopool_spec : @retires K _ _ V evict_nopool.
Proof.
  intros c es o Hinv Hlist.
  destruct (evict_spec c es o Hinv Hlist)
    as (c2 & ko & vo & Hev & Hno & Hdo & Hinv2 & Hl2 & Hd2 & He2 & Hel2
        & Hcap2 & Hlimbo).
  destruct (evict_nopool_evict c c2 Hev) as [Hev' Hsub].
  exists (set_pool (pool c) c2), ko, vo.
  split; [done|]. split; [done|]. split; [done|].
  split; [apply inv_set_pool; [done|by apply Hinv|done]|].
  do 5 (split; [done|]).
  intros p Hp. destruct (Hlimbo p Hp) as (Ha & _ & Hl).
  destruct Hp as (_ & Hp & _). by split.
Qed.

Lemma Put_nopool_hit c k v e :
  dict c !! k = Some e → Put_nopool zeroK zeroV k v c = Put k v c.
Proof.
  intros Hd. unfold Put_nopool, Cache.Put. unfold_M. by rewrite Hd.
Qed.

Lemma Put_nopool_miss c k v :
  dict c !! k = None →
  Put_nopool zeroK zeroV k v c =
    new_key_path (Put_alloc_nopool zeroK zeroV k v) evict_nopool k c.
Proof. intros Hd. unfold Put_nopool. unfold_M. by rewrite Hd. Qed.

Lemma Put_nopool_refines c k v l :
  inv c → contents c = Some l →
  ∃ c', Put_nopool zeroK zeroV k v c = Ok (tt, c') ∧ inv c' ∧
        contents c' = Some (seq_put (capacity c) k v l) ∧
        capacity c' = capacity c.
Proof.
  intros Hinv Hc. unfold seq_put.
  destruct (dict c !! k) as [e|] eqn:Hd.
  - destruct (dict_node c k e Hinv Hd) as (He & v0 & Hn).
    rewrite (contents_assoc_Some c l k e v0) by done.
    rewrite (Put_nopool_hit c k v e) by done.
    destruct (Put_hit_refines c k v e l Hinv Hc Hd)
      as (c' & HP & Hinv' & Hc' & Hcap & _).
    by exists c'.
  - rewrite (contents_assoc_None c l k) by done.
    rewrite Put_nopool_miss by done.
    apply new_key_path_refines; try done.
    + apply Put_alloc_nopool_spec.
    + apply evict_nopool_spec.
Qed.

Lemma step_nopool_refines c o l :
  inv c → contents c = Some l →
  ∃ c', step_nopool zeroK zeroV o c = Ok ((seq_step (capacity c) o l).1, c') ∧
        inv c' ∧ contents c' = Some (seq_step (capacity c) o l).2 ∧
        capacity c' = capacity c.
Proof.
  intros Hinv Hc. destruct o as [k|k v]; simpl.
  - destruct (Get_refines c k l Hinv Hc) as (c' & HG & Hrest).
    exists c'. split; [|done]. unfold_M. rewrite HG. simpl.
    by destruct (seq_get k l) as [[? ?] ?].
  - destruct (Put_nopool_refines c k v l Hinv Hc) as (c' & HP & Hrest).
    exists c'. split; [|done]. unfold_M. by rewrite HP.
Qed.

Lemma run_nopool_refines ops c l :
  inv c → contents c = Some l →
  ∃ c', run_nopool zeroK zeroV ops c = Ok ((seq_run (capacity c) ops l).1, c') ∧
        inv c' ∧ contents c' = Some (seq_run (capacity c) ops l).2 ∧
        capacity c' = capacity c.
Proof.
  revert c l. induction ops as [|o ops IH]; intros c l Hinv Hc.
  - exists c. done.
  - destruct (step_nopool_refines c o l Hinv Hc)
      as (c1 & Hs & Hinv1 & Hc1 & Hcap1).
    destruct (IH c1 _ Hinv1 Hc1) as (c2 & Hr & Hinv2 & Hc2 & Hcap2).
    exists c2. simpl. unfold_M. rewrite Hs, Hr. rewrite Hcap1 in *.
    split; [done|]. split; [done|]. split; [done|]. congruence.
Qed.

Lemma session_nopool_refines cap ops :
  0 < cap →
  ∃ c, session_nopool zeroK zeroV cap ops = Ok ((seq_run cap ops []).1, c) ∧
       inv c ∧ contents c = Some (seq_run cap ops []).2 ∧ capacity c = cap.
Proof.
  intros Hcap. unfold session_nopool.
  destruct (NewLRUCache cap) as [c0|msg] eqn:Hnew.
  - destruct (inv_new cap c0 Hnew) as (Hinv & Hc & Hcap0 & _).
    destruct (run_nopool_refines ops c0 [] Hinv Hc)
      as (c & Hr & Hinv' & Hc' & Hcap').
    rewrite Hcap0 in *. by exists c.
  - unfold NewLRUCache in Hnew. case_decide; [lia|done].
Qed.

(** ** Recency: the sequence is ordered by last touch *)

Implicit Types (h : list (@op K V)) (o : @op K V).

Lemma last_touch_from_snoc t h o k :
  last_touch_from t (h ++ [o]) k =
    if touches o k then Some (t + length h)%nat else last_touch_from t h k.
Proof.
  revert t. induction h as [|o' h IH]; intros t; simpl.
  - rewrite Nat.add_0_r. by destruct (touches o k).
  - rewrite IH. destruct (touches o k); [|done].
    f_equal. lia.
Qed.

Lemma last_touch_from_bound t h k t' :
  last_touch_from t h k = Some t' → (t ≤ t' < t + length h)%nat.
Proof.
  revert t. induction h as [|o h IH]; intros t; simpl; [done|].
  destruct (last_touch_from (S t) h k) as [t''|] eqn:Hl.
  - intros [= <-]. apply IH in Hl. lia.
  - destruct (touches o k); [|done]. intros [= <-]. lia.
Qed.

Lemma last_touch_snoc_touched h o k :
  touches o k = true → last_touch (h ++ [o]) k = Some (length h).
Proof. intros Ht. unfold last_touch. by rewrite last_touch_from_snoc, Ht. Qed.

Lemma last_touch_snoc_other h o k :
  touches o k = false → last_touch (h ++ [o]) k = last_touch h k.
Proof. intros Ht. unfold last_touch. by rewrite last_touch_from_snoc, Ht. Qed.

Lemma ordered_keep h o l :
  recency_ordered h l → (∀ a, a ∈ l → touches o a.1 = false) →
  recency_ordered (h ++ [o]) l.
Proof.
  intros [Hs Hf] Hno. split.
  - eapply StronglySorted_impl_elem; [|exact Hs].
    intros a b Ha Hb (ta & tb & Hta & Htb & Hlt). exists ta, tb.
    by rewrite !last_touch_snoc_other by by apply Hno.
  - apply Forall_forall. intros a Ha.
    rewrite last_touch_snoc_other by by apply Hno.
    by apply (proj1 (Forall_forall _ _) Hf).
Qed.

Lemma ordered_front h o l k v :
  recency_ordered h l → touches o k = true →
  (∀ a, a ∈ l → touches o a.1 = false) →
  recency_ordered (h ++ [o]) ((k, v) :: l).
Proof.
  intros Hl Hk Hno. destruct (ordered_keep h o l Hl Hno) as [Hs Hf].
  destruct Hl as [_ Hf0].
  split; constructor; try done.
  - apply Forall_forall. intros a Ha.
    destruct (proj1 (Forall_forall _ _) Hf0 a Ha) as [ta Hta].
    exists (length h), ta. simpl.
    rewrite last_touch_snoc_touched by done.
    rewrite last_touch_snoc_other by by apply Hno.
    split; [done|]. split; [done|].
    apply last_touch_from_bound in Hta. lia.
  - simpl. by rewrite last_touch_snoc_touched.
Qed.

Lemma ordered_filter h (P : K * V → Prop) `{∀ a, Decision (P a)} l :
  recency_ordered h l → recency_ordered h (filter P l).
Proof.
  intros [Hs Hf]. split; [by apply StronglySorted_filter|].
  apply Forall_forall. intros a [_ Ha]%list_elem_of_filter.
  by apply (proj1 (Forall_forall _ _) Hf).
Qed.

Lemma ordered_removelast h l :
  recency_ordered h l → recency_ordered h (removelast l).
Proof.
  destruct (last l) as [a|] eqn:Hlast.
  - apply last_Some in Hlast as [l' ->]. rewrite removelast_snoc.
    intros [Hs [Hf _]%Forall_app]. split; [|done].
    by eapply StronglySorted_app_1_l.
  - apply last_None in Hlast as ->. done.
Qed.

Lemma elem_of_removelast l a : a ∈ removelast l → a ∈ l.
Proof.
  destruct (last l) as [b|] eqn:Hlast.
  - apply last_Some in Hlast as [l' ->]. rewrite removelast_snoc.
    intros Ha. apply elem_of_app. by left.
  - apply last_None in Hlast as ->. done.
Qed.

Lemma touches_key o k k' :
  touches o k = true → k' ≠ k → touches o k' = false.
Proof.
  destruct o as [k0|k0 v0]; simpl; intros Hk%bool_decide_eq_true Hne;
    apply bool_decide_eq_false; congruence.
Qed.

Lemma seq_step_ordered cap h o l :
  recency_ordered h l → recency_ordered (h ++ [o]) (seq_step cap o l).2.
Proof.
  intros Hl.
  assert (∀ k v l', recency_ordered h l' → touches o k = true →
            (∀ a, a ∈ l' → a.1 ≠ k) →
            recency_ordered (h ++ [o]) ((k, v) :: l')) as Hfront.
  { intros k v l' Hl' Hk Hne. apply ordered_front; [done..|].
    intros a Ha. apply (touches_key o k); [done|by apply Hne]. }
  assert (∀ k, assoc k l = None → ∀ a, a ∈ l → a.1 ≠ k) as Hnone.
  { intros k Hk%assoc_None a Ha <-. apply Hk.
    apply list_elem_of_fmap. by exists a. }
  assert (∀ k a, a ∈ without k l → a.1 ≠ k) as Hwo.
  { intros k a [Ha _]%list_elem_of_filter. done. }
  destruct o as [k|k v]; simpl.
  - unfold Cache.seq_get. destruct (assoc k l) as [v|] eqn:Ha; simpl.
    + apply Hfront; [by apply ordered_filter|by apply bool_decide_eq_true|].
      apply Hwo.
    + apply ordered_keep; [done|]. intros a Hin.
      apply bool_decide_eq_false. intros Heq. by apply (Hnone k Ha a Hin).
  - unfold seq_put. destruct (assoc k l) as [v0|] eqn:Ha.
    + apply Hfront; [by apply ordered_filter|by apply bool_decide_eq_true|].
      apply Hwo.
    + apply Hfront; [|by apply bool_decide_eq_true|].
      * case_decide; [by apply ordered_removelast|done].
      * intros a Hin. apply (Hnone k Ha).
        case_decide; [by apply elem_of_removelast|done].
Qed.

Lemma seq_run_app cap h1 h2 l :
  seq_run cap (h1 ++ h2) l =
    ((seq_run cap h1 l).1 ++ (seq_run cap h2 (seq_run cap h1 l).2).1,
     (seq_run cap h2 (seq_run cap h1 l).2).2).
Proof.
  revert l. induction h1 as [|o h1 IH]; intros l; simpl.
  - by destruct (seq_run cap h2 l).
  - by rewrite IH.
Qed.

Lemma seq_run_ordered cap h : recency_ordered h (seq_run cap h []).2.
Proof.
  induction h as [|o h IH] using rev_ind.
  - split; constructor.
  - rewrite seq_run_app. simpl. by apply seq_step_ordered.
Qed.

(** The keys of [dict] are the keys of the live pairs. *)
Lemma dict_contents c l k :
  inv c → contents c = Some l → is_Some (dict c !! k) ↔ k ∈ l.*1.
Proof.
  intros Hinv Hc. split.
  - intros [e Hd]. destruct (dict_node c k e Hinv Hd) as (He & v & Hn).
    apply list_elem_of_fmap. exists (k, v). split; [done|].
    apply (contents_elem c l k v Hc). by exists e.
  - intros [[k' v] [Hk Hin]]%list_elem_of_fmap. simpl in Hk. subst k'.
    apply (contents_elem c l k v Hc) in Hin as (e & He & Hn).
    exists e. by eapply node_key_dict.
Qed.

(** ** Consequences for sessions *)

Lemma session_inv cap h rs c :
  0 < cap → session cap h = Ok (rs, c) →
  inv c ∧ capacity c = cap ∧ rs = (seq_run cap h []).1 ∧
  contents c = Some (seq_run cap h []).2.
Proof.
  intros Hcap Hs.
  destruct (session_refines cap h Hcap) as (c0 & Hs0 & Hinv & Hc & Hcap0).
  rewrite Hs0 in Hs. injection Hs as <- <-. done.
Qed.

Lemma evicts_least_recent cap h rs c k v :
  0 < cap → session cap h = Ok (rs, c) →
  dict c !! k = None → capacity c ≤ Z.of_nat (length (list_ c)) →
  ∃ l victim vv c',
    contents c = Some (l ++ [(victim, vv)]) ∧
    Put k v c = Ok (tt, c') ∧
    contents c' = Some ((k, v) :: l) ∧
    Forall (λ a, fresher h a (victim, vv)) l ∧
    is_Some (dict c !! victim) ∧ dict c' !! victim = None ∧
    ∀ k', k' ≠ victim → k' ≠ k →
      is_Some (dict c' !! k') ↔ is_Some (dict c !! k').
Proof.
  intros Hcap Hs Hd Hfull.
  destruct (session_inv cap h rs c Hcap Hs) as (Hinv & Hcapc & _ & Hc).
  pose proof (seq_run_ordered cap h) as [Hsorted _].
  set (l0 := (seq_run cap h []).2) in *.
  pose proof (contents_length c l0 Hc) as Hlen.
  assert (is_Some (last l0)) as [[victim vv] [l Hl0]%last_Some].
  { apply last_is_Some. intros Hnil. rewrite Hnil in Hlen. simpl in Hlen.
    rewrite <-Hlen in Hfull. simpl in Hfull. lia. }
  destruct (Put_refines c k v l0 Hinv Hc) as (c' & HP & Hinv' & Hc' & _).
  unfold seq_put in Hc'.
  rewrite (contents_assoc_None c l0 k Hinv Hc Hd) in Hc'.
  rewrite decide_True in Hc' by (rewrite Hlen; done).
  rewrite Hl0 in Hc, Hc', Hsorted. rewrite removelast_snoc in Hc'.
  pose proof (contents_keys_nodup c _ Hinv Hc) as Hnd.
  rewrite fmap_app in Hnd. simpl in Hnd.
  apply NoDup_app in Hnd as (_ & Hdisj & _).
  assert (is_Some (dict c !! victim)) as Hvic.
  { apply (dict_contents c _ victim Hinv Hc).
    rewrite fmap_app. apply elem_of_app. right. by left. }
  exists l, victim, vv, c'. do 3 (split; [done|]).
  split; [|split; [done|split]].
  - apply Forall_forall. intros a Ha.
    eapply StronglySorted_app_1_elem_of; [exact Hsorted|done|by left].
  - apply eq_None_not_Some.
    intros [Heq|Hin]%(dict_contents c' _ victim Hinv' Hc')%elem_of_cons.
    + destruct Hvic as [x Hx]. simpl in Heq. congruence.
    + apply (Hdisj victim Hin). by left.
  - intros k' Hne1 Hne2.
    rewrite (dict_contents c' _ k' Hinv' Hc').
    rewrite (dict_contents c _ k' Hinv Hc).
    rewrite fmap_app. simpl. rewrite elem_of_cons, elem_of_app.
    rewrite list_elem_of_singleton. tauto.
Qed.

Lemma put_live_in_place cap h rs c k v e :
  0 < cap → session cap h = Ok (rs, c) → dict c !! k = Some e →
  ∃ l c' p ent,
    contents c = Some l ∧
    Put k v c = Ok (tt, c') ∧
    contents c' = Some ((k, v) :: without k l) ∧
    length (list_ c') = length (list_ c) ∧ size (dict c') = size (dict c) ∧
    dict c' = dict c ∧ pool c' = pool c ∧ elements c' = elements c ∧
    elements c !! e = Some p ∧ entries c !! p = Some ent ∧
    entries c' = <[p := Entry k v]> (entries c).
Proof.
  intros Hcap Hs Hd.
  destruct (session_inv cap h rs c Hcap Hs) as (Hinv & _ & _ & Hc).
  destruct (Put_hit_refines c k v e _ Hinv Hc Hd)
    as (c' & HP & Hinv' & Hc' & _ & Hdict & Hel & Hpool & p & ent & Hp & Hent
        & Hents & Hlist).
  eexists _, c', p, ent. do 3 (split; [done|]).
  split; [|by rewrite Hdict].
  rewrite Hlist. simpl. apply length_filter_ne; [by apply Hinv|].
  by destruct (inv_dict_list c Hinv k e Hd).
Qed.

Lemma evict_guarded cap h rs c k v p c1 :
  0 < cap → session cap h = Ok (rs, c) →
  Put_alloc k v c = Ok (p, c1) →
  capacity c1 ≤ Z.of_nat (length (list_ c1)) → list_ c1 ≠ [].
Proof.
  intros Hcap Hs Halloc Hfull.
  destruct (session_inv cap h rs c Hcap Hs) as (Hinv & Hcapc & _).
  destruct (Put_alloc_spec k v c Hinv)
    as (p' & c1' & Halloc' & _ & _ & _ & _ & _ & Hcap1 & _).
  rewrite Halloc in Halloc'. injection Halloc' as <- <-.
  intros Hnil. rewrite Hnil, Hcap1 in Hfull. simpl in Hfull. lia.
Qed.

Lemma evict_checked_nonempty c :
  list_ c ≠ [] → evict_checked c = evict c.
Proof.
  intros Hne. unfold evict_checked, evict, Back. unfold_M.
  destruct (last (list_ c)) as [o|] eqn:Hlast; [done|].
  by apply last_None in Hlast.
Qed.

Lemma Put_never_evicts_empty c k v :
  inv c →
  ∃ c', Put k v c = Ok (tt, c') ∧
        Cache.Put_checked zeroK zeroV select k v c = Ok (tt, c').
Proof.
  intros Hinv.
  destruct (inv_contents c Hinv) as [l Hc].
  destruct (Put_refines c k v l Hinv Hc) as (c' & HP & _).
  exists c'. split; [done|]. rewrite <-HP.
  unfold Cache.Put_checked, Cache.Put. unfold_M.
  destruct (dict c !! k) as [e|] eqn:Hd; [done|].
  destruct (Put_alloc_spec k v c Hinv)
    as (p & c1 & Halloc & _ & _ & _ & Hlist & _ & Hcap1 & _).
  rewrite Halloc. unfold Len. unfold_M.
  case_decide as Hfull; [|done].
  rewrite evict_checked_nonempty; [done|].
  intros Hnil. rewrite Hnil, Hcap1 in Hfull. simpl in Hfull.
  pose proof (inv_capacity c Hinv). lia.
Qed.

Lemma sessions_agree cap h :
  observe (session cap h) = observe (session_nopool zeroK zeroV cap h).
Proof.
  destruct (decide (0 < cap)) as [Hcap|Hcap].
  - destruct (session_refines cap h Hcap) as (c & Hs & _ & Hc & _).
    destruct (session_nopool_refines cap h Hcap) as (c' & Hs' & _ & Hc' & _).
    rewrite Hs, Hs'. simpl. by rewrite Hc, Hc'.
  - unfold Cache.session, session_nopool, NewLRUCache.
    rewrite decide_True by lia. done.
Qed.

Lemma session_observed cap h :
  0 < cap →
  ∃ c, session cap h = Ok ((seq_run cap h []).1, c) ∧ inv c ∧
       contents c = Some (seq_run cap h []).2 ∧
       ∀ k, is_Some (dict c !! k) ↔ k ∈ ((seq_run cap h []).2).*1.
Proof.
  intros Hcap.
  destruct (session_refines cap h Hcap) as (c & Hs & Hinv & Hc & _).
  exists c. do 3 (split; [done|]). intros k. by apply dict_contents.
Qed.

Lemma session_lockstep cap h :
  0 < cap →
  ∃ rs c, session cap h = Ok (rs, c) ∧
    size (dict c) = length (list_ c) ∧
    (∀ k e, dict c !! k = Some e →
       e ∈ list_ c ∧
       ∃ p ent, elements c !! e = Some p ∧ entries c !! p = Some ent ∧
                key ent = k) ∧
    (∀ e, e ∈ list_ c →
       ∃ p ent, elements c !! e = Some p ∧ entries c !! p = Some ent ∧
                dict c !! key ent = Some e) ∧
    Z.of_nat (length (list_ c)) ≤ cap.
Proof.
  intros Hcap.
  destruct (session_refines cap h Hcap) as (c & Hs & Hinv & _ & Hcapc).
  eexists _, c. split; [exact Hs|]. split; [by apply Hinv|].
  split; [by apply Hinv|]. split; [by apply Hinv|].
  rewrite <-Hcapc. by apply Hinv.
Qed.

Lemma put_then_get c k v l :
  inv c → contents c = Some l → is_Some (dict c !! k) →
  ∃ c2 c3, Put k v c = Ok (tt, c2) ∧ dict c2 = dict c ∧ pool c2 = pool c ∧
           contents c2 = Some ((k, v) :: without k l) ∧
           Get k c2 = Ok ((v, true), c3) ∧
           contents c3 = Some ((k, v) :: without k l) ∧
           length (list_ c3) = length l ∧ size (dict c3) = length l.
Proof.
  intros Hinv Hc [e Hd].
  destruct (Put_hit_refines c k v e l Hinv Hc Hd)
    as (c2 & HP & Hinv2 & Hc2 & _ & Hdict & _ & Hpool & _).
  destruct (Get_refines c2 k _ Hinv2 Hc2) as (c3 & HG & Hinv3 & Hc3 & _).
  unfold Cache.seq_get in HG, Hc3. simpl in HG, Hc3.
  rewrite decide_True in HG, Hc3 by done. simpl in HG, Hc3.
  assert (without k ((k, v) :: without k l) = without k l) as Hw.
  { unfold without. rewrite filter_cons_False by (simpl; tauto).
    rewrite list_filter_filter. apply list_filter_iff. tauto. }
  rewrite Hw in Hc3.
  pose proof (contents_length c2 _ Hc2) as Hlen2.
  pose proof (contents_length c3 _ Hc3) as Hlen3.
  pose proof (contents_length c _ Hc) as Hlen.
  assert (length (list_ c2) = length (list_ c)) as Hll.
  { rewrite <-(inv_size c2 Hinv2), <-(inv_size c Hinv). by rewrite Hdict. }
  exists c2, c3. do 6 (split; [done|]).
  split; [lia|]. rewrite (inv_size c3 Hinv3). lia.
Qed.

(** ** More about the recency sequence *)

Lemma without_notin k l : k ∉ l.*1 → without k l = l.
Proof.
  induction l as [|[k' v'] l IH]; [done|]. simpl.
  intros [Hne Hl]%not_elem_of_cons. unfold without in *.
  rewrite filter_cons_True by (simpl; congruence). f_equal. by apply IH.
Qed.

Lemma length_without k l :
  NoDup l.*1 → k ∈ l.*1 → S (length (without k l)) = length l.
Proof.
  induction l as [|[k' v'] l IH]; simpl; intros Hnd Hin.
  - by apply elem_of_nil in Hin.
  - apply NoDup_cons in Hnd as [Hk Hnd]. unfold without in *.
    destruct (decide (k' = k)) as [->|Hne].
    + rewrite filter_cons_False by (simpl; tauto).
      fold (without k l). by rewrite without_notin.
    + rewrite filter_cons_True by done. simpl. f_equal.
      apply IH; [done|]. apply elem_of_cons in Hin as [?|?]; [congruence|done].
Qed.

Lemma assoc_without_ne k k' l : k' ≠ k → assoc k' (without k l) = assoc k' l.
Proof.
  intros Hne. induction l as [|[k0 v0] l IH]; [done|]. unfold without in *.
  destruct (decide (k0 = k)) as [->|Hne0].
  - rewrite filter_cons_False by (simpl; tauto). simpl.
    rewrite IH. by rewrite decide_False by congruence.
  - rewrite filter_cons_True by done. simpl. by rewrite IH.
Qed.

Lemma assoc_app_l k v l1 l2 :
  assoc k l1 = Some v → assoc k (l1 ++ l2) = Some v.
Proof.
  induction l1 as [|[k0 v0] l1 IH]; [done|]. simpl.
  destruct (decide (k0 = k)); [done|]. apply IH.
Qed.

Lemma assoc_removelast k v l :
  assoc k (removelast l) = Some v → assoc k l = Some v.
Proof.
  destruct (last l) as [a|] eqn:Hlast.
  - apply last_Some in Hlast as [l' ->]. rewrite removelast_snoc.
    apply assoc_app_l.
  - apply last_None in Hlast as ->. done.
Qed.

Lemma without_keys_nodup k l : NoDup l.*1 → NoDup (without k l).*1.
Proof.
  induction l as [|[k0 v0] l IH]; [done|]. simpl.
  intros [Hk Hnd]%NoDup_cons. unfold without in *.
  rewrite filter_cons. case_decide; [|by apply IH].
  simpl. apply NoDup_cons. split; [|by apply IH].
  intros [[k1 v1] [Hk1 [_ Hin]%list_elem_of_filter]]%list_elem_of_fmap.
  simpl in Hk1. subst k1. apply Hk. apply list_elem_of_fmap. by exists (k0, v1).
Qed.

Lemma without_keys_notin k l : k ∉ (without k l).*1.
Proof.
  intros [[k1 v1] [Hk1 [Hne _]%list_elem_of_filter]]%list_elem_of_fmap.
  simpl in *. congruence.
Qed.

Lemma elem_of_without_keys k k' l :
  k' ∈ (without k l).*1 ↔ k' ≠ k ∧ k' ∈ l.*1.
Proof.
  rewrite !list_elem_of_fmap. split.
  - intros [[k1 v1] [-> [Hne Hin]%list_elem_of_filter]]. split; [done|].
    by exists (k1, v1).
  - intros [Hne [[k1 v1] [-> Hin]]]. exists (k1, v1). split; [done|].
    by apply list_elem_of_filter.
Qed.

(** [Put] on the sequence is "put in front, drop the older pair of the same
    key, keep the first [cap]". *)
Lemma seq_put_take cap k v l :
  0 < cap → NoDup l.*1 → Z.of_nat (length l) ≤ cap →
  seq_put cap k v l = take (Z.to_nat cap) ((k, v) :: without k l).
Proof.
  intros Hcap Hnd Hlen. unfold seq_put.
  destruct (Z.to_nat cap) as [|n] eqn:Hn; [lia|]. simpl.
  destruct (assoc k l) as [v0|] eqn:Ha.
  - f_equal. rewrite take_ge; [done|].
    assert (k ∈ l.*1) as Hin.
    { apply assoc_Some in Ha. apply list_elem_of_fmap. by exists (k, v0). }
    pose proof (length_without k l Hnd Hin). lia.
  - apply assoc_None in Ha. rewrite without_notin by done. f_equal.
    case_decide.
    + assert (length l = S n) as Hl by lia.
      destruct (last l) as [a|] eqn:Hlast.
      * apply last_Some in Hlast as [l' ->]. rewrite removelast_snoc.
        rewrite length_app in Hl. simpl in Hl.
        rewrite take_app_length'; [done|lia].
      * apply last_None in Hlast as ->. done.
    + rewrite take_ge; [done|lia].
Qed.

Lemma take_without_take k n l :
  NoDup l.*1 →
  take n (without k (take (S n) l)) = take n (without k l).
Proof.
  revert n. induction l as [|[k0 v0] l IH]; intros n Hnd; [done|].
  apply NoDup_cons in Hnd as [Hk Hnd]. simpl. unfold without in *.
  destruct (decide (k0 = k)) as [->|Hne].
  - rewrite !filter_cons_False by (simpl; tauto).
    fold (without k l). fold (without k (take n l)).
    rewrite (without_notin k l) by done.
    rewrite without_notin.
    + by rewrite take_take, Nat.min_id.
    + intros Hin. apply Hk.
      apply list_elem_of_fmap in Hin as [[k1 v1] [-> Hin]].
      apply list_elem_of_fmap. exists (k1, v1). split; [done|].
      eapply elem_of_sublist; [exact Hin|apply sublist_take].
  - rewrite !filter_cons_True by done.
    destruct n as [|n]; [done|]. simpl. f_equal. by apply IH.
Qed.

Lemma distinct_keys_nodup l : NoDup (distinct_keys l).*1.
Proof.
  induction l as [|[k v] l IH]; simpl; [constructor|].
  apply NoDup_cons. split; [apply without_keys_notin|].
  by apply without_keys_nodup.
Qed.

Lemma take_keys_nodup n l : NoDup l.*1 → NoDup (take n l).*1.
Proof.
  intros Hnd. rewrite fmap_take.
  eapply sublist_NoDup; [exact Hnd|apply sublist_take].
Qed.

Lemma seq_run_puts cap (kvs : list (K * V)) :
  0 < cap →
  (seq_run cap (puts kvs) []).2 =
    take (Z.to_nat cap) (distinct_keys (reverse kvs)).
Proof.
  intros Hcap. induction kvs as [|[k v] kvs IH] using rev_ind.
  - rewrite reverse_nil. simpl. by rewrite take_nil.
  - unfold puts in *. rewrite fmap_app, seq_run_app. simpl.
    rewrite IH, reverse_snoc. simpl.
    rewrite seq_put_take; [|done|..].
    + destruct (Z.to_nat cap) as [|n] eqn:Hn; [lia|]. simpl. f_equal.
      apply take_without_take, distinct_keys_nodup.
    + apply take_keys_nodup, distinct_keys_nodup.
    + rewrite length_take. lia.
Qed.

End cache_facts.

(** * The cache over any comparable key type

    The code over a Go map with an arbitrary [==] ([AnyKey]) runs in step
    with the code over the identity-indexed [dict] ([Cache]) as long as
    the keys used are hashable and [==] to themselves: each operation on
    key [k] acts as the same operation of [Cache] on the key the map
    stores for [k]. *)

Section bridge_facts.
Context {K : Type} `{Countable K} {V : Type}.
Context (eqb : K → K → bool) (hashable : K → bool).
Context (zeroK : K) (zeroV : V) (select : list loc → option nat).
Hypothesis eqb_sym : ∀ a b, eqb a b = eqb b a.

Local Abbreviation gcache := (@AnyKey.LRUCache K V).
Local Abbreviation plain_key := (AnyKey.plain_key eqb hashable).
Local Abbreviation keys_ok := (AnyKey.keys_ok eqb hashable).
Local Abbreviation map_find := (AnyKey.map_find eqb).
Local Abbreviation stored_key := (AnyKey.stored_key eqb).
Local Abbreviation stored_op := (AnyKey.stored_op eqb).
Local Abbreviation forget := (@AnyKey.forget K _ _ V).
Local Abbreviation gGet := (AnyKey.Get eqb hashable zeroV).
Local Abbreviation gPut := (AnyKey.Put eqb hashable zeroK zeroV select).
Local Abbreviation gPut_alloc := (AnyKey.Put_alloc zeroK zeroV select).
Local Abbreviation gevict := (AnyKey.evict eqb hashable).
Local Abbreviation gstep := (AnyKey.step eqb hashable zeroK zeroV select).
Local Abbreviation grun := (AnyKey.run eqb hashable zeroK zeroV select).
Local Abbreviation gsession :=
  (AnyKey.session eqb hashable zeroK zeroV select).

Implicit Types (g : gcache) (k : K) (v : V) (e p : loc)
  (m : list (K * loc)).

Ltac unfold_G :=
  unfold mbind, AnyKey.M_bind, mret, AnyKey.M_ret, AnyKey.gets,
    AnyKey.modify in *.

(** ** The Go map and the identity-indexed map *)

Lemma map_find_Some k m kv :
  map_find k m = Some kv → kv ∈ m ∧ eqb kv.1 k = true.
Proof.
  induction m as [|[k' e'] m IH]; simpl; [done|].
  destruct (eqb k' k) eqn:Hk.
  - intros [= <-]. split; [by left|done].
  - intros [Hin Heq]%IH. split; [by right|done].
Qed.

Lemma map_find_None k m :
  map_find k m = None ↔ ∀ kv, kv ∈ m → eqb kv.1 k = false.
Proof.
  induction m as [|[k' e'] m IH]; simpl.
  - split; [|done]. intros _ kv Hin. by apply elem_of_nil in Hin.
  - destruct (eqb k' k) eqn:Hk.
    + split; [done|]. intros Hall.
      specialize (Hall (k', e') ltac:(by left)). simpl in Hall. congruence.
    + rewrite IH. split.
      * intros Hall kv [->|Hin]%elem_of_cons; [done|by apply Hall].
      * intros Hall kv Hin. apply Hall. by right.
Qed.

Lemma keys_ok_nil : keys_ok [].
Proof.
  split; [constructor|]. intros k Hk. by apply elem_of_nil in Hk.
Qed.

Lemma map_find_None_notin k m :
  keys_ok m → map_find k m = None → k ∉ m.*1.
Proof.
  intros [_ Hok] Hnone Hin.
  destruct (Hok k Hin) as [[_ Hrefl] _].
  apply list_elem_of_fmap in Hin as [[k' e] [Hk Hin]]. simpl in Hk. subst k'.
  pose proof (proj1 (map_find_None k m) Hnone (k, e) Hin) as Hne.
  simpl in Hne. congruence.
Qed.

Lemma map_find_stored k e m :
  keys_ok m → (k, e) ∈ m → map_find k m = Some (k, e).
Proof.
  intros [Hnd Hok] Hin.
  assert (k ∈ m.*1) as Hk by (apply list_elem_of_fmap; by exists (k, e)).
  destruct (map_find k m) as [[k' e']|] eqn:Hf.
  - apply map_find_Some in Hf as [Hin' Heq]. simpl in Heq.
    assert (k' ∈ m.*1) as Hk' by (apply list_elem_of_fmap; by exists (k', e')).
    destruct (Hok k' Hk') as [_ Huniq]. specialize (Huniq k Hk Heq). subst k'.
    f_equal. f_equal.
    apply (elem_of_list_to_map_1 (M:=gmap K)) in Hin; [|done].
    apply (elem_of_list_to_map_1 (M:=gmap K)) in Hin'; [|done]. congruence.
  - exfalso. by apply (map_find_None_notin k m).
Qed.

Lemma lookup_stored_key k m :
  keys_ok m →
  (list_to_map m : gmap K loc) !! stored_key k m = snd <$> map_find k m.
Proof.
  intros Hok. unfold AnyKey.stored_key.
  destruct (map_find k m) as [[k' e']|] eqn:Hf; simpl.
  - apply map_find_Some in Hf as [Hin _].
    apply elem_of_list_to_map_1; [apply Hok|done].
  - apply not_elem_of_list_to_map_1. by apply map_find_None_notin.
Qed.

Lemma stored_key_eqb k m :
  eqb k k = true → eqb (stored_key k m) k = true.
Proof.
  intros Hk. unfold AnyKey.stored_key.
  destruct (map_find k m) as [kv|] eqn:Hf; [|done].
  by apply map_find_Some in Hf as [_ ?].
Qed.

Lemma stored_key_plain k m :
  keys_ok m → plain_key k → plain_key (stored_key k m).
Proof.
  intros [_ Hok] Hk. unfold AnyKey.stored_key.
  destruct (map_find k m) as [[k' e']|] eqn:Hf; [|done].
  apply map_find_Some in Hf as [Hin _]. simpl.
  apply Hok. apply list_elem_of_fmap. by exists (k', e').
Qed.

Lemma list_to_map_without k m :
  (list_to_map (filter (λ kv, kv.1 ≠ k) m) : gmap K loc)
  = delete k (list_to_map m).
Proof.
  induction m as [|[k' e'] m IH]; simpl.
  - by rewrite delete_empty.
  - destruct (decide (k' = k)) as [->|Hne].
    + rewrite filter_cons_False by (simpl; tauto).
      by rewrite delete_insert_eq.
    + rewrite filter_cons_True by done. simpl.
      by rewrite delete_insert_ne, IH.
Qed.

Lemma filter_ext_elem {A} (P Q : A → Prop)
    `{∀ x, Decision (P x)} `{∀ x, Decision (Q x)} (l : list A) :
  (∀ x, x ∈ l → P x ↔ Q x) → filter P l = filter Q l.
Proof.
  induction l as [|x l IH]; intros Hall; [done|].
  assert (filter P l = filter Q l) as Hl.
  { apply IH. intros y Hy. apply Hall. by right. }
  destruct (decide (P x)) as [HP|HP].
  - rewrite !filter_cons_True; [by rewrite Hl|by apply Hall; [left|]|done].
  - rewrite !filter_cons_False; [done| |done].
    intros HQ. apply HP. apply Hall; [by left|done].
Qed.

Lemma map_delete_stored k m :
  keys_ok m → k ∈ m.*1 →
  filter (λ kv, eqb kv.1 k = false) m = filter (λ kv, kv.1 ≠ k) m.
Proof.
  intros [_ Hok] Hk. apply filter_ext_elem.
  intros [k' e'] Hin. simpl.
  assert (k' ∈ m.*1) as Hk' by (apply list_elem_of_fmap; by exists (k', e')).
  destruct (Hok k' Hk') as [_ Huniq]. destruct (Hok k Hk) as [[_ Hrefl] _].
  split.
  - intros Hne ->. congruence.
  - intros Hne. destruct (eqb k' k) eqn:Heq; [|done].
    destruct Hne. by apply Huniq.
Qed.

Lemma keys_ok_filter (P : K * loc → Prop) `{∀ x, Decision (P x)} m :
  keys_ok m → keys_ok (filter P m).
Proof.
  intros [Hnd Hok].
  assert (∀ k, k ∈ (filter P m).*1 → k ∈ m.*1) as Hsub.
  { intros k [kv [-> [_ Hin]%list_elem_of_filter]]%list_elem_of_fmap.
    apply list_elem_of_fmap. by exists kv. }
  split.
  - eapply sublist_NoDup; [exact Hnd|].
    apply fmap_sublist, sublist_filter.
  - intros k Hk. destruct (Hok k (Hsub k Hk)) as [Hp Huniq].
    split; [done|]. intros k' Hk'. apply Huniq. by apply Hsub.
Qed.

Lemma map_find_filter_None (P : K * loc → Prop) `{∀ x, Decision (P x)} k m :
  map_find k m = None → map_find k (filter P m) = None.
Proof.
  rewrite !map_find_None. intros Hall kv [_ Hin]%list_elem_of_filter.
  by apply Hall.
Qed.

Lemma keys_ok_snoc k e m :
  keys_ok m → plain_key k → map_find k m = None → keys_ok (m ++ [(k, e)]).
Proof.
  intros Hok Hk Hnone.
  pose proof (map_find_None_notin k m Hok Hnone) as Hnotin.
  destruct Hok as [Hnd Hok].
  assert (∀ k', k' ∈ m.*1 → eqb k' k = false) as Hne.
  { intros k' [[k'' e'] [-> Hin]]%list_elem_of_fmap.
    by apply (proj1 (map_find_None k m) Hnone (k'', e')). }
  split.
  - rewrite fmap_app. simpl. apply NoDup_app. split; [done|].
    split; [|apply NoDup_singleton].
    intros k' Hk' Heq%list_elem_of_singleton. by subst k'.
  - intros k1. rewrite fmap_app. simpl.
    intros [Hk1|Hk1]%elem_of_app.
    + destruct (Hok k1 Hk1) as [Hp Huniq]. split; [done|].
      intros k2 [Hk2|Hk2]%elem_of_app; [by apply Huniq|].
      apply list_elem_of_singleton in Hk2. subst k2.
      intros Heq. rewrite (Hne k1 Hk1) in Heq. done.
    + apply list_elem_of_singleton in Hk1. subst k1. split; [done|].
      intros k2 [Hk2|Hk2]%elem_of_app.
      * intros Heq. rewrite eqb_sym, (Hne k2 Hk2) in Heq. done.
      * apply list_elem_of_singleton in Hk2. by subst k2.
Qed.

Lemma map_find_snoc k e m :
  eqb k k = true → map_find k m = None →
  map_find k (m ++ [(k, e)]) = Some (k, e).
Proof.
  intros Hk. induction m as [|[k' e'] m IH]; simpl.
  - by rewrite Hk.
  - destruct (eqb k' k); [done|]. apply IH.
Qed.

(** ** One operation *)

Lemma Get_sim g k r c' :
  keys_ok (AnyKey.dict g) → hashable k = true →
  Get zeroV (stored_key k (AnyKey.dict g)) (forget g) = Ok (r, c') →
  ∃ g', gGet k g = Ok (r, g') ∧ c' = forget g' ∧
        AnyKey.dict g' = AnyKey.dict g.
Proof.
  intros Hok Hh. unfold Cache.Get, AnyKey.Get, AnyKey.map_index.
  unfold_M. unfold_G. simpl. rewrite Hh, lookup_stored_key by done.
  destruct (map_find k (AnyKey.dict g)) as [[k' e]|]; simpl.
  - unfold elem_Value, load, AnyKey.elem_Value, AnyKey.load.
    destruct (decide (e ∈ AnyKey.list_ g)); simpl;
      (destruct (AnyKey.elements g !! e) as [p|]; simpl; [|done]);
      (destruct (AnyKey.entries g !! p) as [ent|]; simpl; [|done]);
      intros [= <- <-]; by eexists.
  - intros [= <- <-]. by eexists.
Qed.

Lemma Put_hit_sim g k v kv c' :
  keys_ok (AnyKey.dict g) → hashable k = true →
  map_find k (AnyKey.dict g) = Some kv →
  Put zeroK zeroV select kv.1 v (forget g) = Ok (tt, c') →
  ∃ g', gPut k v g = Ok (tt, g') ∧ c' = forget g' ∧
        AnyKey.dict g' = AnyKey.dict g.
Proof.
  intros Hok Hh Hf.
  pose proof (lookup_stored_key k _ Hok) as Hl.
  unfold AnyKey.stored_key in Hl. rewrite Hf in Hl. simpl in Hl.
  unfold Cache.Put, AnyKey.Put, AnyKey.map_index.
  unfold_M. unfold_G. simpl. rewrite Hh, Hl, Hf. simpl.
  unfold elem_Value, store_value, load, MoveToFront,
    AnyKey.elem_Value, AnyKey.store_value, AnyKey.load, AnyKey.MoveToFront.
  unfold_M. unfold_G. simpl.
  destruct (AnyKey.elements g !! kv.2) as [p|]; simpl; [|done].
  destruct (AnyKey.entries g !! p) as [ent|]; simpl; [|done].
  destruct (decide (kv.2 ∈ AnyKey.list_ g)); simpl;
    intros [= <-]; by eexists.
Qed.

Lemma pool_Get_sim g p c1 :
  pool_Get zeroK zeroV select (forget g) = Ok (p, c1) →
  ∃ g1, AnyKey.pool_Get zeroK zeroV select g = Ok (p, g1) ∧
        c1 = forget g1 ∧ AnyKey.dict g1 = AnyKey.dict g.
Proof.
  unfold Cache.pool_Get, AnyKey.pool_Get, pool_New, AnyKey.pool_New. simpl.
  destruct (select (AnyKey.pool g)) as [i|];
    [destruct (AnyKey.pool g !! i) as [q|]|];
    intros [= <- <-]; by eexists.
Qed.

Lemma store_key_sim g p k c1 :
  store_key p k (forget g) = Ok (tt, c1) →
  ∃ g1, AnyKey.store_key p k g = Ok (tt, g1) ∧
        c1 = forget g1 ∧ AnyKey.dict g1 = AnyKey.dict g.
Proof.
  unfold store_key, AnyKey.store_key, load, AnyKey.load.
  unfold_M. unfold_G. simpl.
  destruct (AnyKey.entries g !! p) as [ent|]; [|done].
  intros [= <-]. by eexists.
Qed.

Lemma store_value_sim g p v c1 :
  store_value p v (forget g) = Ok (tt, c1) →
  ∃ g1, AnyKey.store_value p v g = Ok (tt, g1) ∧
        c1 = forget g1 ∧ AnyKey.dict g1 = AnyKey.dict g.
Proof.
  unfold store_value, AnyKey.store_value, load, AnyKey.load.
  unfold_M. unfold_G. simpl.
  destruct (AnyKey.entries g !! p) as [ent|]; [|done].
  intros [= <-]. by eexists.
Qed.

Lemma Put_alloc_sim g k v p c1 :
  Put_alloc zeroK zeroV select k v (forget g) = Ok (p, c1) →
  ∃ g1, gPut_alloc k v g = Ok (p, g1) ∧ c1 = forget g1 ∧
        AnyKey.dict g1 = AnyKey.dict g.
Proof.
  unfold Cache.Put_alloc, AnyKey.Put_alloc.
  unfold mbind, M_bind, AnyKey.M_bind, mret, M_ret, AnyKey.M_ret.
  destruct (pool_Get zeroK zeroV select (forget g)) as [[q ca]|] eqn:Ha;
    [|done].
  destruct (pool_Get_sim g q ca Ha) as (ga & -> & -> & Hda).
  destruct (store_key q k (forget ga)) as [[[] cb]|] eqn:Hb; [|done].
  destruct (store_key_sim ga q k cb Hb) as (gb & -> & -> & Hdb).
  destruct (store_value q v (forget gb)) as [[[] cc]|] eqn:Hc; [|done].
  destruct (store_value_sim gb q v cc Hc) as (gc & -> & -> & Hdc).
  intros [= <- <-]. exists gc. split; [done|]. split; [done|]. congruence.
Qed.

Lemma evict_sim g c2 :
  inv (forget g) → keys_ok (AnyKey.dict g) →
  evict (forget g) = Ok (tt, c2) →
  ∃ g2, gevict g = Ok (tt, g2) ∧ c2 = forget g2 ∧
        keys_ok (AnyKey.dict g2) ∧
        ∀ k, map_find k (AnyKey.dict g) = None →
             map_find k (AnyKey.dict g2) = None.
Proof.
  intros Hinv Hok.
  unfold Cache.evict, AnyKey.evict, Back, AnyKey.Back.
  unfold_M. unfold_G. simpl.
  destruct (last (AnyKey.list_ g)) as [o|] eqn:Hlast.
  2:{ intros [= <-]. by exists g. }
  assert (o ∈ list_ (forget g)) as Ho.
  { simpl. apply last_Some in Hlast as [es ->]. apply elem_of_app.
    right. by left. }
  destruct (inv_node (forget g) o Hinv Ho) as (p & ent & Hp & Hent & Hd & _).
  simpl in Hp, Hent, Hd.
  unfold elem_Value, load, Remove, pool_Put, AnyKey.elem_Value, AnyKey.load,
    AnyKey.Remove, AnyKey.pool_Put, AnyKey.map_delete.
  unfold_M. unfold_G. simpl. rewrite Hp. simpl. rewrite Hent. simpl.
  assert (key ent ∈ (AnyKey.dict g).*1) as Hk.
  { apply list_elem_of_fmap. exists (key ent, o). split; [done|].
    apply (elem_of_list_to_map_2 (M:=gmap K)). done. }
  destruct Hok as [Hnd Hok']. destruct (Hok' _ Hk) as [[Hh _] _].
  rewrite Hh. simpl. intros [= <-].
  eexists. split; [done|]. simpl. split; [|split].
  - unfold AnyKey.forget. simpl.
    rewrite map_delete_stored by done. by rewrite list_to_map_without.
  - by apply keys_ok_filter.
  - intros k. apply map_find_filter_None.
Qed.

Lemma map_assign_new g k e :
  keys_ok (AnyKey.dict g) → plain_key k →
  map_find k (AnyKey.dict g) = None →
  ∃ g', AnyKey.map_assign eqb hashable k e g = Ok (tt, g') ∧
        forget g' = set_dict (<[k := e]> (dict (forget g))) (forget g) ∧
        keys_ok (AnyKey.dict g') ∧ stored_key k (AnyKey.dict g') = k.
Proof.
  intros Hok Hk Hf. pose proof Hk as [Hh Hrefl].
  unfold AnyKey.map_assign. rewrite Hh, Hf.
  eexists. split; [done|]. simpl. split; [|split].
  - unfold AnyKey.forget, set_dict. simpl. f_equal.
    apply list_to_map_snoc. by apply map_find_None_notin.
  - by apply keys_ok_snoc.
  - unfold AnyKey.stored_key. by rewrite map_find_snoc.
Qed.

Lemma Put_miss_sim g k v c' :
  inv (forget g) → keys_ok (AnyKey.dict g) → plain_key k →
  map_find k (AnyKey.dict g) = None →
  Put zeroK zeroV select k v (forget g) = Ok (tt, c') →
  ∃ g', gPut k v g = Ok (tt, g') ∧ c' = forget g' ∧
        keys_ok (AnyKey.dict g') ∧ stored_key k (AnyKey.dict g') = k.
Proof.
  intros Hinv Hok Hk Hf. pose proof Hk as [Hh Hrefl].
  pose proof (lookup_stored_key k _ Hok) as Hl.
  unfold AnyKey.stored_key in Hl. rewrite Hf in Hl. simpl in Hl.
  rewrite Put_miss by done.
  unfold new_key_path, AnyKey.Put, AnyKey.map_index, Len, AnyKey.Len.
  unfold_M. unfold_G.
  rewrite Hh, Hf. simpl.
  destruct (Put_alloc_spec zeroK zeroV select k v (forget g) Hinv)
    as (p & c1 & Halloc & Hinv1 & _).
  rewrite Halloc.
  destruct (Put_alloc_sim g k v p c1 Halloc) as (g1 & -> & -> & Hd1).
  assert (keys_ok (AnyKey.dict g1)) as Hok1 by (by rewrite Hd1).
  assert (map_find k (AnyKey.dict g1) = None) as Hf1 by (by rewrite Hd1).
  simpl.
  assert (∀ g2, keys_ok (AnyKey.dict g2) →
            map_find k (AnyKey.dict g2) = None →
            Ok (tt,
                set_dict (<[k:=length (elements (forget g2))]>
                            (dict (forget g2)))
                  (set_list (length (elements (forget g2))
                               :: list_ (forget g2))
                     (set_elements (elements (forget g2) ++ [p])
                        (forget g2)))) = Ok (tt, c') →
            ∃ g', AnyKey.map_assign eqb hashable k
                    (length (AnyKey.elements g2))
                    (AnyKey.set_list
                       (length (AnyKey.elements g2) :: AnyKey.list_ g2)
                       (AnyKey.set_elements (AnyKey.elements g2 ++ [p]) g2))
                  = Ok (tt, g') ∧
                  c' = forget g' ∧ keys_ok (AnyKey.dict g') ∧
                  stored_key k (AnyKey.dict g') = k) as Hlink.
  { intros g2 Hok2 Hf2 [= <-].
    destruct (map_assign_new
                (AnyKey.set_list
                   (length (AnyKey.elements g2) :: AnyKey.list_ g2)
                   (AnyKey.set_elements (AnyKey.elements g2 ++ [p]) g2))
                k (length (AnyKey.elements g2)) Hok2 Hk Hf2)
      as (g' & Hassign & Hforget & Hok' & Hst).
    exists g'. split; [done|]. split; [|done]. by rewrite Hforget. }
  case_decide as Hfull.
  - destruct (evict (forget g1)) as [[[] c2]|] eqn:Hev; [|done].
    destruct (evict_sim g1 c2 Hinv1 Hok1 Hev) as (g2 & -> & -> & Hok2 & Hf2).
    apply Hlink; [done|by apply Hf2].
  - by apply Hlink.
Qed.

Lemma Put_sim g k v :
  inv (forget g) → keys_ok (AnyKey.dict g) → plain_key k →
  ∃ g', gPut k v g = Ok (tt, g') ∧
        Put zeroK zeroV select (stored_key k (AnyKey.dict g)) v (forget g)
          = Ok (tt, forget g') ∧
        inv (forget g') ∧ keys_ok (AnyKey.dict g') ∧
        stored_key k (AnyKey.dict g') = stored_key k (AnyKey.dict g) ∧
        AnyKey.capacity g' = AnyKey.capacity g.
Proof.
  intros Hinv Hok Hk.
  destruct (inv_contents _ Hinv) as [l Hc].
  destruct (Put_refines zeroK zeroV select (forget g)
              (stored_key k (AnyKey.dict g)) v l Hinv Hc)
    as (c' & HP & Hinv' & _ & Hcap).
  unfold AnyKey.stored_key in *.
  destruct (map_find k (AnyKey.dict g)) as [kv|] eqn:Hf.
  - destruct (Put_hit_sim g k v kv c' Hok (proj1 Hk) Hf HP)
      as (g' & HG & -> & Hd).
    exists g'. rewrite Hd, Hf. done.
  - destruct (Put_miss_sim g k v c' Hinv Hok Hk Hf HP)
      as (g' & HG & -> & Hok' & Hst).
    exists g'. done.
Qed.

Lemma Get_total_sim g k :
  inv (forget g) → keys_ok (AnyKey.dict g) → hashable k = true →
  ∃ r g', gGet k g = Ok (r, g') ∧
          Get zeroV (stored_key k (AnyKey.dict g)) (forget g)
            = Ok (r, forget g') ∧
          inv (forget g') ∧ AnyKey.dict g' = AnyKey.dict g ∧
          AnyKey.capacity g' = AnyKey.capacity g.
Proof.
  intros Hinv Hok Hh.
  destruct (inv_contents _ Hinv) as [l Hc].
  destruct (Get_refines zeroV (forget g) (stored_key k (AnyKey.dict g)) l
              Hinv Hc) as (c' & HG & Hinv' & _ & Hcap).
  destruct (Get_sim g k _ c' Hok Hh HG) as (g' & HG' & -> & Hd).
  by eexists _, g'.
Qed.

Lemma same_op_stored (o : @op K V) m :
  AnyKey.same_op eqb o (stored_op o m).
Proof.
  assert (∀ k, stored_key k m = k ∨ eqb (stored_key k m) k = true) as Hs.
  { intros k. unfold AnyKey.stored_key.
    destruct (map_find k m) as [kv|] eqn:Hf; [|by left].
    right. by apply map_find_Some in Hf as [_ ?]. }
  destruct o as [k|k v]; simpl; [apply Hs|split; [apply Hs|done]].
Qed.

Lemma step_sim g (o : @op K V) :
  inv (forget g) → keys_ok (AnyKey.dict g) →
  AnyKey.plain_op eqb hashable o →
  ∃ r g', gstep o g = Ok (r, g') ∧
          step zeroK zeroV select (stored_op o (AnyKey.dict g)) (forget g)
            = Ok (r, forget g') ∧
          inv (forget g') ∧ keys_ok (AnyKey.dict g') ∧
          AnyKey.capacity g' = AnyKey.capacity g.
Proof.
  intros Hinv Hok Hp. destruct o as [k|k v]; simpl in *.
  - destruct (Get_total_sim g k Hinv Hok Hp)
      as (r & g' & HG & HC & Hinv' & Hd & Hcap).
    exists (Got r.1 r.2), g'. unfold_M. unfold_G. rewrite HG, HC.
    rewrite Hd. done.
  - destruct (Put_sim g k v Hinv Hok Hp)
      as (g' & HG & HC & Hinv' & Hok' & _ & Hcap).
    exists Done, g'. unfold_M. unfold_G. by rewrite HG, HC.
Qed.

(** ** Sessions *)

Lemma run_sim (ops : list (@op K V)) g :
  inv (forget g) → keys_ok (AnyKey.dict g) →
  Forall (AnyKey.plain_op eqb hashable) ops →
  ∃ rs g' ops',
    grun ops g = Ok (rs, g') ∧
    run zeroK zeroV select ops' (forget g) = Ok (rs, forget g') ∧
    Forall2 (AnyKey.same_op eqb) ops ops' ∧
    inv (forget g') ∧ keys_ok (AnyKey.dict g') ∧
    AnyKey.capacity g' = AnyKey.capacity g.
Proof.
  intros Hinv Hok Hall. revert g Hinv Hok.
  induction Hall as [|o ops Ho Hall IH]; intros g Hinv Hok.
  - exists [], g, []. do 2 (split; [done|]). split; [constructor|done].
  - destruct (step_sim g o Hinv Hok Ho)
      as (r & g1 & HG & HC & Hinv1 & Hok1 & Hcap1).
    destruct (IH g1 Hinv1 Hok1)
      as (rs & g2 & ops' & HG2 & HC2 & Hsame & Hinv2 & Hok2 & Hcap2).
    exists (r :: rs), g2, (stored_op o (AnyKey.dict g) :: ops').
    simpl. unfold_M. unfold_G. rewrite HG, HG2, HC, HC2.
    do 2 (split; [done|]).
    split; [constructor; [apply same_op_stored|done]|].
    do 2 (split; [done|]). congruence.
Qed.

Lemma session_sim cap (ops : list (@op K V)) :
  0 < cap → Forall (AnyKey.plain_op eqb hashable) ops →
  ∃ rs g ops',
    gsession cap ops = Ok (rs, g) ∧
    session zeroK zeroV select cap ops' = Ok (rs, forget g) ∧
    Forall2 (AnyKey.same_op eqb) ops ops' ∧
    inv (forget g) ∧ keys_ok (AnyKey.dict g) ∧ AnyKey.capacity g = cap.
Proof.
  intros Hcap Hall. unfold AnyKey.session, Cache.session.
  unfold AnyKey.NewLRUCache, NewLRUCache. rewrite !decide_False by lia.
  assert (inv (forget (AnyKey.Build_LRUCache cap [] [] [] [] []))) as Hinv.
  { apply (inv_new cap). unfold NewLRUCache. by rewrite decide_False by lia. }
  destruct (run_sim ops _ Hinv keys_ok_nil Hall)
    as (rs & g & ops' & HG & HC & Hsame & Hinv' & Hok & Hcapg).
  by exists rs, g, ops'.
Qed.


End bridge_facts.

(** On key types whose [==] is the identity and whose keys can all be
    hashed, the sessions of [AnyKey] are the sessions of [Cache]. *)
Lemma identity_keys_agree {K} `{Countable K} {V}
    (eqb : K → K → bool) (hashable : K → bool)
    (zeroK : K) (zeroV : V) (select : list loc → option nat)
    (cap : Z) (ops : list (@op K V)) :
  (∀ a b, eqb a b = true ↔ a = b) → (∀ k, hashable k = true) →
  match AnyKey.session eqb hashable zeroK zeroV select cap ops with
  | Ok (rs, g) => Ok (rs, AnyKey.forget g)
  | Panic msg => Panic msg
  end = session zeroK zeroV select cap ops.
Proof.
  intros Hid Hh. destruct (decide (0 < cap)) as [Hcap|Hcap].
  - assert (∀ a b, eqb a b = eqb b a) as Hsym.
    { intros a b. destruct (eqb a b) eqn:Hab, (eqb b a) eqn:Hba; try done.
      - apply Hid in Hab. subst b.
        pose proof (proj2 (Hid a a) eq_refl). congruence.
      - apply Hid in Hba. subst b.
        pose proof (proj2 (Hid a a) eq_refl). congruence. }
    assert (Forall (AnyKey.plain_op eqb hashable) ops) as Hops.
    { apply Forall_forall. intros [k|k v] _; simpl; [done|].
      split; [done|]. by apply Hid. }
    destruct (session_sim eqb hashable zeroK zeroV select Hsym cap ops
                Hcap Hops) as (rs & g & ops' & Hs & Hs' & Hsame & _).
    assert (ops' = ops) as ->.
    { symmetry. apply list_eq_Forall2. eapply Forall2_impl; [exact Hsame|].
      intros [k|k v] [k'|k' v']; simpl; try done.
      - intros [->|Heq%Hid]; [done|]. by subst.
      - intros [[->|Heq%Hid] ->]; [done|]. by subst. }
    by rewrite Hs, Hs'.
  - unfold AnyKey.session, Cache.session, AnyKey.NewLRUCache, NewLRUCache.
    by rewrite !decide_True by lia.
Qed.

(** The comparison of [float_key] is symmetric, and holds between identical
    keys only. *)
Lemma float_eqb_sym a b : AnyKey.float_eqb a b = AnyKey.float_eqb b a.
Proof.
  destruct a as [|x], b as [|y]; simpl; try done.
  apply bool_decide_ext. split; congruence.
Defined.

Lemma float_eqb_eq a b : AnyKey.float_eqb a b = true → a = b.
Proof.
  destruct a as [|x], b as [|y]; simpl; try done.
  intros Heq%bool_decide_eq_true. by subst.
Defined.

(** * The specified properties of the cache *)

(** Refutes [H : k ∈ [k1; ...; kn]] for literal keys that all differ
    from [k]. *)
Ltac absent_key H :=
  repeat (apply elem_of_cons in H as [H|H]; [discriminate H|]);
  by apply elem_of_nil in H.

(** ** Sessions, evaluated *)

(** The session of the README: capacity 2, Alice and Bob are stored, Alice
    is read, and storing Charlie evicts Bob. *)
Example readme_session :
  observe (session ""%string 0 reuse_last 2
             [OpPut "Alice" 1; OpPut "Bob" 2; OpGet "Alice";
              OpPut "Charlie" 3; OpGet "Bob"; OpGet "Alice";
              OpGet "Charlie"]%string)
  = Ok ([Done; Done; Got 1 true; Done; Got 0 false; Got 1 true; Got 3 true],
        Some [("Charlie", 3); ("Alice", 1)]%string).
Proof. vm_compute. reflexivity. Qed.

(** With a pool that hands records back, three insertions into a cache of
    capacity 1 use two entry records; without pooling they use three.  The
    live pairs are the same. *)
Example pool_reuses_records :
  (∃ rs c, session 0 0 reuse_last 1 [OpPut 1 1; OpPut 2 2; OpPut 3 3]
             = Ok (rs, c) ∧
           length (entries c) = 2%nat ∧ contents c = Some [(3, 3)]) ∧
  (∃ rs c, session_nopool 0 0 1 [OpPut 1 1; OpPut 2 2; OpPut 3 3]
             = Ok (rs, c) ∧
           length (entries c) = 3%nat ∧ contents c = Some [(3, 3)]).
Proof.
  split; eexists _, _; (split; [vm_compute; reflexivity|]); by vm_compute.
Qed.




(** C4.  Idempotent miss: in every cache state, [Get] of a key that is not
    in [dict] returns the zero value of [V] with [found = false] and leaves
    the whole state (hence the live keys, their values and the recency
    order) unchanged. *)
Theorem C4_get_miss_changes_nothing {K} `{Countable K} {V}
    (zeroV : V) (c : @LRUCache K _ _ V) (k : K) :
  dict c !! k = None → Get zeroV k c = Ok ((zeroV, false), c).
Proof. apply Get_miss. Qed.

Lemma C4_get_miss_changes_nothing_witness :
  let c := Build_LRUCache 2 [0%nat] {[7 := 0%nat]} [] [Entry 7 70] [0%nat] in
  dict c !! 8 = None ∧ Get 0 8 c = Ok ((0, false), c).
Proof.
  intros c. split; [reflexivity|].
  apply (C4_get_miss_changes_nothing 0 c 8). reflexivity.
Defined.




(** C6.  Construction: [NewLRUCache] panics for every capacity [≤ 0] and
    builds no cache; for every capacity [> 0] it returns a cache with that
    capacity whose [dict], list and pool are empty. *)
Theorem C6_new_panics_or_builds_empty {K} `{Countable K} {V} (cap : Z) :
  (cap ≤ 0 → @NewLRUCache K _ _ V cap = Panic capacity_msg) ∧
  (0 < cap →
     ∃ c, @NewLRUCache K _ _ V cap = Ok c ∧ capacity c = cap ∧
          dict c = ∅ ∧ list_ c = [] ∧ pool c = []).
Proof.
  unfold NewLRUCache. split; intros Hcap.
  - by rewrite decide_True.
  - rewrite decide_False by lia. by eexists.
Qed.

Lemma C6_new_panics_or_builds_empty_witness :
  (@NewLRUCache Z _ _ Z 0 = Panic capacity_msg) ∧
  (∃ c, @NewLRUCache Z _ _ Z 3 = Ok c ∧ capacity c = 3 ∧
        dict c = ∅ ∧ list_ c = [] ∧ pool c = []).
Proof.
  split.
  - apply (proj1 (C6_new_panics_or_builds_empty (K:=Z) (V:=Z) 0)). lia.
  - apply (proj2 (C6_new_panics_or_builds_empty (K:=Z) (V:=Z) 3)). lia.
Defined.

(** C8.  Pooling is unobservable: for every capacity and every sequence of
    [Get]s and [Put]s, the session of the cache with its [sync.Pool]
    (whatever the pool hands out) and the session of the variant without
    pooling give the same replies and end with the same live pairs in the
    same recency order (or both panic in [NewLRUCache]). *)
Theorem C8_pooling_is_unobservable {K} `{Countable K} {V}
    (zeroK : K) (zeroV : V) (select : list loc → option nat)
    (cap : Z) (ops : list (@op K V)) :
  observe (session zeroK zeroV select cap ops) =
  observe (session_nopool zeroK zeroV cap ops).
Proof. apply sessions_agree. Qed.

(** C2.  Recency correctness.  In every state reached from a fresh cache by
    a history [h] of [Get]s and [Put]s, a [Put] of a key that is not in
    [dict] while the list is at capacity removes exactly the last pair
    [(victim, vv)] of the recency sequence; [victim] is live before and
    gone after, every other live key was last touched in [h] strictly
    later than [victim], and all other keys stay as they were.  In
    particular, with capacity 2, after [Put(1,1); Put(2,2); Put(3,3)] key 1
    is gone; [Get(1)] misses and [Get(2)] hits; [Put(4,4)] then removes
    key 3 and keeps key 2; [Get(3)] misses and [Get(2)] returns
    [(2, true)]. *)
Theorem C2_evicts_least_recently_touched :
  (∀ K (EqK : EqDecision K) (CK : Countable K) V (zeroK : K) (zeroV : V)
     (select : list loc → option nat) cap (h : list (@op K V)) rs c k v,
     0 < cap →
     session zeroK zeroV select cap h = Ok (rs, c) →
     dict c !! k = None →
     capacity c ≤ Z.of_nat (length (list_ c)) →
     ∃ l victim vv c',
       contents c = Some (l ++ [(victim, vv)]) ∧
       Put zeroK zeroV select k v c = Ok (tt, c') ∧
       contents c' = Some ((k, v) :: l) ∧
       Forall (λ a, fresher h a (victim, vv)) l ∧
       is_Some (dict c !! victim) ∧ dict c' !! victim = None ∧
       ∀ k', k' ≠ victim → k' ≠ k →
         is_Some (dict c' !! k') ↔ is_Some (dict c !! k')) ∧
  (∀ select : list loc → option nat,
     let ops1 := [OpPut 1 1; OpPut 2 2; OpPut 3 3] in
     let ops2 := ops1 ++ [OpGet 1; OpGet 2; OpPut 4 4] in
     let ops3 := ops2 ++ [OpGet 3; OpGet 2] in
     (∃ c, session 0 0 select 2 ops1 = Ok ([Done; Done; Done], c) ∧
           contents c = Some [(3, 3); (2, 2)] ∧ dict c !! 1 = None) ∧
     (∃ c, session 0 0 select 2 ops2 =
             Ok ([Done; Done; Done; Got 0 false; Got 2 true; Done], c) ∧
           contents c = Some [(4, 4); (2, 2)] ∧
           dict c !! 3 = None ∧ is_Some (dict c !! 2)) ∧
     (∃ c, session 0 0 select 2 ops3 =
             Ok ([Done; Done; Done; Got 0 false; Got 2 true; Done;
                  Got 0 false; Got 2 true], c) ∧
           contents c = Some [(2, 2); (4, 4)])).
Proof.
  split.
  - intros K EqK CK V zeroK zeroV select cap h rs c k v.
    apply evicts_least_recent.
  - intros select ops1 ops2 ops3. split; [|split].
    + destruct (session_observed 0 0 select 2 ops1 ltac:(lia))
        as (c & Hs & _ & Hc & Hk).
      exists c. split; [exact Hs|]. split; [exact Hc|].
      apply eq_None_not_Some. intros Hin%Hk. vm_compute in Hin.
      absent_key Hin.
    + destruct (session_observed 0 0 select 2 ops2 ltac:(lia))
        as (c & Hs & _ & Hc & Hk).
      exists c. split; [exact Hs|]. split; [exact Hc|]. split.
      * apply eq_None_not_Some. intros Hin%Hk. vm_compute in Hin.
        absent_key Hin.
      * apply Hk. vm_compute. by repeat constructor.
    + destruct (session_observed 0 0 select 2 ops3 ltac:(lia))
        as (c & Hs & _ & Hc & Hk).
      exists c. split; [exact Hs|exact Hc].
Qed.

Lemma C2_evicts_least_recently_touched_witness :
  0 < 2 ∧
  ∃ rs c,
    session 0 0 ignore_pool 2 [OpPut 1 1; OpGet 1; OpPut 2 2; OpGet 1]
      = Ok (rs, c) ∧
    dict c !! 3 = None ∧
    capacity c ≤ Z.of_nat (length (list_ c)) ∧
    ∃ l victim vv c',
      contents c = Some (l ++ [(victim, vv)]) ∧
      Put 0 0 ignore_pool 3 3 c = Ok (tt, c') ∧
      contents c' = Some ((3, 3) :: l) ∧
      Forall (λ a, fresher [OpPut 1 1; OpGet 1; OpPut 2 2; OpGet 1] a
                     (victim, vv)) l ∧
      is_Some (dict c !! victim) ∧ dict c' !! victim = None ∧
      ∀ k', k' ≠ victim → k' ≠ 3 →
        is_Some (dict c' !! k') ↔ is_Some (dict c !! k').
Proof.
  split; [lia|].
  eexists _, _.
  split; [vm_compute; reflexivity|].
  split; [vm_compute; reflexivity|].
  split; [simpl; lia|].
  refine (proj1 C2_evicts_least_recently_touched Z _ _ Z 0 0 ignore_pool 2
            [OpPut 1 1; OpGet 1; OpPut 2 2; OpGet 1]
            [Done; Got 1 true; Done; Got 1 true] _ 3 3 _ _ _ _).
  - lia.
  - vm_compute. reflexivity.
  - vm_compute. reflexivity.
  - simpl. lia.
Defined.

(** C3.  Update without eviction.  In every state reached from a fresh
    cache in which key [k] is in [dict], [Put k v] overwrites the value of
    the record [k]'s node points to (same record, same node), moves the
    pair to the front of the recency sequence, and leaves [dict], the pool
    and the number of nodes unchanged: nothing is evicted.  In particular,
    with capacity 1, after [Put("x",1)] the call [Put("x",2)] changes
    neither [dict] nor the pool, [Get("x")] then returns [(2, true)], and
    exactly one pair is live. *)
Theorem C3_put_of_live_key_updates_in_place :
  (∀ K (EqK : EqDecision K) (CK : Countable K) V (zeroK : K) (zeroV : V)
     (select : list loc → option nat) cap (h : list (@op K V)) rs c k v e,
     0 < cap →
     session zeroK zeroV select cap h = Ok (rs, c) →
     dict c !! k = Some e →
     ∃ l c' p ent,
       contents c = Some l ∧
       Put zeroK zeroV select k v c = Ok (tt, c') ∧
       contents c' = Some ((k, v) :: without k l) ∧
       length (list_ c') = length (list_ c) ∧
       size (dict c') = size (dict c) ∧
       dict c' = dict c ∧ pool c' = pool c ∧ elements c' = elements c ∧
       elements c !! e = Some p ∧ entries c !! p = Some ent ∧
       entries c' = <[p := Entry k v]> (entries c)) ∧
  (∀ select : list loc → option nat,
     ∃ c1 c2 c3,
       session "" 0 select 1 [OpPut "x" 1] = Ok ([Done], c1) ∧
       Put "" 0 select "x" 2 c1 = Ok (tt, c2) ∧
       dict c2 = dict c1 ∧ pool c2 = pool c1 ∧
       Get 0 "x" c2 = Ok ((2, true), c3) ∧
       contents c3 = Some [("x", 2)] ∧
       length (list_ c3) = 1%nat ∧ size (dict c3) = 1%nat)%string.
Proof.
  split.
  - intros K EqK CK V zeroK zeroV select cap h rs c k v e.
    apply put_live_in_place.
  - intros select.
    destruct (session_observed ""%string 0 select 1 [OpPut "x"%string 1]
                ltac:(lia)) as (c1 & Hs & Hinv & Hc & Hk).
    destruct (put_then_get ""%string 0 select c1 "x"%string 2 _ Hinv Hc)
      as (c2 & c3 & HP & Hd & Hp & _ & HG & Hc3 & Hlen & Hsize).
    { apply Hk. vm_compute. by repeat constructor. }
    exists c1, c2, c3. split; [exact Hs|]. do 4 (split; [done|]).
    split; [exact Hc3|]. split; [exact Hlen|exact Hsize].
Qed.

Lemma C3_put_of_live_key_updates_in_place_witness :
  0 < 2 ∧
  ∃ rs c e,
    session 0 0 ignore_pool 2 [OpPut 1 1; OpPut 2 2] = Ok (rs, c) ∧
    dict c !! 1 = Some e ∧
    ∃ l c' p ent,
      contents c = Some l ∧
      Put 0 0 ignore_pool 1 5 c = Ok (tt, c') ∧
      contents c' = Some ((1, 5) :: without 1 l) ∧
      length (list_ c') = length (list_ c) ∧
      size (dict c') = size (dict c) ∧
      dict c' = dict c ∧ pool c' = pool c ∧ elements c' = elements c ∧
      elements c !! e = Some p ∧ entries c !! p = Some ent ∧
      entries c' = <[p := Entry 1 5]> (entries c).
Proof.
  split; [lia|].
  eexists _, _, _.
  split; [vm_compute; reflexivity|].
  split; [vm_compute; reflexivity|].
  refine (proj1 C3_put_of_live_key_updates_in_place Z _ _ Z 0 0 ignore_pool 2
            [OpPut 1 1; OpPut 2 2] [Done; Done] _ 1 5 _ _ _ _).
  - lia.
  - vm_compute. reflexivity.
  - vm_compute. reflexivity.
Defined.

(** C7.  Eviction is guarded.  In every state reached from a cache built
    with a positive capacity, every [Put] returns, and it returns the same
    state as [Put_checked], the copy of [Put] whose [evict] panics on an
    empty list: no execution of [Put] reaches [evict] while the list is
    empty.  At the call site this is because the list is at least as long
    as the positive capacity when the capacity check lets [Put] through.
    And [evict] called on a cache whose list is empty returns without a
    panic and leaves the state as it is. *)
Theorem C7_evict_guarded_and_harmless_when_empty :
  (∀ K (EqK : EqDecision K) (CK : Countable K) V (zeroK : K) (zeroV : V)
     (select : list loc → option nat) cap (h : list (@op K V)) rs c k v,
     0 < cap →
     session zeroK zeroV select cap h = Ok (rs, c) →
     ∃ c', Put zeroK zeroV select k v c = Ok (tt, c') ∧
           Put_checked zeroK zeroV select k v c = Ok (tt, c')) ∧
  (∀ K (EqK : EqDecision K) (CK : Countable K) V (zeroK : K) (zeroV : V)
     (select : list loc → option nat) cap (h : list (@op K V)) rs c k v p c1,
     0 < cap →
     session zeroK zeroV select cap h = Ok (rs, c) →
     dict c !! k = None →
     Put_alloc zeroK zeroV select k v c = Ok (p, c1) →
     capacity c1 ≤ Z.of_nat (length (list_ c1)) →
     list_ c1 ≠ []) ∧
  (∀ K (EqK : EqDecision K) (CK : Countable K) V (c : @LRUCache K _ _ V),
     list_ c = [] → evict c = Ok (tt, c)).
Proof.
  split; [|split].
  - intros K EqK CK V zeroK zeroV select cap h rs c k v Hcap Hs.
    destruct (session_inv zeroK zeroV select cap h rs c Hcap Hs) as [Hinv _].
    by apply Put_never_evicts_empty.
  - intros K EqK CK V zeroK zeroV select cap h rs c k v p c1 Hcap Hs _.
    by apply (evict_guarded zeroK zeroV select cap h rs).
  - intros K EqK CK V c. apply evict_empty.
Qed.

Lemma C7_evict_guarded_and_harmless_when_empty_witness :
  (0 < 1 ∧
   ∃ rs c,
     session 0 0 ignore_pool 1 [OpPut 1 1] = Ok (rs, c) ∧
     ∃ c', Put 0 0 ignore_pool 2 2 c = Ok (tt, c') ∧
           Put_checked 0 0 ignore_pool 2 2 c = Ok (tt, c')) ∧
  (0 < 1 ∧
   ∃ rs c p c1,
     session 0 0 ignore_pool 1 [OpPut 1 1] = Ok (rs, c) ∧
     dict c !! 2 = None ∧
     Put_alloc 0 0 ignore_pool 2 2 c = Ok (p, c1) ∧
     capacity c1 ≤ Z.of_nat (length (list_ c1)) ∧
     list_ c1 ≠ []) ∧
  (let c := Build_LRUCache 1 [] (∅ : gmap Z loc) [] [Entry 1 1] [] in
   list_ c = [] ∧ evict c = Ok (tt, c)).
Proof.
  split; [|split].
  - split; [lia|]. eexists _, _.
    split; [vm_compute; reflexivity|].
    refine (proj1 C7_evict_guarded_and_harmless_when_empty Z _ _ Z 0 0
              ignore_pool 1 [OpPut 1 1] [Done] _ 2 2 _ _).
    + lia.
    + vm_compute. reflexivity.
  - split; [lia|]. eexists _, _, _, _.
    split; [vm_compute; reflexivity|].
    split; [vm_compute; reflexivity|].
    split; [vm_compute; reflexivity|].
    split; [simpl; lia|].
    refine (proj1 (proj2 C7_evict_guarded_and_harmless_when_empty) Z _ _ Z 0 0
              ignore_pool 1 [OpPut 1 1] [Done] _ 2 2 _ _ _ _ _ _ _).
    + lia.
    + vm_compute. reflexivity.
    + vm_compute. reflexivity.
    + vm_compute. reflexivity.
    + simpl. lia.
  - intros c. split; [reflexivity|].
    apply (proj2 (proj2 C7_evict_guarded_and_harmless_when_empty) Z _ _ Z c).
    reflexivity.
Defined.

(** The monitor is not vacuous: on an empty list [evict_checked] panics
    where [evict] returns, so a [Put] that reached [evict] on an empty list
    would differ from [Put_checked]. *)
Example evict_checked_panics_on_empty :
  let c := @Build_LRUCache Z _ _ Z 1 [] ∅ [] [] [] in
  evict c = Ok (tt, c) ∧ evict_checked c = Panic evict_on_empty.
Proof. split; reflexivity. Qed.

(** * Verification of the stream package *)

Section latest_facts.
Context {T : Type} (zero : T).
Import Stream.

Local Abbreviation queue := (@LatestItemQueue T).
Local Abbreviation Produce := (Stream.Produce zero).
Local Abbreviation Consume := (Stream.Consume zero).
Local Abbreviation queue_step := (Stream.queue_step zero).
Local Abbreviation reachable := (Stream.reachable zero).

Implicit Types (q : queue).

Ltac unfold_queue :=
  unfold Stream.Produce, Stream.Consume, ConsumeChannel, Close,
    recv_ready, send_ready, recv, send, close,
    mbind, outcome_bind, mret, outcome_ret in *;
  simpl in *.

Lemma queue_inv_new : queue_inv (@NewLatestItemQueue T).
Proof. unfold queue_inv. simpl. repeat split; lia. Qed.

Ltac queue_cases q :=
  let b := fresh "b" in
  let cl := fresh "cl" in
  let Hcl := fresh "Hcl" in
  let Hb := fresh "Hb" in
  let Hn := fresh "Hn" in
  let Hlen := fresh "Hlen" in
  destruct q as [[b ? cl] [? ? ?]];
  intros (Hcl & Hb & Hn & Hlen); simpl in Hcl, Hb, Hn, Hlen; subst;
  destruct b as [|? [|? ?]]; simpl in Hlen; [| |lia];
  destruct cl.

Lemma Produce_inv first item q q' :
  queue_inv q → Produce first item q = Returns q' →
  queue_inv q' ∧ chan_closed (closed q') = chan_closed (closed q).
Proof.
  queue_cases q; destruct first; unfold_queue;
    intros [= <-]; unfold queue_inv; simpl; repeat split; lia.
Qed.

Lemma Consume_inv q r q' :
  queue_inv q → Consume q = Returns (r, q') →
  queue_inv q' ∧ chan_closed (closed q') = chan_closed (closed q).
Proof.
  queue_cases q; unfold_queue;
    intros [= <- <-]; unfold queue_inv; simpl; repeat split; lia.
Qed.

Lemma Close_inv q :
  queue_inv q →
  ∃ q', Close q = Returns q' ∧ queue_inv q' ∧
        chan_closed (closed q') = true ∧
        (chan_closed (closed q) = true → q' = q).
Proof.
  queue_cases q; unfold_queue; eexists; (split; [reflexivity|]);
    unfold queue_inv; simpl; repeat split; try lia; try done.
Qed.

Lemma queue_step_inv q q' :
  queue_inv q → queue_step q q' →
  queue_inv q' ∧
  (chan_closed (closed q) = true → chan_closed (closed q') = true).
Proof.
  intros Hinv Hstep. revert Hinv.
  destruct Hstep as [first item q1 q1' Hp|q1 r q1' Hc|q1 q1' Hc]; intros Hinv.
  - destruct (Produce_inv first item q1 q1' Hinv Hp) as [? ->]. done.
  - destruct (Consume_inv q1 r q1' Hinv Hc) as [? ->]. done.
  - destruct (Close_inv q1 Hinv) as (q2 & Hc' & ? & ? & _).
    rewrite Hc in Hc'. injection Hc' as <-. done.
Qed.

Lemma queue_steps_inv q q' :
  queue_inv q → rtc queue_step q q' →
  queue_inv q' ∧
  (chan_closed (closed q) = true → chan_closed (closed q') = true).
Proof.
  intros Hinv Hsteps. induction Hsteps as [q|q q1 q2 Hstep Hsteps IH].
  - done.
  - destruct (queue_step_inv q q1 Hinv Hstep) as [Hinv1 Hcl1].
    destruct (IH Hinv1) as [Hinv2 Hcl2]. split; [done|]. auto.
Qed.

Lemma reachable_inv q : reachable q → queue_inv q.
Proof.
  intros Hr. by destruct (queue_steps_inv _ q queue_inv_new Hr).
Qed.

(** Once the queue is closed, a receive never blocks: it yields the item
    still buffered, if there is one, and from then on reports that the
    channel is closed. *)
Lemma Consume_closed q :
  queue_inv q → chan_closed (closed q) = true →
  ∃ r q', Consume q = Returns (r, q') ∧
          Consume q' = Returns ((zero, false), q').
Proof.
  intros Hinv Hcl. revert Hinv Hcl.
  queue_cases q; unfold_queue; intros Hcl; try done;
    eexists _, _; (split; [reflexivity|]); done.
Qed.

End latest_facts.

Section pq_facts.
Context {T : Type}.
Import Stream.

Local Abbreviation item_t := (@Item T).

Implicit Types (pq : PriorityQueue) (items : list item_t).

Lemma pq_valid_insert pq items a it :
  pq_valid pq items → pq_valid pq (<[a := it]> items).
Proof.
  unfold pq_valid. intros Hv. eapply Forall_impl; [exact Hv|].
  intros x. by rewrite list_lookup_insert_is_Some.
Qed.

Lemma at_index_Some pq i a : at_index pq i = Some a → a ∈ pq.
Proof.
  unfold at_index. case_decide; [|done]. intros Hl.
  apply list_elem_of_lookup. eauto.
Qed.

Lemma pq_reachable_valid pq items : pq_reachable pq items → pq_valid pq items.
Proof.
  induction 1 as [|pq items it _ IH|pq items a it _ IH Ha
                  |pq items item pq' items' _ IH HP
                  |pq items r pq' items' _ IH HP
                  |pq items i j pq' items' _ IH HS].
  - constructor.
  - eapply Forall_impl; [exact IH|]. intros x [y Hy].
    exists y. by apply lookup_app_l_Some.
  - by apply pq_valid_insert.
  - unfold Push in HP. destruct (items !! item) as [it|] eqn:Hit; [|done].
    injection HP as <- <-. apply pq_valid_insert.
    apply Forall_app. split; [done|]. constructor; [by eauto|constructor].
  - unfold Pop in HP. case_decide.
    + by injection HP as <- <- <-.
    + destruct (pq !! (length pq - 1)%nat) as [item|]; [|done].
      destruct (items !! item) as [it|]; [|done].
      injection HP as <- <- <-. apply pq_valid_insert. by apply Forall_take.
  - unfold Swap in HS.
    destruct (at_index pq i) as [a|] eqn:Ha; [|done].
    destruct (at_index pq j) as [b|] eqn:Hb; [|done].
    assert (pq_valid (<[Z.to_nat j := a]> (<[Z.to_nat i := b]> pq)) items)
      as Hv.
    { pose proof (proj1 (Forall_forall _ _) IH) as Hall.
      apply Forall_insert; [apply Forall_insert; [done|]|];
        apply Hall; by eapply at_index_Some. }
    simpl in HS. repeat case_match; try done.
    injection HS as <- <-. by do 2 apply pq_valid_insert.
Qed.

Lemma Pop_empty items : Pop [] items = Ok (None, [], items).
Proof. done. Qed.

Lemma Pop_snoc pq item items it :
  items !! item = Some it →
  Pop (pq ++ [item]) items =
    Ok (Some item, pq, <[item := set_index (-1) it]> items).
Proof.
  intros Hit. unfold Pop. cbv zeta. rewrite length_app. simpl.
  rewrite decide_False by lia.
  replace (length pq + 1 - 1)%nat with (length pq) by lia.
  rewrite list_lookup_middle by done. rewrite Hit.
  by rewrite take_app_length.
Qed.

Lemma Pop_nil_last pq item items :
  items !! item = None → Pop (pq ++ [item]) items = Panic nil_deref.
Proof.
  intros Hit. unfold Pop. cbv zeta. rewrite length_app. simpl.
  rewrite decide_False by lia.
  replace (length pq + 1 - 1)%nat with (length pq) by lia.
  rewrite list_lookup_middle by done. by rewrite Hit.
Qed.

End pq_facts.

(** * The specified properties of the stream package *)

(** ** The queue, evaluated *)

(** A second [Produce] replaces the pending item (TestLatestItemQueue_Overwrite). *)
Example produce_overwrites :
  (q1 ← Stream.Produce 0 true 1 Stream.NewLatestItemQueue;
   q2 ← Stream.Produce 0 true 2 q1;
   r ← Stream.Consume 0 q2;
   mret r.1)
  = Stream.Returns (2, true).
Proof. reflexivity. Qed.

(** After [Close] the pending item can still be received, then the channel
    reports closed (TestLatestItemQueue_Close). *)
Example close_then_drain :
  (q1 ← Stream.Produce 0 true 1 Stream.NewLatestItemQueue;
   q2 ← Stream.Close q1;
   q3 ← Stream.Close q2;
   r1 ← Stream.Consume 0 q3;
   r2 ← Stream.Consume 0 r1.2;
   mret (r1.1, r2.1))
  = Stream.Returns ((1, true), (0, false)).
Proof. reflexivity. Qed.

(** After [Close] both cases of the [select] in [Produce] can proceed; when
    the send is picked, it is a send on a closed channel. *)
Example produce_after_close :
  (q1 ← Stream.Close Stream.NewLatestItemQueue; Stream.Produce 0 true 5 q1)
    = Stream.Close Stream.NewLatestItemQueue ∧
  (q1 ← Stream.Close Stream.NewLatestItemQueue; Stream.Produce 0 false 5 q1)
    = Stream.Panics "send on closed channel".
Proof. split; reflexivity. Qed.

(** C9.  [Close] is idempotent.  On every queue a program can build, [Close]
    returns; and in every state reached afterwards (by further [Produce],
    receive and [Close] calls that return) another [Close] returns without
    a panic and changes nothing, and a receive on the consume channel does
    not block: it yields the one item still buffered, if any, and from then
    on reports the channel closed ([ok = false]). *)
Theorem C9_close_is_idempotent {T} (zero : T)
    (q : @Stream.LatestItemQueue T) :
  Stream.reachable zero q →
  ∃ q1, Stream.Close q = Stream.Returns q1 ∧
    ∀ q', rtc (Stream.queue_step zero) q1 q' →
      Stream.Close q' = Stream.Returns q' ∧
      ∃ r q'',
        Stream.Consume zero q' = Stream.Returns (r, q'') ∧
        Stream.Consume zero q'' = Stream.Returns ((zero, false), q'').
Proof.
  intros Hinv%reachable_inv.
  destruct (Close_inv q Hinv) as (q1 & Hc & Hinv1 & Hcl1 & _).
  exists q1. split; [done|]. intros q' Hsteps.
  destruct (queue_steps_inv zero q1 q' Hinv1 Hsteps) as [Hinv' Hcl'].
  specialize (Hcl' Hcl1).
  destruct (Close_inv q' Hinv') as (q2 & Hc2 & _ & _ & Heq).
  rewrite (Heq Hcl') in Hc2. split; [done|].
  by apply Consume_closed.
Qed.

Lemma C9_close_is_idempotent_witness :
  let q := Stream.Build_LatestItemQueue
             (Stream.Chan [42] 1 false) (Stream.Chan [] 0 false) in
  Stream.reachable 0 q ∧
  ∃ q1, Stream.Close q = Stream.Returns q1 ∧
    ∀ q', rtc (Stream.queue_step 0) q1 q' →
      Stream.Close q' = Stream.Returns q' ∧
      ∃ r q'',
        Stream.Consume 0 q' = Stream.Returns (r, q'') ∧
        Stream.Consume 0 q'' = Stream.Returns ((0, false), q'').
Proof.
  intros q.
  assert (Stream.reachable 0 q) as Hq.
  { apply rtc_once. apply (Stream.step_produce 0 true 42). reflexivity. }
  split; [exact Hq|].
  apply (C9_close_is_idempotent 0 q). exact Hq.
Defined.

(** C10, as claimed for every non-empty queue, fails: a [PriorityQueue] is
    a slice of pointers, and the one-element slice holding a nil pointer
    ([PriorityQueue[int]{nil}]) is not empty, yet [Pop] on it panics at
    [item.index = -1] instead of returning the element. *)
Lemma C10_pop_of_nil_item_panics :
  let pq : Stream.PriorityQueue := [0%nat] in
  let items : list (@Stream.Item Z) := [] in
  Stream.Len pq = 1 ∧ items !! 0%nat = None ∧
  Stream.Pop pq items = Panic nil_deref.
Proof. repeat split. Qed.

(** C10, amended.  [Pop] on an empty [PriorityQueue] returns nil, panics
    not and leaves the queue empty and the items untouched.  On every
    non-empty queue whose last element points to an item, [Pop] returns
    that element, shortens the slice by it and sets the [index] of the
    returned item to [-1], its other fields unchanged; every non-empty
    queue a program builds with the operations of the package is of this
    kind.  On a queue whose last element is a nil pointer [Pop] panics. *)
Theorem C10_pop_returns_last_item {T} :
  (∀ items : list (@Stream.Item T),
     Stream.Pop [] items = Ok (None, [], items)) ∧
  (∀ (pq : Stream.PriorityQueue) (items : list (@Stream.Item T)) item it,
     last pq = Some item → items !! item = Some it →
     ∃ pq',
       pq = pq' ++ [item] ∧
       Stream.Pop pq items =
         Ok (Some item, pq', <[item := Stream.set_index (-1) it]> items) ∧
       <[item := Stream.set_index (-1) it]> items !! item =
         Some (Stream.Build_Item (Stream.value it) (Stream.priority it) (-1))) ∧
  (∀ (pq : Stream.PriorityQueue) (items : list (@Stream.Item T)),
     Stream.pq_reachable pq items → pq ≠ [] →
     ∃ item it, last pq = Some item ∧ items !! item = Some it) ∧
  (∀ (pq : Stream.PriorityQueue) (items : list (@Stream.Item T)) item,
     last pq = Some item → items !! item = None →
     Stream.Pop pq items = Panic nil_deref).
Proof.
  split; [apply Pop_empty|]. split; [|split].
  - intros pq items item it [pq' ->]%last_Some Hit.
    exists pq'. split; [done|]. split; [by apply Pop_snoc|].
    apply list_lookup_insert_eq. by eapply lookup_lt_Some.
  - intros pq items Hvalid%pq_reachable_valid Hne.
    destruct (proj2 (last_is_Some pq) Hne) as [item Hlast].
    pose proof Hlast as [pq' ->]%last_Some.
    apply Forall_app in Hvalid as [_ [[it Hit] _]%Forall_cons].
    by exists item, it.
  - intros pq items item [pq' ->]%last_Some Hit. by apply Pop_nil_last.
Qed.

Lemma C10_pop_returns_last_item_witness :
  let items := [Stream.Build_Item 7 3 0; Stream.Build_Item 8 1 1] in
  let pq : Stream.PriorityQueue := [0%nat; 1%nat] in
  (last pq = Some 1%nat ∧ items !! 1%nat = Some (Stream.Build_Item 8 1 1) ∧
   ∃ pq',
     pq = pq' ++ [1%nat] ∧
     Stream.Pop pq items =
       Ok (Some 1%nat, pq',
           <[1%nat := Stream.set_index (-1) (Stream.Build_Item 8 1 1)]> items) ∧
     <[1%nat := Stream.set_index (-1) (Stream.Build_Item 8 1 1)]> items
       !! 1%nat = Some (Stream.Build_Item 8 1 (-1))) ∧
  (Stream.pq_reachable pq items ∧ pq ≠ [] ∧
   ∃ item it, last pq = Some item ∧ items !! item = Some it) ∧
  (last [5%nat] = Some 5%nat ∧ items !! 5%nat = None ∧
   Stream.Pop [5%nat] items = Panic nil_deref).
Proof.
  intros items pq.
  assert (Stream.pq_reachable pq items) as Hr.
  { apply (Stream.pq_reach_push [0%nat] items 1%nat); [|reflexivity].
    apply (Stream.pq_reach_push [] items 0%nat); [|reflexivity].
    apply (Stream.pq_reach_alloc [] [Stream.Build_Item 7 3 0]).
    apply (Stream.pq_reach_alloc [] []).
    apply Stream.pq_reach_new. }
  split; [|split].
  - split; [reflexivity|]. split; [reflexivity|].
    apply (proj1 (proj2 (C10_pop_returns_last_item (T:=Z))) pq items);
      reflexivity.
  - split; [exact Hr|]. split; [discriminate|].
    apply (proj1 (proj2 (proj2 (C10_pop_returns_last_item (T:=Z)))) pq items);
      [exact Hr|discriminate].
  - split; [reflexivity|]. split; [reflexivity|].
    apply (proj2 (proj2 (proj2 (C10_pop_returns_last_item (T:=Z))))
             [5%nat] items 5%nat); reflexivity.
Defined.

(** * Further properties of the cache *)

Section cache_more.
Context {K : Type} `{Countable K} {V : Type}.
Context (zeroK : K) (zeroV : V) (select : list loc → option nat).

Local Abbreviation cache := (@LRUCache K _ _ V).
Local Abbreviation Get := (Cache.Get zeroV).
Local Abbreviation Put := (Cache.Put zeroK zeroV select).
Local Abbreviation Put_alloc := (Cache.Put_alloc zeroK zeroV select).
Local Abbreviation step := (Cache.step zeroK zeroV select).
Local Abbreviation session := (Cache.session zeroK zeroV select).
Local Abbreviation seq_get := (Cache.seq_get zeroV).
Local Abbreviation seq_step := (Cache.seq_step zeroV).
Local Abbreviation seq_run := (Cache.seq_run zeroV).

Implicit Types (c : cache) (k : K) (v : V) (e p : loc)
  (l : list (K * V)) (h : list (@op K V)) (o : @op K V).

Lemma seq_put_head cap k v l : ∃ rest, seq_put cap k v l = (k, v) :: rest.
Proof. unfold seq_put. destruct (assoc k l); by eexists. Qed.

Lemma seq_get_found k l v :
  (seq_get k l).1 = (v, true) ↔ assoc k l = Some v.
Proof.
  unfold Cache.seq_get. destruct (assoc k l) as [v0|]; simpl; split;
    intros Heq; try done; congruence.
Qed.

Lemma assoc_seq_put_ne cap k v l k' v' :
  k' ≠ k → assoc k' (seq_put cap k v l) = Some v' → assoc k' l = Some v'.
Proof.
  intros Hne. unfold seq_put. destruct (assoc k l); simpl;
    rewrite decide_False by congruence.
  - by rewrite assoc_without_ne.
  - case_decide; [apply assoc_removelast|done].
Qed.

Lemma length_removelast l : l ≠ [] → S (length (removelast l)) = length l.
Proof.
  intros Hne. destruct (proj2 (last_is_Some l) Hne) as [a [l' ->]%last_Some].
  rewrite removelast_snoc, length_app. simpl. lia.
Qed.

Lemma seq_step_length cap o l :
  0 < cap → NoDup l.*1 →
  (length l ≤ length (seq_step cap o l).2 ≤ S (length l))%nat.
Proof.
  intros Hcap Hnd.
  assert (∀ k v0, assoc k l = Some v0 →
            S (length (without k l)) = length l) as Hhit.
  { intros k v0 Ha%assoc_Some. apply length_without; [done|].
    apply list_elem_of_fmap. by exists (k, v0). }
  destruct o as [k|k v]; simpl.
  - unfold Cache.seq_get. destruct (assoc k l) as [v0|] eqn:Ha; simpl.
    + rewrite (Hhit k v0 Ha). lia.
    + lia.
  - unfold seq_put. destruct (assoc k l) as [v0|] eqn:Ha; simpl.
    + rewrite (Hhit k v0 Ha). lia.
    + case_decide; [|lia].
      rewrite length_removelast; [lia|]. intros ->. simpl in *. lia.
Qed.

Lemma put_get_round_trip c k v :
  inv c →
  ∃ c1 c2, Put k v c = Ok (tt, c1) ∧ Get k c1 = Ok ((v, true), c2) ∧
           contents c2 = contents c1.
Proof.
  intros Hinv. destruct (inv_contents c Hinv) as [l Hc].
  destruct (Put_refines zeroK zeroV select c k v _ Hinv Hc)
    as (c1 & HP & Hinv1 & Hc1 & _).
  destruct (seq_put_head (capacity c) k v l) as [rest Hrest].
  rewrite Hrest in Hc1.
  destruct (Get_refines zeroV c1 k _ Hinv1 Hc1) as (c2 & HG & _ & Hc2 & _).
  unfold Cache.seq_get in HG, Hc2. simpl in HG, Hc2.
  rewrite decide_True in HG, Hc2 by done. simpl in HG, Hc2.
  exists c1, c2. split; [done|]. split; [done|].
  rewrite Hc2, Hc1. do 2 f_equal.
  pose proof (contents_keys_nodup c1 _ Hinv1 Hc1) as Hnd. simpl in Hnd.
  apply NoDup_cons in Hnd as [Hk _]. unfold without.
  rewrite filter_cons_False by (simpl; tauto). by apply without_notin.
Qed.

(** X2.  A hit only reorders: [Get] of a key in [dict] returns the value
    stored for it, moves its pair to the front of the recency sequence and
    writes nothing else: [dict], the pool and both arenas are unchanged. *)
Theorem X2_get_hit_only_reorders cap h rs c k e :
  0 < cap → session cap h = Ok (rs, c) → dict c !! k = Some e →
  ∃ v l c', contents c = Some l ∧ assoc k l = Some v ∧
            Get k c = Ok ((v, true), c') ∧
            contents c' = Some ((k, v) :: without k l) ∧
            dict c' = dict c ∧ pool c' = pool c ∧
            entries c' = entries c ∧ elements c' = elements c.
Proof.
  intros Hcap Hs Hd.
  destruct (session_inv zeroK zeroV select cap h rs c Hcap Hs)
    as (Hinv & _ & _ & Hc).
  destruct (inv_dict_list c Hinv k e Hd) as (He & p & ent & Hp & Hent & Hk).
  assert (node c e = Some (k, value ent)) as Hn.
  { unfold node. rewrite Hp. simpl. rewrite Hent. simpl. by rewrite Hk. }
  eexists (value ent), _, (moved e c). split; [exact Hc|].
  split; [by eapply contents_assoc_Some|].
  split; [by eapply Get_hit|]. split; [|done].
  by eapply contents_moved.
Qed.

(** X3.  Insertion with room: [Put] of a key that is not in [dict] while
    the list is shorter than the capacity puts the new pair in front of
    the unchanged sequence; [dict] gains one key and keeps all it had. *)
Theorem X3_put_new_key_with_room cap h rs c k v :
  0 < cap → session cap h = Ok (rs, c) → dict c !! k = None →
  Z.of_nat (length (list_ c)) < capacity c →
  ∃ l c', contents c = Some l ∧ Put k v c = Ok (tt, c') ∧
          contents c' = Some ((k, v) :: l) ∧
          size (dict c') = S (size (dict c)) ∧
          ∀ k', is_Some (dict c !! k') → is_Some (dict c' !! k').
Proof.
  intros Hcap Hs Hd Hroom.
  destruct (session_inv zeroK zeroV select cap h rs c Hcap Hs)
    as (Hinv & _ & _ & Hc).
  destruct (Put_refines zeroK zeroV select c k v _ Hinv Hc)
    as (c' & HP & Hinv' & Hc' & _).
  pose proof (contents_length c _ Hc) as Hlen.
  unfold seq_put in Hc'. rewrite (contents_assoc_None c _ k Hinv Hc Hd) in Hc'.
  rewrite decide_False in Hc' by lia.
  eexists _, c'. split; [exact Hc|]. split; [done|]. split; [done|]. split.
  - rewrite (inv_size c' Hinv'), (inv_size c Hinv).
    rewrite <-(contents_length c' _ Hc'). simpl. by rewrite Hlen.
  - intros k'. rewrite (dict_contents c' _ k' Hinv' Hc').
    rewrite (dict_contents c _ k' Hinv Hc). simpl. by right.
Qed.

(** X4.  The number of live pairs never goes down and grows by at most one
    per call: after any [Get] or [Put] on a state reached from a fresh
    cache the list is at least as long as before, at most one longer, and
    within the capacity. *)
Theorem X4_live_count_never_decreases cap h rs c o :
  0 < cap → session cap h = Ok (rs, c) →
  ∃ r c', step o c = Ok (r, c') ∧
          (length (list_ c) ≤ length (list_ c') ≤ S (length (list_ c)))%nat ∧
          Z.of_nat (length (list_ c')) ≤ cap.
Proof.
  intros Hcap Hs.
  destruct (session_inv zeroK zeroV select cap h rs c Hcap Hs)
    as (Hinv & Hcapc & _ & Hc).
  destruct (step_refines zeroK zeroV select c o _ Hinv Hc)
    as (c' & Hst & Hinv' & Hc' & Hcap').
  eexists _, c'. split; [exact Hst|].
  rewrite <-(contents_length c _ Hc), <-(contents_length c' _ Hc').
  split.
  - apply seq_step_length; [lia|]. exact (contents_keys_nodup c _ Hinv Hc).
  - rewrite (contents_length c' _ Hc'), <-Hcapc, <-Hcap'. by apply Hinv'.
Qed.

(** X5.  [Put] does not disturb the values of other keys: whatever [Get]
    finds for a key other than [k] after [Put k v] is what [Get] would
    have found for it before. *)
Theorem X5_put_keeps_other_values cap h rs c k v c' k' v' c'' :
  0 < cap → session cap h = Ok (rs, c) →
  Put k v c = Ok (tt, c') → k' ≠ k →
  Get k' c' = Ok ((v', true), c'') →
  ∃ c3, Get k' c = Ok ((v', true), c3).
Proof.
  intros Hcap Hs HP Hne HG.
  destruct (session_inv zeroK zeroV select cap h rs c Hcap Hs)
    as (Hinv & _ & _ & Hc).
  destruct (Put_refines zeroK zeroV select c k v _ Hinv Hc)
    as (c1 & HP1 & Hinv1 & Hc1 & _).
  rewrite HP in HP1. injection HP1 as <-.
  destruct (Get_refines zeroV c' k' _ Hinv1 Hc1) as (c2 & HG2 & _).
  rewrite HG in HG2. injection HG2 as Hr _.
  symmetry in Hr. apply seq_get_found in Hr.
  apply assoc_seq_put_ne in Hr; [|done].
  destruct (Get_refines zeroV c k' _ Hinv Hc) as (c3 & HG3 & _).
  exists c3. rewrite HG3. f_equal. f_equal. by apply seq_get_found.
Qed.

(** X6.  Records are never shared: after any session every pooled record
    is allocated, appears once in the pool and is not the record of any
    node of the list, and no two nodes of the list point to the same
    record.  A record handed out by the pool can therefore be overwritten
    without touching a live pair. *)
Theorem X6_pooled_records_are_not_live cap h rs c :
  0 < cap → session cap h = Ok (rs, c) →
  NoDup (pool c) ∧
  (∀ p, p ∈ pool c →
     is_Some (entries c !! p) ∧
     ∀ e, e ∈ list_ c → elements c !! e ≠ Some p) ∧
  (∀ e1 e2 p, e1 ∈ list_ c → e2 ∈ list_ c →
     elements c !! e1 = Some p → elements c !! e2 = Some p → e1 = e2).
Proof.
  intros Hcap Hs.
  destruct (session_inv zeroK zeroV select cap h rs c Hcap Hs) as (Hinv & _).
  split; [by apply Hinv|]. split; [by apply Hinv|by apply Hinv].
Qed.

(** X7.  The capacity given to [NewLRUCache] is never changed by [Get] or
    [Put]. *)
Theorem X7_capacity_is_immutable cap h rs c :
  0 < cap → session cap h = Ok (rs, c) → capacity c = cap.
Proof.
  intros Hcap Hs.
  by destruct (session_inv zeroK zeroV select cap h rs c Hcap Hs) as (_ & ? & _).
Qed.

Lemma get_found_iff_live c l :
  inv c → contents c = Some l →
  NoDup l.*1 ∧
  ∀ k, ∃ r c', Get k c = Ok (r, c') ∧
               (r.2 = true ↔ k ∈ l.*1) ∧
               (r.2 = true → (k, r.1) ∈ l).
Proof.
  intros Hinv Hc. split; [by eapply contents_keys_nodup|].
  intros k. destruct (Get_refines zeroV c k _ Hinv Hc) as (c' & HG & _).
  eexists _, c'. split; [exact HG|]. unfold Cache.seq_get.
  destruct (assoc k _) as [v|] eqn:Ha; simpl.
  - split; [|intros _; by apply assoc_Some].
    split; [intros _|done]. apply assoc_Some in Ha.
    apply list_elem_of_fmap. by exists (k, v).
  - apply assoc_None in Ha. split; [|done]. split; [done|]. intros Hin.
    by destruct Ha.
Qed.

(** X11.  Repeating a [Get] changes nothing further: the second [Get] of
    the same key returns the same reply as the first and leaves the live
    pairs and their order as the first left them. *)
Theorem X11_get_twice_is_get_once cap h rs c k :
  0 < cap → session cap h = Ok (rs, c) →
  ∃ r c1 c2, Get k c = Ok (r, c1) ∧ Get k c1 = Ok (r, c2) ∧
             contents c2 = contents c1.
Proof.
  intros Hcap Hs.
  destruct (session_inv zeroK zeroV select cap h rs c Hcap Hs)
    as (Hinv & _ & _ & Hc).
  destruct (Get_refines zeroV c k _ Hinv Hc) as (c1 & HG1 & Hinv1 & Hc1 & _).
  destruct (Get_refines zeroV c1 k _ Hinv1 Hc1) as (c2 & HG2 & _ & Hc2 & _).
  eexists _, c1, c2. split; [exact HG1|].
  assert (seq_get k (seq_get k (seq_run cap h []).2).2 =
            ((seq_get k (seq_run cap h []).2).1,
             (seq_get k (seq_run cap h []).2).2)) as Hsame.
  { generalize (seq_run cap h []).2. intros l. unfold Cache.seq_get.
    destruct (assoc k l) as [v|] eqn:Ha; simpl.
    - rewrite decide_True by done. do 2 f_equal.
      unfold without at 1. rewrite filter_cons_False by (simpl; tauto).
      apply without_notin, without_keys_notin.
    - by rewrite Ha. }
  rewrite Hsame in HG2, Hc2. split; [exact HG2|]. by rewrite Hc2, Hc1.
Qed.

End cache_more.

Ltac evaluated := vm_compute; reflexivity.

Lemma X2_get_hit_only_reorders_witness :
  0 < 2 ∧
  ∃ rs c e, session 0 0 reuse_last 2 [OpPut 1 10; OpPut 2 20] = Ok (rs, c) ∧
            dict c !! 1 = Some e ∧
  ∃ v l c', contents c = Some l ∧ assoc 1 l = Some v ∧
            Get 0 1 c = Ok ((v, true), c') ∧
            contents c' = Some ((1, v) :: without 1 l) ∧
            dict c' = dict c ∧ pool c' = pool c ∧
            entries c' = entries c ∧ elements c' = elements c.
Proof.
  split; [lia|]. eexists _, _, _. split; [evaluated|]. split; [evaluated|].
  refine (X2_get_hit_only_reorders 0 0 reuse_last 2
            [OpPut 1 10; OpPut 2 20] [Done; Done] _ 1 _ _ _ _);
    [lia|evaluated|evaluated].
Defined.

Lemma X3_put_new_key_with_room_witness :
  0 < 2 ∧
  ∃ rs c, session 0 0 reuse_last 2 [OpPut 1 10] = Ok (rs, c) ∧
          dict c !! 2 = None ∧
          Z.of_nat (length (list_ c)) < capacity c ∧
  ∃ l c', contents c = Some l ∧ Put 0 0 reuse_last 2 20 c = Ok (tt, c') ∧
          contents c' = Some ((2, 20) :: l) ∧
          size (dict c') = S (size (dict c)) ∧
          ∀ k', is_Some (dict c !! k') → is_Some (dict c' !! k').
Proof.
  split; [lia|]. eexists _, _. split; [evaluated|]. split; [evaluated|].
  split; [simpl; lia|].
  refine (X3_put_new_key_with_room 0 0 reuse_last 2
            [OpPut 1 10] [Done] _ 2 20 _ _ _ _);
    [lia|evaluated|evaluated|simpl; lia].
Defined.

Lemma X4_live_count_never_decreases_witness :
  0 < 1 ∧
  ∃ rs c, session 0 0 reuse_last 1 [OpPut 1 10] = Ok (rs, c) ∧
  ∃ r c', step 0 0 reuse_last (OpPut 2 20) c = Ok (r, c') ∧
          (length (list_ c) ≤ length (list_ c') ≤ S (length (list_ c)))%nat ∧
          Z.of_nat (length (list_ c')) ≤ 1.
Proof.
  split; [lia|]. eexists _, _. split; [evaluated|].
  refine (X4_live_count_never_decreases 0 0 reuse_last 1
            [OpPut 1 10] [Done] _ (OpPut 2 20) _ _); [lia|evaluated].
Defined.

Lemma X5_put_keeps_other_values_witness :
  0 < 2 ∧
  ∃ rs c c' c'',
    session 0 0 reuse_last 2 [OpPut 1 10] = Ok (rs, c) ∧
    Put 0 0 reuse_last 2 20 c = Ok (tt, c') ∧ 1 ≠ 2 ∧
    Get 0 1 c' = Ok ((10, true), c'') ∧
    ∃ c3, Get 0 1 c = Ok ((10, true), c3).
Proof.
  split; [lia|]. eexists _, _, _, _. split; [evaluated|].
  split; [evaluated|]. split; [lia|]. split; [evaluated|].
  refine (X5_put_keeps_other_values 0 0 reuse_last 2
            [OpPut 1 10] [Done] _ 2 20 _ 1 10 _ _ _ _ _ _);
    [lia|evaluated|evaluated|lia|evaluated].
Defined.

Lemma X6_pooled_records_are_not_live_witness :
  0 < 1 ∧
  ∃ rs c, session 0 0 ignore_pool 1 [OpPut 1 10; OpPut 2 20] = Ok (rs, c) ∧
          pool c = [0%nat] ∧
  NoDup (pool c) ∧
  (∀ p, p ∈ pool c →
     is_Some (entries c !! p) ∧
     ∀ e, e ∈ list_ c → elements c !! e ≠ Some p) ∧
  (∀ e1 e2 p, e1 ∈ list_ c → e2 ∈ list_ c →
     elements c !! e1 = Some p → elements c !! e2 = Some p → e1 = e2).
Proof.
  split; [lia|]. eexists _, _. split; [evaluated|]. split; [evaluated|].
  refine (X6_pooled_records_are_not_live 0 0 ignore_pool 1
            [OpPut 1 10; OpPut 2 20] [Done; Done] _ _ _); [lia|evaluated].
Defined.

Lemma X7_capacity_is_immutable_witness :
  0 < 3 ∧
  ∃ rs c, session 0 0 reuse_last 3 [OpPut 1 10; OpGet 1; OpPut 2 20]
            = Ok (rs, c) ∧
          capacity c = 3.
Proof.
  split; [lia|]. eexists _, _. split; [evaluated|].
  refine (X7_capacity_is_immutable 0 0 reuse_last 3
            [OpPut 1 10; OpGet 1; OpPut 2 20] [Done; Got 10 true; Done]
            _ _ _); [lia|evaluated].
Defined.

Lemma X11_get_twice_is_get_once_witness :
  0 < 2 ∧
  ∃ rs c, session 0 0 reuse_last 2 [OpPut 1 10; OpPut 2 20] = Ok (rs, c) ∧
  ∃ r c1 c2, Get 0 1 c = Ok (r, c1) ∧ Get 0 1 c1 = Ok (r, c2) ∧
             contents c2 = contents c1.
Proof.
  split; [lia|]. eexists _, _. split; [evaluated|].
  refine (X11_get_twice_is_get_once 0 0 reuse_last 2
            [OpPut 1 10; OpPut 2 20] [Done; Done] _ 1 _ _); [lia|evaluated].
Defined.

(** * Further properties of the cache, for every comparable key type *)

Section anykey_more.
Context {K : Type} `{Countable K} {V : Type}.
Context (eqb : K → K → bool) (hashable : K → bool).
Context (zeroK : K) (zeroV : V) (select : list loc → option nat).

Local Abbreviation gcache := (@AnyKey.LRUCache K V).
Local Abbreviation plain_key := (AnyKey.plain_key eqb hashable).
Local Abbreviation plain_op := (AnyKey.plain_op eqb hashable).
Local Abbreviation keys_ok := (AnyKey.keys_ok eqb hashable).
Local Abbreviation map_find := (AnyKey.map_find eqb).
Local Abbreviation stored_key := (AnyKey.stored_key eqb).
Local Abbreviation forget := (@AnyKey.forget K _ _ V).
Local Abbreviation gGet := (AnyKey.Get eqb hashable zeroV).
Local Abbreviation gPut := (AnyKey.Put eqb hashable zeroK zeroV select).
Local Abbreviation gPut_alloc := (AnyKey.Put_alloc zeroK zeroV select).
Local Abbreviation gevict := (AnyKey.evict eqb hashable).
Local Abbreviation gsession :=
  (AnyKey.session eqb hashable zeroK zeroV select).

Implicit Types (g : gcache) (k : K) (v : V) (e p : loc)
  (h : list (@op K V)) (l : list (K * V)).

Lemma session_reached cap h rs g :
  (∀ a b, eqb a b = eqb b a) →
  0 < cap → Forall plain_op h → gsession cap h = Ok (rs, g) →
  inv (forget g) ∧ keys_ok (AnyKey.dict g) ∧ AnyKey.capacity g = cap.
Proof.
  intros Hsym Hcap Hops Hs.
  destruct (session_sim eqb hashable zeroK zeroV select Hsym cap h Hcap Hops)
    as (rs' & g' & _ & Hs' & _ & _ & Hinv & Hok & Hcapg).
  rewrite Hs in Hs'. injection Hs' as <- <-. done.
Qed.

Lemma gevict_explicit g (es : list loc) (b : loc) po ent :
  AnyKey.list_ g = es ++ [b] → NoDup (AnyKey.list_ g) →
  AnyKey.elements g !! b = Some po → AnyKey.entries g !! po = Some ent →
  hashable (key ent) = true →
  gevict g =
    Ok (tt, AnyKey.set_pool (po :: AnyKey.pool g)
              (AnyKey.set_list es
                 (AnyKey.set_dict
                    (filter (λ kv, eqb kv.1 (key ent) = false)
                       (AnyKey.dict g)) g))).
Proof.
  intros Hlist Hnd Hpo Hent Hh. rewrite Hlist in Hnd.
  unfold AnyKey.evict, AnyKey.Back, AnyKey.Remove, AnyKey.pool_Put,
    AnyKey.elem_Value, AnyKey.load, AnyKey.map_delete.
  unfold mbind, AnyKey.M_bind, mret, AnyKey.M_ret, AnyKey.gets,
    AnyKey.modify.
  rewrite Hlist, last_snoc. rewrite Hpo, Hent, Hh. simpl.
  rewrite Hlist. by rewrite filter_ne_snoc.
Qed.

(** X1.  Round trip: in every state reached from a fresh cache by
    operations on hashable keys, with [Put] keys [==] to themselves,
    [Put k v] of such a key followed by [Get k] returns [(v, true)], and
    that [Get] changes neither the live pairs nor their order. *)
Theorem X1_put_then_get_returns_value cap h rs g k v :
  (∀ a b, eqb a b = eqb b a) →
  0 < cap → Forall plain_op h → gsession cap h = Ok (rs, g) →
  plain_key k →
  ∃ g1 g2, gPut k v g = Ok (tt, g1) ∧ gGet k g1 = Ok ((v, true), g2) ∧
           contents (forget g2) = contents (forget g1).
Proof.
  intros Hsym Hcap Hops Hs Hk.
  destruct (session_reached cap h rs g Hsym Hcap Hops Hs) as (Hinv & Hok & _).
  destruct (Put_sim eqb hashable zeroK zeroV select Hsym g k v Hinv Hok Hk)
    as (g1 & HP & HC & Hinv1 & Hok1 & Hst & _).
  destruct (put_get_round_trip zeroK zeroV select (forget g)
              (stored_key k (AnyKey.dict g)) v Hinv)
    as (c1 & c2 & HP' & HG' & Hcont).
  rewrite HC in HP'. injection HP' as <-.
  rewrite <-Hst in HG'.
  destruct (Get_sim eqb hashable zeroV g1 k _ c2 Hok1 (proj1 Hk) HG')
    as (g2 & HG & -> & _).
  by exists g1, g2.
Qed.

(** X8.  [Get] reports what is live: after any session on hashable keys,
    with [Put] keys [==] to themselves, the live pairs have pairwise
    distinct keys, and for every hashable key [Get] returns without a
    panic, with [found = true] exactly when a live key is [==] to the key
    and then with the value paired with that live key. *)
Theorem X8_get_found_iff_live cap h rs g :
  (∀ a b, eqb a b = eqb b a) →
  0 < cap → Forall plain_op h → gsession cap h = Ok (rs, g) →
  ∃ l, contents (forget g) = Some l ∧ NoDup l.*1 ∧
       ∀ k, hashable k = true →
         ∃ r g', gGet k g = Ok (r, g') ∧
                 (r.2 = true ↔ ∃ k', k' ∈ l.*1 ∧ eqb k' k = true) ∧
                 (r.2 = true → ∃ k', eqb k' k = true ∧ (k', r.1) ∈ l).
Proof.
  intros Hsym Hcap Hops Hs.
  destruct (session_reached cap h rs g Hsym Hcap Hops Hs) as (Hinv & Hok & _).
  destruct (inv_contents _ Hinv) as [l Hc].
  destruct (get_found_iff_live zeroV (forget g) l Hinv Hc) as [Hnd Hget].
  exists l. split; [done|]. split; [done|]. intros k Hh.
  destruct (Get_total_sim eqb hashable zeroV g k Hinv Hok Hh)
    as (r & g' & HG & HC & _).
  destruct (Hget (stored_key k (AnyKey.dict g))) as (r' & c' & HG' & Hiff & Hv).
  rewrite HC in HG'. injection HG' as <- <-.
  exists r, g'. split; [done|].
  pose proof (lookup_stored_key eqb hashable k _ Hok) as Hl.
  pose proof (dict_contents (forget g) l (stored_key k (AnyKey.dict g))
                Hinv Hc) as Hdc.
  simpl in Hdc. rewrite Hl in Hdc.
  assert (stored_key k (AnyKey.dict g) ∈ l.*1 ↔
          ∃ k', k' ∈ l.*1 ∧ eqb k' k = true) as Hlive.
  { split.
    - intros Hin. exists (stored_key k (AnyKey.dict g)). split; [done|].
      apply Hdc in Hin as [e He]. unfold AnyKey.stored_key.
      destruct (map_find k (AnyKey.dict g)) as [kv|] eqn:Hf; [|done].
      by apply (map_find_Some eqb) in Hf as [_ ?].
    - intros (k' & Hk' & Heq). apply Hdc.
      destruct (map_find k (AnyKey.dict g)) as [kv|] eqn:Hf; [by eexists|].
      exfalso.
      apply (dict_contents (forget g) l k' Hinv Hc) in Hk' as [e' He'].
      simpl in He'. apply (elem_of_list_to_map_2 (M:=gmap K)) in He'.
      pose proof (proj1 (map_find_None eqb k _) Hf (k', e') He') as Hne.
      simpl in Hne. congruence. }
  split; [by rewrite Hiff|].
  intros Hr. exists (stored_key k (AnyKey.dict g)). split; [|by apply Hv].
  apply Hiff, Hlive in Hr as (k' & Hk' & Heq).
  unfold AnyKey.stored_key.
  destruct (map_find k (AnyKey.dict g)) as [kv|] eqn:Hf.
  - by apply (map_find_Some eqb) in Hf as [_ ?].
  - exfalso.
    apply (dict_contents (forget g) l k' Hinv Hc) in Hk' as [e' He'].
    simpl in He'. apply (elem_of_list_to_map_2 (M:=gmap K)) in He'.
    pose proof (proj1 (map_find_None eqb k _) Hf (k', e') He') as Hne.
    simpl in Hne. congruence.
Qed.

(** X9.  What [evict] does when [Put] calls it: on the state [Put] has
    prepared for a new key, with a non-empty list, in a session on
    hashable keys with [Put] keys [==] to themselves, [evict] returns
    without a panic, unlinks the last node of the list, deletes the key of
    that node's record from [dict] and pushes the record on the pool.  The
    record itself is not cleared: it still holds the evicted pair. *)
Theorem X9_evict_unlinks_back_and_pools_it cap h rs g k v p g1 :
  (∀ a b, eqb a b = eqb b a) →
  0 < cap → Forall plain_op h → gsession cap h = Ok (rs, g) →
  gPut_alloc k v g = Ok (p, g1) → AnyKey.list_ g1 ≠ [] →
  ∃ (es : list loc) (b : loc) po ent g2,
    AnyKey.list_ g1 = es ++ [b] ∧
    AnyKey.elements g1 !! b = Some po ∧ AnyKey.entries g1 !! po = Some ent ∧
    map_find (key ent) (AnyKey.dict g1) = Some (key ent, b) ∧
    gevict g1 = Ok (tt, g2) ∧
    AnyKey.list_ g2 = es ∧
    AnyKey.dict g2 = filter (λ kv, kv.1 ≠ key ent) (AnyKey.dict g1) ∧
    map_find (key ent) (AnyKey.dict g2) = None ∧
    AnyKey.pool g2 = po :: AnyKey.pool g1 ∧
    AnyKey.entries g2 = AnyKey.entries g1 ∧
    AnyKey.elements g2 = AnyKey.elements g1 ∧
    AnyKey.capacity g2 = AnyKey.capacity g1.
Proof.
  intros Hsym Hcap Hops Hs Halloc Hne.
  destruct (session_reached cap h rs g Hsym Hcap Hops Hs) as (Hinv & Hok & _).
  destruct (Put_alloc_spec zeroK zeroV select k v (forget g) Hinv)
    as (p' & c1 & Halloc' & Hinv1 & _).
  destruct (Put_alloc_sim zeroK zeroV select g k v p' c1 Halloc')
    as (g1' & HG & -> & Hd1).
  rewrite Halloc in HG. injection HG as <- <-.
  assert (keys_ok (AnyKey.dict g1)) as Hok1 by (by rewrite Hd1).
  destruct (proj2 (last_is_Some _) Hne) as [b [es Hes]%last_Some].
  assert (b ∈ list_ (forget g1)) as Hb.
  { simpl. rewrite Hes. apply elem_of_app. right. by left. }
  destruct (inv_list_dict _ Hinv1 b Hb) as (po & ent & Hpo & Hent & Hd).
  simpl in Hpo, Hent, Hd.
  apply (elem_of_list_to_map_2 (M:=gmap K)) in Hd.
  assert (key ent ∈ (AnyKey.dict g1).*1) as Hk.
  { apply list_elem_of_fmap. by exists (key ent, b). }
  pose proof Hok1 as [_ Hok1']. destruct (Hok1' _ Hk) as [[Hh _] _].
  eexists es, b, po, ent, _. do 3 (split; [done|]).
  split; [by apply (map_find_stored eqb hashable)|].
  split.
  { apply (gevict_explicit g1 es b); try done.
    apply (inv_list_nodup _ Hinv1). }
  simpl. split; [done|].
  split; [by apply (map_delete_stored eqb hashable)|].
  split; [|done].
  apply (map_find_None eqb). by intros kv [Hkv _]%list_elem_of_filter.
Qed.

(** X10.  Write-only workloads: for keys on which [==] holds between
    identical keys only, after any sequence of [Put]s of hashable keys
    [==] to themselves on a fresh cache of capacity [cap > 0], the live
    pairs are the [cap] most recently put distinct keys, most recent first,
    each with the value of its last [Put]. *)
Theorem X10_puts_keep_most_recent_keys cap (kvs : list (K * V)) :
  (∀ a b, eqb a b = true → a = b) →
  0 < cap → Forall plain_key kvs.*1 →
  ∃ rs g, gsession cap (puts kvs) = Ok (rs, g) ∧
          contents (forget g)
            = Some (take (Z.to_nat cap) (distinct_keys (reverse kvs))).
Proof.
  intros Hid Hcap Hplain.
  assert (∀ a b, eqb a b = eqb b a) as Hsym.
  { intros a b. destruct (eqb a b) eqn:Hab, (eqb b a) eqn:Hba; try done.
    - pose proof (Hid a b Hab). subst b. congruence.
    - pose proof (Hid b a Hba). subst b. congruence. }
  assert (Forall plain_op (puts kvs)) as Hops.
  { unfold puts. apply Forall_fmap. apply (Forall_fmap fst) in Hplain.
    eapply Forall_impl; [exact Hplain|]. by intros [k v]. }
  destruct (session_sim eqb hashable zeroK zeroV select Hsym cap _ Hcap Hops)
    as (rs & g & ops' & Hs & Hs' & Hsame & _).
  assert (ops' = puts kvs) as ->.
  { symmetry. apply list_eq_Forall2. eapply Forall2_impl; [exact Hsame|].
    intros [k|k v] [k'|k' v']; simpl; try done.
    - intros [->|Heq]; [done|]. by rewrite (Hid k' k Heq).
    - intros [[->|Heq] ->]; [done|]. by rewrite (Hid k' k Heq). }
  destruct (session_refines zeroK zeroV select cap (puts kvs) Hcap)
    as (c & Hsc & _ & Hc & _).
  rewrite Hs' in Hsc. injection Hsc as _ <-.
  exists rs, g. split; [done|]. rewrite Hc. f_equal.
  by apply seq_run_puts.
Qed.

End anykey_more.

Lemma X1_put_then_get_returns_value_witness :
  (∀ a b, AnyKey.float_eqb a b = AnyKey.float_eqb b a) ∧
  0 < 2 ∧
  Forall (AnyKey.plain_op AnyKey.float_eqb (λ _, true))
    [OpPut (AnyKey.Num 1) 10; OpPut (AnyKey.Num 2) 20;
     OpPut (AnyKey.Num 3) 30] ∧
  AnyKey.plain_key AnyKey.float_eqb (λ _, true) (AnyKey.Num 1) ∧
  ∃ rs g,
    AnyKey.session AnyKey.float_eqb (λ _, true) (AnyKey.Num 0) 0 reuse_last 2
      [OpPut (AnyKey.Num 1) 10; OpPut (AnyKey.Num 2) 20;
       OpPut (AnyKey.Num 3) 30] = Ok (rs, g) ∧
  ∃ g1 g2,
    AnyKey.Put AnyKey.float_eqb (λ _, true) (AnyKey.Num 0) 0 reuse_last
      (AnyKey.Num 1) 11 g = Ok (tt, g1) ∧
    AnyKey.Get AnyKey.float_eqb (λ _, true) 0 (AnyKey.Num 1) g1
      = Ok ((11, true), g2) ∧
    contents (AnyKey.forget g2) = contents (AnyKey.forget g1).
Proof.
  split; [exact float_eqb_sym|]. split; [lia|].
  split; [repeat constructor|]. split; [split; reflexivity|].
  eexists _, _. split; [evaluated|].
  refine (X1_put_then_get_returns_value AnyKey.float_eqb (λ _, true)
            (AnyKey.Num 0) 0 reuse_last 2
            [OpPut (AnyKey.Num 1) 10; OpPut (AnyKey.Num 2) 20;
             OpPut (AnyKey.Num 3) 30] [Done; Done; Done]
            _ (AnyKey.Num 1) 11 float_eqb_sym _ _ _ _);
    [lia|repeat constructor|evaluated|split; reflexivity].
Defined.

Lemma X8_get_found_iff_live_witness :
  (∀ a b, AnyKey.float_eqb a b = AnyKey.float_eqb b a) ∧
  0 < 2 ∧
  Forall (AnyKey.plain_op AnyKey.float_eqb (λ _, true))
    [OpPut (AnyKey.Num 1) 10; OpPut (AnyKey.Num 2) 20; OpGet AnyKey.NaN;
     OpPut (AnyKey.Num 3) 30] ∧
  ∃ rs g,
    AnyKey.session AnyKey.float_eqb (λ _, true) (AnyKey.Num 0) 0 reuse_last 2
      [OpPut (AnyKey.Num 1) 10; OpPut (AnyKey.Num 2) 20; OpGet AnyKey.NaN;
       OpPut (AnyKey.Num 3) 30] = Ok (rs, g) ∧
  ∃ l, contents (AnyKey.forget g) = Some l ∧ NoDup l.*1 ∧
       ∀ k, (λ _ : AnyKey.float_key, true) k = true →
         ∃ r g',
           AnyKey.Get AnyKey.float_eqb (λ _, true) 0 k g = Ok (r, g') ∧
           (r.2 = true ↔ ∃ k', k' ∈ l.*1 ∧ AnyKey.float_eqb k' k = true) ∧
           (r.2 = true → ∃ k', AnyKey.float_eqb k' k = true ∧ (k', r.1) ∈ l).
Proof.
  split; [exact float_eqb_sym|]. split; [lia|].
  split; [repeat constructor|].
  eexists _, _. split; [evaluated|].
  refine (X8_get_found_iff_live AnyKey.float_eqb (λ _, true)
            (AnyKey.Num 0) 0 reuse_last 2
            [OpPut (AnyKey.Num 1) 10; OpPut (AnyKey.Num 2) 20;
             OpGet AnyKey.NaN; OpPut (AnyKey.Num 3) 30]
            [Done; Done; Got 0 false; Done] _ float_eqb_sym _ _ _);
    [lia|repeat constructor|evaluated].
Defined.

Lemma X9_evict_unlinks_back_and_pools_it_witness :
  (∀ a b, AnyKey.float_eqb a b = AnyKey.float_eqb b a) ∧
  0 < 1 ∧
  Forall (AnyKey.plain_op AnyKey.float_eqb (λ _, true))
    [OpPut (AnyKey.Num 1) 10] ∧
  ∃ rs g p g1,
    AnyKey.session AnyKey.float_eqb (λ _, true) (AnyKey.Num 0) 0 reuse_last 1
      [OpPut (AnyKey.Num 1) 10] = Ok (rs, g) ∧
    AnyKey.Put_alloc (AnyKey.Num 0) 0 reuse_last (AnyKey.Num 2) 20 g
      = Ok (p, g1) ∧
    AnyKey.list_ g1 ≠ [] ∧
  ∃ (es : list loc) (b : loc) po ent g2,
    AnyKey.list_ g1 = es ++ [b] ∧
    AnyKey.elements g1 !! b = Some po ∧ AnyKey.entries g1 !! po = Some ent ∧
    AnyKey.map_find AnyKey.float_eqb (key ent) (AnyKey.dict g1)
      = Some (key ent, b) ∧
    AnyKey.evict AnyKey.float_eqb (λ _, true) g1 = Ok (tt, g2) ∧
    AnyKey.list_ g2 = es ∧
    AnyKey.dict g2 = filter (λ kv, kv.1 ≠ key ent) (AnyKey.dict g1) ∧
    AnyKey.map_find AnyKey.float_eqb (key ent) (AnyKey.dict g2) = None ∧
    AnyKey.pool g2 = po :: AnyKey.pool g1 ∧
    AnyKey.entries g2 = AnyKey.entries g1 ∧
    AnyKey.elements g2 = AnyKey.elements g1 ∧
    AnyKey.capacity g2 = AnyKey.capacity g1.
Proof.
  split; [exact float_eqb_sym|]. split; [lia|].
  split; [repeat constructor|].
  eexists _, _, _, _. split; [evaluated|]. split; [evaluated|].
  split; [discriminate|].
  refine (X9_evict_unlinks_back_and_pools_it AnyKey.float_eqb (λ _, true)
            (AnyKey.Num 0) 0 reuse_last 1 [OpPut (AnyKey.Num 1) 10] [Done]
            _ (AnyKey.Num 2) 20 _ _ float_eqb_sym _ _ _ _ _);
    [lia|repeat constructor|evaluated|evaluated|discriminate].
Defined.

Lemma X10_puts_keep_most_recent_keys_witness :
  (∀ a b, AnyKey.float_eqb a b = true → a = b) ∧
  0 < 2 ∧
  Forall (AnyKey.plain_key AnyKey.float_eqb (λ _, true))
    [(AnyKey.Num 1, 10); (AnyKey.Num 2, 20); (AnyKey.Num 1, 11);
     (AnyKey.Num 3, 30)].*1 ∧
  ∃ rs g,
    AnyKey.session AnyKey.float_eqb (λ _, true) (AnyKey.Num 0) 0 reuse_last 2
      (puts [(AnyKey.Num 1, 10); (AnyKey.Num 2, 20); (AnyKey.Num 1, 11);
             (AnyKey.Num 3, 30)]) = Ok (rs, g) ∧
    contents (AnyKey.forget g)
      = Some (take (Z.to_nat 2)
                (distinct_keys
                   (reverse [(AnyKey.Num 1, 10); (AnyKey.Num 2, 20);
                             (AnyKey.Num 1, 11); (AnyKey.Num 3, 30)]))).
Proof.
  split; [exact float_eqb_eq|]. split; [lia|].
  split; [repeat constructor|].
  apply (X10_puts_keep_most_recent_keys AnyKey.float_eqb (λ _, true)
           (AnyKey.Num 0) 0 reuse_last 2
           [(AnyKey.Num 1, 10); (AnyKey.Num 2, 20); (AnyKey.Num 1, 11);
            (AnyKey.Num 3, 30)] float_eqb_eq); [lia|repeat constructor].
Defined.


(** * Further properties of the stream package *)

Section latest_more.
Context {T : Type} (zero : T).
Import Stream.

Local Abbreviation queue := (@LatestItemQueue T).
Local Abbreviation Produce := (Stream.Produce zero).
Local Abbreviation Consume := (Stream.Consume zero).
Local Abbreviation reachable := (Stream.reachable zero).

Implicit Types (q : queue).

Ltac unfold_queue :=
  unfold Stream.Produce, Stream.Consume, ConsumeChannel, Close,
    recv_ready, send_ready, recv, send, close,
    mbind, outcome_bind, mret, outcome_ret in *;
  simpl in *.

Ltac queue_cases q :=
  let b := fresh "b" in
  let cl := fresh "cl" in
  let Hcl := fresh "Hcl" in
  let Hb := fresh "Hb" in
  let Hn := fresh "Hn" in
  let Hlen := fresh "Hlen" in
  destruct q as [[b ? cl] [? ? ?]];
  intros (Hcl & Hb & Hn & Hlen); simpl in Hcl, Hb, Hn, Hlen; subst;
  destruct b as [|? [|? ?]]; simpl in Hlen; [| |lia];
  destruct cl.

(** X12.  Shape of the queue: in every queue a program can build the item
    channel has capacity 1 and holds at most one item, nothing has been
    sent on the [closed] channel, and the two channels are either both
    open or both closed. *)
Theorem X12_queue_holds_at_most_one_item q :
  reachable q →
  cap (channel q) = 1%nat ∧ (length (buf (channel q)) ≤ 1)%nat ∧
  buf (closed q) = [] ∧
  chan_closed (closed q) = chan_closed (channel q).
Proof. intros (? & ? & ? & ?)%reachable_inv. done. Qed.

(** X13.  The latest item wins, sequentially: on every open queue a
    program can build, a call of [Produce] during which no other goroutine
    operates on the queue returns (it neither blocks nor panics, whichever
    case the [select] takes), leaves the queue open with exactly the
    produced item pending, whatever was pending before, and the next
    receive yields that item and empties the queue. *)
Theorem X13_produce_replaces_pending_item q first item :
  reachable q → chan_closed (closed q) = false →
  ∃ q' q'', Produce first item q = Returns q' ∧
            buf (channel q') = [item] ∧ chan_closed (closed q') = false ∧
            Consume q' = Returns ((item, true), q'') ∧
            buf (channel q'') = [].
Proof.
  intros Hinv%reachable_inv. revert Hinv.
  queue_cases q; intros Hopen; try done; destruct first; unfold_queue;
    eexists _, _; repeat split.
Qed.

(** X14.  [Produce] on a closed queue never enqueues and never blocks:
    when the [select] takes the [closed] case it returns and the queue is
    unchanged; when it takes the send case, which is ready as well on a
    closed channel, it panics with "send on closed channel". *)
Theorem X14_produce_on_closed_queue q item :
  reachable q → chan_closed (closed q) = true →
  Produce true item q = Returns q ∧
  Produce false item q = Panics "send on closed channel".
Proof.
  intros Hinv%reachable_inv. revert Hinv.
  queue_cases q; intros Hclosed; try done; unfold_queue; done.
Qed.

(** X15.  A receive on the consume channel blocks exactly when the queue
    is open and nothing is pending. *)
Theorem X15_consume_blocks_iff_open_and_empty q :
  reachable q →
  Consume q = Blocks ↔
    buf (channel q) = [] ∧ chan_closed (closed q) = false.
Proof.
  intros Hinv%reachable_inv. revert Hinv.
  queue_cases q; unfold_queue; split; (done || by intros [? ?]).
Qed.

(** X16.  [Close] keeps the pending item: on every queue a program can
    build it returns, both channels are closed afterwards, and the item
    channel's buffer is what it was. *)
Theorem X16_close_keeps_pending_item q :
  reachable q →
  ∃ q', Close q = Returns q' ∧
        buf (channel q') = buf (channel q) ∧
        chan_closed (channel q') = true ∧ chan_closed (closed q') = true.
Proof.
  intros Hinv%reachable_inv. revert Hinv.
  queue_cases q; unfold_queue; eexists; repeat split.
Qed.

End latest_more.

Section pq_more.
Context {T : Type}.
Import Stream.

Local Abbreviation item_t := (@Item T).

Implicit Types (pq : PriorityQueue) (items : list item_t) (it : item_t).

Lemma set_index_set_index x y it : set_index x (set_index y it) = set_index x it.
Proof. done. Qed.

Lemma set_index_same it : set_index (index it) it = it.
Proof. by destruct it. Qed.

Lemma at_index_lookup pq (n : nat) : at_index pq (Z.of_nat n) = pq !! n.
Proof.
  unfold at_index. rewrite decide_True by lia. by rewrite Nat2Z.id.
Qed.

Lemma at_index_inv pq i a :
  at_index pq i = Some a → pq !! Z.to_nat i = Some a ∧ i = Z.of_nat (Z.to_nat i).
Proof.
  unfold at_index. case_decide; [|done]. intros Hl. split; [done|lia].
Qed.

Lemma indexed_valid pq items : indexed pq items → pq_valid pq items.
Proof.
  intros Hix. apply Forall_lookup. intros i a Hi.
  destruct (Hix i a Hi) as (it & Hit & _). by eexists.
Qed.

Lemma indexed_inj pq items i j a :
  indexed pq items → pq !! i = Some a → pq !! j = Some a → i = j.
Proof.
  intros Hix Hi Hj.
  destruct (Hix i a Hi) as (it & Hit & Hidx).
  destruct (Hix j a Hj) as (it' & Hit' & Hidx').
  assert (it' = it) as -> by congruence. lia.
Qed.

(** X17.  Round trip: [Push] of a non-nil item followed by [Pop] returns
    that item and the slice as it was before the [Push]; of the items only
    the pushed one has changed, and only in its [index], which is [-1]. *)
Theorem X17_push_then_pop_returns_item pq items item it :
  items !! item = Some it →
  ∃ items1,
    Push item pq items = Ok (pq ++ [item], items1) ∧
    Pop (pq ++ [item]) items1 =
      Ok (Some item, pq, <[item := set_index (-1) it]> items).
Proof.
  intros Hit. unfold Push. rewrite Hit. eexists. split; [done|].
  rewrite (Pop_snoc pq item _ (set_index (Len pq) it)).
  - by rewrite list_insert_insert_eq.
  - apply list_lookup_insert_eq. by eapply lookup_lt_Some.
Qed.

Lemma Swap_explicit pq items i j a b ita itb :
  at_index pq i = Some a → at_index pq j = Some b →
  items !! a = Some ita → items !! b = Some itb →
  Swap i j pq items =
    Ok (<[Z.to_nat j := a]> (<[Z.to_nat i := b]> pq),
        <[a := set_index j ita]> (<[b := set_index i itb]> items)) ∧
  at_index (<[Z.to_nat j := a]> (<[Z.to_nat i := b]> pq)) i = Some b ∧
  at_index (<[Z.to_nat j := a]> (<[Z.to_nat i := b]> pq)) j = Some a.
Proof.
  intros Ha Hb Hita Hitb.
  destruct (at_index_inv pq i a Ha) as [Hla Hi].
  destruct (at_index_inv pq j b Hb) as [Hlb Hj].
  pose proof (lookup_lt_Some _ _ _ Hla) as Hlena.
  pose proof (lookup_lt_Some _ _ _ Hlb) as Hlenb.
  pose proof (lookup_lt_Some _ _ _ Hita) as Hlia.
  pose proof (lookup_lt_Some _ _ _ Hitb) as Hlib.
  assert (at_index (<[Z.to_nat j := a]> (<[Z.to_nat i := b]> pq)) i = Some b)
    as Hx.
  { unfold at_index. rewrite decide_True by lia.
    destruct (decide (Z.to_nat j = Z.to_nat i)) as [Heq|Hne].
    - rewrite Heq. rewrite list_lookup_insert_eq by by rewrite length_insert.
      rewrite Heq in Hlb. congruence.
    - rewrite list_lookup_insert_ne by done.
      by rewrite list_lookup_insert_eq. }
  assert (at_index (<[Z.to_nat j := a]> (<[Z.to_nat i := b]> pq)) j = Some a)
    as Hy.
  { unfold at_index. rewrite decide_True by lia.
    by rewrite list_lookup_insert_eq by by rewrite length_insert. }
  split; [|done]. unfold Swap. rewrite Ha, Hb. cbv zeta.
  rewrite Hx, Hitb, Hy.
  destruct (decide (a = b)) as [->|Hne].
  - rewrite list_lookup_insert_eq by done.
    assert (ita = itb) as -> by congruence. done.
  - rewrite list_lookup_insert_ne by done. by rewrite Hita.
Qed.

Lemma Push_indexed pq items item pq' items' :
  indexed pq items → item ∉ pq →
  Push item pq items = Ok (pq', items') → indexed pq' items'.
Proof.
  intros Hix Hnotin. unfold Push.
  destruct (items !! item) as [it|] eqn:Hit; [|done]. intros [= <- <-].
  intros i a [Hi|[Hi Ha]]%lookup_app_Some.
  - destruct (Hix i a Hi) as (ita & Hita & Hidx). exists ita. split; [|done].
    rewrite list_lookup_insert_ne; [done|]. intros ->. apply Hnotin.
    apply list_elem_of_lookup. eauto.
  - destruct (i - length pq)%nat as [|n] eqn:Hn; [|done].
    injection Ha as <-. exists (set_index (Len pq) it). split.
    + apply list_lookup_insert_eq. by eapply lookup_lt_Some.
    + simpl. unfold Len. lia.
Qed.

Lemma Pop_indexed pq items r pq' items' :
  indexed pq items →
  Pop pq items = Ok (r, pq', items') → indexed pq' items'.
Proof.
  intros Hix.
  destruct (last pq) as [item|] eqn:Hlast.
  - apply last_Some in Hlast as [pq0 ->].
    destruct (Hix (length pq0) item) as (it & Hit & Hidx).
    { by apply list_lookup_middle. }
    rewrite (Pop_snoc pq0 item items it Hit). intros [= <- <- <-].
    intros i a Hi.
    destruct (Hix i a) as (ita & Hita & Hidxa).
    { by apply lookup_app_l_Some. }
    exists ita. split; [|done].
    rewrite list_lookup_insert_ne; [done|]. intros ->.
    pose proof (lookup_lt_Some _ _ _ Hi) as Hlt.
    assert (i = length pq0); [|lia].
    eapply (indexed_inj _ _ _ _ _ Hix).
    + by apply lookup_app_l_Some.
    + by apply list_lookup_middle.
  - apply last_None in Hlast as ->. intros [= <- <- <-]. done.
Qed.

Lemma Swap_indexed pq items i j pq' items' :
  indexed pq items →
  Swap i j pq items = Ok (pq', items') → indexed pq' items'.
Proof.
  intros Hix HS.
  destruct (at_index pq i) as [a|] eqn:Ha;
    [|unfold Swap in HS; by rewrite Ha in HS].
  destruct (at_index pq j) as [b|] eqn:Hb;
    [|unfold Swap in HS; by rewrite Ha, Hb in HS].
  destruct (at_index_inv pq i a Ha) as [Hla Hi].
  destruct (at_index_inv pq j b Hb) as [Hlb Hj].
  destruct (Hix _ _ Hla) as (ita & Hita & Hidxa).
  destruct (Hix _ _ Hlb) as (itb & Hitb & Hidxb).
  destruct (Swap_explicit pq items i j a b ita itb Ha Hb Hita Hitb)
    as (HS' & _ & _).
  rewrite HS in HS'. injection HS' as -> ->.
  pose proof (lookup_lt_Some _ _ _ Hita) as Hlia.
  pose proof (lookup_lt_Some _ _ _ Hitb) as Hlib.
  intros n c Hn.
  apply list_lookup_insert_Some in Hn as [(<- & <- & _)|[Hnj Hn]].
  - exists (set_index j ita). split; [|simpl; lia].
    apply list_lookup_insert_eq. by rewrite length_insert.
  - apply list_lookup_insert_Some in Hn as [(<- & <- & _)|[Hni Hn]].
    + assert (b ≠ a) as Hne.
      { intros ->. apply Hnj. by eapply (indexed_inj pq items). }
      exists (set_index i itb). split; [|simpl; lia].
      rewrite list_lookup_insert_ne by done.
      by apply list_lookup_insert_eq.
    + destruct (Hix n c Hn) as (itc & Hitc & Hidxc).
      exists itc. split; [|done].
      rewrite !list_lookup_insert_ne; [done|..].
      * intros ->. apply Hnj. eapply (indexed_inj pq items); eauto.
      * intros ->. apply Hni. eapply (indexed_inj pq items); eauto.
Qed.

(** X18.  The [index] field tracks the position: if every item of the
    slice has its position as [index], this still holds after [Push] of an
    item that is not in the slice, after [Swap], and after [Pop]. *)
Theorem X18_index_field_tracks_position pq items :
  indexed pq items →
  (∀ item pq' items', item ∉ pq →
     Push item pq items = Ok (pq', items') → indexed pq' items') ∧
  (∀ i j pq' items',
     Swap i j pq items = Ok (pq', items') → indexed pq' items') ∧
  (∀ r pq' items',
     Pop pq items = Ok (r, pq', items') → indexed pq' items').
Proof.
  intros Hix. split; [|split].
  - intros item pq' items' Hnotin. by apply Push_indexed.
  - intros i j pq' items'. by apply Swap_indexed.
  - intros r pq' items'. by apply Pop_indexed.
Qed.


(** X19.  [Swap] exchanges two positions: when both indices are inside a
    slice of non-nil items, [Swap] returns without a panic, the two
    positions hold each other's former item, every other position and the
    length are unchanged, no item's [value] or [priority] is touched, and
    [Less i j] afterwards is [Less j i] before. *)
Theorem X19_swap_exchanges_positions pq items i j a b :
  pq_valid pq items → at_index pq i = Some a → at_index pq j = Some b →
  ∃ pq' items',
    Swap i j pq items = Ok (pq', items') ∧
    at_index pq' i = Some b ∧ at_index pq' j = Some a ∧
    length pq' = length pq ∧
    (∀ n, n ≠ Z.to_nat i → n ≠ Z.to_nat j → pq' !! n = pq !! n) ∧
    (∀ c, priority <$> items' !! c = priority <$> items !! c) ∧
    (∀ c, value <$> items' !! c = value <$> items !! c) ∧
    Less i j pq' items' = Less j i pq items.
Proof.
  intros Hv Ha Hb. pose proof (proj1 (Forall_forall _ _) Hv) as Hall.
  destruct (Hall a (at_index_Some pq i a Ha)) as [ita Hita].
  destruct (Hall b (at_index_Some pq j b Hb)) as [itb Hitb].
  destruct (Swap_explicit pq items i j a b ita itb Ha Hb Hita Hitb)
    as (HS & Hx & Hy).
  pose proof (lookup_lt_Some _ _ _ Hita) as Hlia.
  pose proof (lookup_lt_Some _ _ _ Hitb) as Hlib.
  assert (∀ (f : item_t → Z) c, (∀ z it, f (set_index z it) = f it) →
            f <$> (<[a := set_index j ita]>
                     (<[b := set_index i itb]> items)) !! c
            = f <$> items !! c) as Hkeep.
  { intros f c Hf. destruct (decide (a = c)) as [<-|Hne].
    - rewrite list_lookup_insert_eq by by rewrite length_insert.
      rewrite Hita. simpl. by rewrite Hf.
    - rewrite list_lookup_insert_ne by done.
      destruct (decide (b = c)) as [<-|Hne'].
      + rewrite list_lookup_insert_eq by done. rewrite Hitb. simpl.
        by rewrite Hf.
      + by rewrite list_lookup_insert_ne. }
  eexists _, _. split; [exact HS|]. split; [exact Hx|]. split; [exact Hy|].
  split; [by rewrite !length_insert|]. split.
  { intros n Hni Hnj. by rewrite !list_lookup_insert_ne. }
  split; [intros c; by apply Hkeep|].
  assert (∀ c, value <$> (<[a := set_index j ita]>
                            (<[b := set_index i itb]> items)) !! c
               = value <$> items !! c) as Hval.
  { intros c. destruct (decide (a = c)) as [<-|Hne].
    - rewrite list_lookup_insert_eq by by rewrite length_insert.
      by rewrite Hita.
    - rewrite list_lookup_insert_ne by done.
      destruct (decide (b = c)) as [<-|Hne'].
      + rewrite list_lookup_insert_eq by done. by rewrite Hitb.
      + by rewrite list_lookup_insert_ne. }
  split; [exact Hval|].
  pose proof (Hkeep priority b (λ _ _, eq_refl)) as Hpb.
  pose proof (Hkeep priority a (λ _ _, eq_refl)) as Hpa.
  rewrite Hitb in Hpb. rewrite Hita in Hpa.
  unfold Less. rewrite Hx, Hy, Hb, Ha, Hitb, Hita.
  destruct (<[a := set_index j ita]> (<[b := set_index i itb]> items) !! b)
    as [itb'|]; [|done].
  destruct (<[a := set_index j ita]> (<[b := set_index i itb]> items) !! a)
    as [ita'|]; [|done].
  simpl in Hpb, Hpa. injection Hpb as ->. injection Hpa as ->. done.
Qed.

Lemma Swap_same_position pq items i j a ita :
  Z.to_nat i = Z.to_nat j →
  at_index pq i = Some a → at_index pq j = Some a →
  items !! a = Some ita → index ita = i →
  Swap i j pq items = Ok (pq, items).
Proof.
  intros Hij Ha Hb Hita Hidx.
  destruct (Swap_explicit pq items i j a a ita ita Ha Hb Hita Hita)
    as (-> & _ & _).
  destruct (at_index_inv pq i a Ha) as [Hla Hi].
  destruct (at_index_inv pq j a Hb) as [Hlb Hj].
  assert (j = i) as -> by lia. rewrite <-Hidx, set_index_same.
  rewrite (list_insert_id items a ita) by done.
  rewrite (list_insert_id items a ita) by done.
  rewrite Hidx. rewrite (list_insert_id pq _ a) by done.
  by rewrite (list_insert_id pq _ a) by done.
Qed.

(** X20.  [Swap] is its own inverse: on a slice whose items carry their
    positions as [index], two equal [Swap]s in a row give back the slice
    and the items exactly as they were. *)
Theorem X20_swap_twice_restores pq items i j pq' items' :
  indexed pq items →
  Swap i j pq items = Ok (pq', items') →
  Swap i j pq' items' = Ok (pq, items).
Proof.
  intros Hix HS.
  destruct (at_index pq i) as [a|] eqn:Ha;
    [|unfold Swap in HS; by rewrite Ha in HS].
  destruct (at_index pq j) as [b|] eqn:Hb;
    [|unfold Swap in HS; by rewrite Ha, Hb in HS].
  destruct (at_index_inv pq i a Ha) as [Hla Hi].
  destruct (at_index_inv pq j b Hb) as [Hlb Hj].
  destruct (Hix _ _ Hla) as (ita & Hita & Hidxa).
  destruct (Hix _ _ Hlb) as (itb & Hitb & Hidxb).
  destruct (decide (Z.to_nat i = Z.to_nat j)) as [Hij|Hij].
  { assert (b = a) as -> by (rewrite Hij in Hla; congruence).
    rewrite (Swap_same_position pq items i j a ita) in HS; try done; [|lia].
    injection HS as <- <-.
    apply (Swap_same_position pq items i j a ita); try done. lia. }
  assert (a ≠ b) as Hab.
  { intros ->. apply Hij. by eapply (indexed_inj pq items). }
  destruct (Swap_explicit pq items i j a b ita itb Ha Hb Hita Hitb)
    as (HS' & Hx & Hy).
  rewrite HS in HS'. injection HS' as -> ->.
  pose proof (lookup_lt_Some _ _ _ Hita) as Hlia.
  pose proof (lookup_lt_Some _ _ _ Hitb) as Hlib.
  pose proof (lookup_lt_Some _ _ _ Hla) as Hlena.
  pose proof (lookup_lt_Some _ _ _ Hlb) as Hlenb.
  destruct (Swap_explicit _ (<[a := set_index j ita]>
                               (<[b := set_index i itb]> items))
              i j b a (set_index i itb) (set_index j ita) Hx Hy)
    as (-> & _ & _).
  { rewrite list_lookup_insert_ne by done. by apply list_lookup_insert_eq. }
  { apply list_lookup_insert_eq. by rewrite length_insert. }
  rewrite !set_index_set_index.
  assert (set_index i ita = ita) as -> by (rewrite <-set_index_same; f_equal; lia).
  assert (set_index j itb = itb) as -> by (rewrite <-set_index_same; f_equal; lia).
  f_equal. f_equal.
  - apply list_eq. intros n.
    destruct (decide (Z.to_nat j = n)) as [<-|Hnj].
    + rewrite list_lookup_insert_eq by by rewrite !length_insert. done.
    + rewrite list_lookup_insert_ne by done.
      destruct (decide (Z.to_nat i = n)) as [<-|Hni].
      * rewrite list_lookup_insert_eq by by rewrite !length_insert. done.
      * by rewrite !list_lookup_insert_ne.
  - apply list_eq. intros c.
    destruct (decide (b = c)) as [<-|Hnb].
    + rewrite list_lookup_insert_eq by by rewrite !length_insert. done.
    + rewrite list_lookup_insert_ne by done.
      destruct (decide (a = c)) as [<-|Hna].
      * rewrite list_lookup_insert_eq by by rewrite !length_insert. done.
      * by rewrite !list_lookup_insert_ne.
Qed.


End pq_more.

Lemma X12_queue_holds_at_most_one_item_witness :
  let q := Stream.Build_LatestItemQueue
             (Stream.Chan [43] 1 false) (Stream.Chan [] 0 false) in
  Stream.reachable 0 q ∧
  Stream.cap (Stream.channel q) = 1%nat ∧
  (length (Stream.buf (Stream.channel q)) ≤ 1)%nat ∧
  Stream.buf (Stream.closed q) = [] ∧
  Stream.chan_closed (Stream.closed q) =
    Stream.chan_closed (Stream.channel q).
Proof.
  intros q.
  assert (Stream.reachable 0 q) as Hq.
  { eapply rtc_l; [apply (Stream.step_produce 0 true 42); reflexivity|].
    apply rtc_once. apply (Stream.step_produce 0 true 43). reflexivity. }
  split; [exact Hq|].
  apply (X12_queue_holds_at_most_one_item 0 q). exact Hq.
Defined.

Lemma X13_produce_replaces_pending_item_witness :
  let q := Stream.Build_LatestItemQueue
             (Stream.Chan [42] 1 false) (Stream.Chan [] 0 false) in
  Stream.reachable 0 q ∧ Stream.chan_closed (Stream.closed q) = false ∧
  ∃ q' q'', Stream.Produce 0 false 43 q = Stream.Returns q' ∧
            Stream.buf (Stream.channel q') = [43] ∧
            Stream.chan_closed (Stream.closed q') = false ∧
            Stream.Consume 0 q' = Stream.Returns ((43, true), q'') ∧
            Stream.buf (Stream.channel q'') = [].
Proof.
  intros q.
  assert (Stream.reachable 0 q) as Hq.
  { apply rtc_once. apply (Stream.step_produce 0 true 42). reflexivity. }
  split; [exact Hq|]. split; [reflexivity|].
  apply (X13_produce_replaces_pending_item 0 q false 43);
    [exact Hq|reflexivity].
Defined.

Lemma X14_produce_on_closed_queue_witness :
  let q := Stream.Build_LatestItemQueue
             (Stream.Chan [42] 1 true) (Stream.Chan [] 0 true) in
  Stream.reachable 0 q ∧ Stream.chan_closed (Stream.closed q) = true ∧
  Stream.Produce 0 true 43 q = Stream.Returns q ∧
  Stream.Produce 0 false 43 q = Stream.Panics "send on closed channel".
Proof.
  intros q.
  assert (Stream.reachable 0 q) as Hq.
  { eapply rtc_l; [apply (Stream.step_produce 0 true 42); reflexivity|].
    apply rtc_once. apply Stream.step_close. reflexivity. }
  split; [exact Hq|]. split; [reflexivity|].
  apply (X14_produce_on_closed_queue 0 q 43); [exact Hq|reflexivity].
Defined.

Lemma X15_consume_blocks_iff_open_and_empty_witness :
  let q := @Stream.NewLatestItemQueue Z in
  Stream.reachable 0 q ∧
  (Stream.Consume 0 q = Stream.Blocks ↔
     Stream.buf (Stream.channel q) = [] ∧
     Stream.chan_closed (Stream.closed q) = false).
Proof.
  intros q.
  assert (Stream.reachable 0 q) as Hq by apply rtc_refl.
  split; [exact Hq|].
  apply (X15_consume_blocks_iff_open_and_empty 0 q). exact Hq.
Defined.

Lemma X16_close_keeps_pending_item_witness :
  let q := Stream.Build_LatestItemQueue
             (Stream.Chan [42] 1 false) (Stream.Chan [] 0 false) in
  Stream.reachable 0 q ∧
  ∃ q', Stream.Close q = Stream.Returns q' ∧
        Stream.buf (Stream.channel q') = Stream.buf (Stream.channel q) ∧
        Stream.chan_closed (Stream.channel q') = true ∧
        Stream.chan_closed (Stream.closed q') = true.
Proof.
  intros q.
  assert (Stream.reachable 0 q) as Hq.
  { apply rtc_once. apply (Stream.step_produce 0 true 42). reflexivity. }
  split; [exact Hq|].
  apply (X16_close_keeps_pending_item 0 q). exact Hq.
Defined.

Lemma X17_push_then_pop_returns_item_witness :
  let items := [Stream.Build_Item 7 3 0; Stream.Build_Item 8 1 0] in
  let pq : Stream.PriorityQueue := [0%nat] in
  items !! 1%nat = Some (Stream.Build_Item 8 1 0) ∧
  ∃ items1,
    Stream.Push 1%nat pq items = Ok (pq ++ [1%nat], items1) ∧
    Stream.Pop (pq ++ [1%nat]) items1 =
      Ok (Some 1%nat, pq,
          <[1%nat := Stream.set_index (-1) (Stream.Build_Item 8 1 0)]> items).
Proof.
  intros items pq. split; [reflexivity|].
  apply (X17_push_then_pop_returns_item pq items 1%nat). reflexivity.
Defined.

Lemma example_indexed :
  Stream.indexed [0%nat; 1%nat]
    [Stream.Build_Item 7 3 0; Stream.Build_Item 8 1 1; Stream.Build_Item 9 2 0].
Proof.
  intros [|[|n]] a Hi; simpl in Hi; try done; injection Hi as <-;
    eexists; (split; [reflexivity|done]).
Defined.

Lemma X18_index_field_tracks_position_witness :
  let items :=
    [Stream.Build_Item 7 3 0; Stream.Build_Item 8 1 1; Stream.Build_Item 9 2 0] in
  let pq : Stream.PriorityQueue := [0%nat; 1%nat] in
  Stream.indexed pq items ∧
  (∀ item pq' items', item ∉ pq →
     Stream.Push item pq items = Ok (pq', items') →
     Stream.indexed pq' items') ∧
  (∀ i j pq' items',
     Stream.Swap i j pq items = Ok (pq', items') →
     Stream.indexed pq' items') ∧
  (∀ r pq' items',
     Stream.Pop pq items = Ok (r, pq', items') → Stream.indexed pq' items').
Proof.
  intros items pq. split; [exact example_indexed|].
  apply (X18_index_field_tracks_position pq items). exact example_indexed.
Defined.

Lemma X19_swap_exchanges_positions_witness :
  let items :=
    [Stream.Build_Item 7 3 0; Stream.Build_Item 8 1 1; Stream.Build_Item 9 2 0] in
  let pq : Stream.PriorityQueue := [0%nat; 1%nat] in
  Stream.pq_valid pq items ∧
  Stream.at_index pq 0 = Some 0%nat ∧ Stream.at_index pq 1 = Some 1%nat ∧
  ∃ pq' items',
    Stream.Swap 0 1 pq items = Ok (pq', items') ∧
    Stream.at_index pq' 0 = Some 1%nat ∧
    Stream.at_index pq' 1 = Some 0%nat ∧
    length pq' = length pq ∧
    (∀ n, n ≠ Z.to_nat 0 → n ≠ Z.to_nat 1 → pq' !! n = pq !! n) ∧
    (∀ c, Stream.priority <$> items' !! c = Stream.priority <$> items !! c) ∧
    (∀ c, Stream.value <$> items' !! c = Stream.value <$> items !! c) ∧
    Stream.Less 0 1 pq' items' = Stream.Less 1 0 pq items.
Proof.
  intros items pq.
  assert (Stream.pq_valid pq items) as Hv.
  { repeat constructor; by eexists. }
  split; [exact Hv|]. split; [reflexivity|]. split; [reflexivity|].
  apply (X19_swap_exchanges_positions pq items 0 1 0%nat 1%nat);
    [exact Hv|reflexivity|reflexivity].
Defined.

Lemma X20_swap_twice_restores_witness :
  let items :=
    [Stream.Build_Item 7 3 0; Stream.Build_Item 8 1 1; Stream.Build_Item 9 2 0] in
  let pq : Stream.PriorityQueue := [0%nat; 1%nat] in
  Stream.indexed pq items ∧
  ∃ pq' items',
    Stream.Swap 0 1 pq items = Ok (pq', items') ∧
    Stream.Swap 0 1 pq' items' = Ok (pq, items).
Proof.
  intros items pq. split; [exact example_indexed|].
  eexists _, _. split; [reflexivity|].
  apply (X20_swap_twice_restores pq items 0 1);
    [exact example_indexed|reflexivity].
Defined.
